(** * danube_postprocess: the OCR post-processing worker

    A shallow embedding of [Resources/danube_postprocess.py]: the model
    resolver's file selection and download, the generation adapter's token
    bound, the output normalizer and the line protocol loop, followed by the
    properties stated for them.

    A Python [str] is modelled as a list of characters whose code points lie
    below 256 ([Ascii.ascii]); the character classes below are CPython's
    tables restricted to that range.  What the program takes from outside
    (the lines of standard input, the JSON decoder, the model call, the
    network and the file system) is a
    parameter of the model; an exception is one that [except Exception]
    catches, carried as its message. *)

From Stdlib Require Import Ascii String List ZArith Lia Bool Arith.
From Equations Require Import Equations.
Import ListNotations.

Set Implicit Arguments.

(** ** Part I. Definitions *)

Module PyStr.

Definition str := list ascii.

Definition py (s : string) : str := list_ascii_of_string s.
Arguments py s%_string.

Definition code (c : ascii) : nat := nat_of_ascii c.

Definition LF : ascii := ascii_of_nat 10.
Definition CR : ascii := ascii_of_nat 13.
Definition DQ : ascii := ascii_of_nat 34.
Definition BSL : ascii := ascii_of_nat 92.

(** [Py_UNICODE_ISSPACE] below 256: what [str.strip] removes and what the
    regular expression class [\s] accepts. *)
Definition isspace (c : ascii) : bool :=
  let n := code c in
  ((9 <=? n) && (n <=? 13)) || ((28 <=? n) && (n <=? 31))
  || (n =? 32) || (n =? 133) || (n =? 160).

(** [Py_UNICODE_ISLINEBREAK] below 256: the boundaries of [str.splitlines]. *)
Definition islinebreak (c : ascii) : bool :=
  let n := code c in
  ((10 <=? n) && (n <=? 13)) || ((28 <=? n) && (n <=? 30)) || (n =? 133).

(** The class [\d] below 256. *)
Definition isdigit (c : ascii) : bool :=
  let n := code c in (48 <=? n) && (n <=? 57).

(** ASCII lower-casing, which is all that [(?i)] needs for a pattern made of
    ASCII letters over this alphabet. *)
Definition lower (c : ascii) : ascii :=
  let n := code c in
  if (65 <=? n) && (n <=? 90) then ascii_of_nat (n + 32) else c.

Definition is_empty (s : str) : bool :=
  match s with [] => true | _ :: _ => false end.

(** [s.startswith(p)] *)
Fixpoint startswith (p s : str) : bool :=
  match p, s with
  | [], _ => true
  | _ :: _, [] => false
  | a :: p', b :: s' => Ascii.eqb a b && startswith p' s'
  end.

(** [s.endswith(p)] *)
Definition endswith (p s : str) : bool := startswith (rev p) (rev s).

(** [sub in s] *)
Fixpoint contains (sub s : str) : bool :=
  startswith sub s ||
  match s with
  | [] => false
  | _ :: s' => contains sub s'
  end.

(** [s.lstrip()], [s.rstrip()], [s.strip()] *)
Fixpoint lstrip (s : str) : str :=
  match s with
  | [] => []
  | c :: s' => if isspace c then lstrip s' else s
  end.

Fixpoint rstrip (s : str) : str :=
  match s with
  | [] => []
  | c :: s' =>
      match rstrip s' with
      | [] => if isspace c then [] else [c]
      | r => c :: r
      end
  end.

Definition strip (s : str) : str := rstrip (lstrip s).

(** A line is blank when [line.strip()] is falsy. *)
Definition blank (s : str) : bool := is_empty (strip s).

(** [sep.join(parts)] *)
Fixpoint join (sep : str) (parts : list str) : str :=
  match parts with
  | [] => []
  | [p] => p
  | p :: rest => p ++ sep ++ join sep rest
  end.

(** [s.splitlines()]: split at every line boundary, a carriage return
    followed by a line feed counting once; no empty last line is produced
    for a text that ends in a boundary. *)
Fixpoint splitlines (s : str) : list str :=
  match s with
  | [] => []
  | c :: s' =>
      if islinebreak c then
        if Ascii.eqb c CR then
          match s' with
          | d :: s'' => if Ascii.eqb d LF then [] :: splitlines s''
                        else [] :: splitlines s'
          | [] => [] :: splitlines s'
          end
        else [] :: splitlines s'
      else
        match splitlines s' with
        | [] => [[c]]
        | l :: ls => (c :: l) :: ls
        end
  end.

(** Index of the first and of the last occurrence of [sub] in [s]. *)
Fixpoint find_first (sub s : str) : option nat :=
  if startswith sub s then Some 0
  else match s with
       | [] => None
       | _ :: s' => option_map S (find_first sub s')
       end.

Fixpoint find_last (sub s : str) : option nat :=
  match s with
  | [] => if startswith sub [] then Some 0 else None
  | _ :: s' =>
      match find_last sub s' with
      | Some i => Some (S i)
      | None => if startswith sub s then Some 0 else None
      end
  end.

Definition index_or_minus_one (o : option nat) : Z :=
  match o with Some i => Z.of_nat i | None => (-1)%Z end.

(** [s.rfind(sub)] *)
Definition rfind (sub s : str) : Z := index_or_minus_one (find_last sub s).

(** [s.find(sub, start)] for [0 <= start] *)
Definition find (sub s : str) (start : Z) : Z :=
  if (Z.of_nat (length s) <? start)%Z then (-1)%Z
  else match find_first sub (skipn (Z.to_nat start) s) with
       | Some i => (start + Z.of_nat i)%Z
       | None => (-1)%Z
       end.

(** [s[a:b]]: a negative index counts from the end, and both are clamped to
    the length. *)
Definition slice_index (s : str) (i : Z) : nat :=
  let n := Z.of_nat (length s) in
  Z.to_nat (if (i <? 0)%Z then Z.max 0 (i + n) else Z.min i n).

Definition slice (s : str) (a b : Z) : str :=
  let a' := slice_index s a in
  let b' := slice_index s b in
  firstn (b' - a') (skipn a' s).

(** [s.rsplit(sep, 1)]: split once, at the last occurrence of [sep]. *)
Definition rsplit1 (sep s : str) : list str :=
  match find_last sep s with
  | Some i => [firstn i s; skipn (i + length sep) s]
  | None => [s]
  end.

(** [s.replace(old, "")] for a non-empty [old]: occurrences are deleted from
    left to right without overlap.  [skip] counts the characters of the
    occurrence being deleted that are still to be dropped. *)
Fixpoint delete_from (old : str) (skip : nat) (s : str) : str :=
  match s with
  | [] => []
  | c :: s' =>
      match skip with
      | S k => delete_from old k s'
      | O => if startswith old s then delete_from old (length old - 1) s'
             else c :: delete_from old 0 s'
      end
  end.

Definition replace_with_empty (old s : str) : str := delete_from old 0 s.

End PyStr.
Export PyStr.

(** ** Model resolver *)

Module Resolver.

Definition preferred : list str :=
  [py "Q4_K_M"; py "Q4_K"; py "Q4"; py "q4"].

(** The inner loop of [_choose_gguf]: the first name containing [tag]. *)
Fixpoint first_with_tag (tag : str) (names : list str) : option str :=
  match names with
  | [] => None
  | name :: rest =>
      if contains tag name then Some name else first_with_tag tag rest
  end.

(** The outer loop of [_choose_gguf] over the remaining tags. *)
Fixpoint scan_tags (tags : list str) (ggufs : list str) : option str :=
  match tags with
  | [] => None
  | tag :: rest =>
      match first_with_tag tag ggufs with
      | Some name => Some name
      | None => scan_tags rest ggufs
      end
  end.

Definition _choose_gguf (files : list str) (require_q4 : bool) : str :=
  let ggufs := filter (endswith (py ".gguf")) files in
  match ggufs with
  | [] => []
  | first :: _ =>
      match scan_tags preferred ggufs with
      | Some name => name
      | None => if require_q4 then [] else first
      end
  end.

(** [os.environ.get("DANUBE_ALLOW_NON_Q4", "0") == "0"] *)
Definition require_q4_of (allow_non_q4 : option str) : bool :=
  let value := match allow_non_q4 with Some v => v | None => py "0" end in
  if list_eq_dec ascii_dec value (py "0") then true else false.

(** The [for repo in repos_to_try] loop of [_ensure_model]; each repository
    comes with the catalog that [_list_repo_files] returned for it. *)
Fixpoint select_repo_file (repos : list (str * list str)) (require_q4 : bool)
  : option (str * str) :=
  match repos with
  | [] => None
  | (repo, files) :: rest =>
      let chosen := _choose_gguf files require_q4 in
      if is_empty chosen then select_repo_file rest require_q4
      else Some (repo, chosen)
  end.

(** *** Download *)

Inductive outcome (A : Type) : Type :=
| Ok (value : A)
| Raise (message : str).
Arguments Ok {A} value.
Arguments Raise {A} message.

Definition bytes := list ascii.

(** The files of the machine: a path has content or does not exist. *)
Definition filesystem := str -> option bytes.

Definition str_eqb (a b : str) : bool :=
  if list_eq_dec ascii_dec a b then true else false.

Definition fs_write (fs : filesystem) (path : str) (content : bytes)
  : filesystem :=
  fun p => if str_eqb p path then Some content else fs p.

Definition fs_remove (fs : filesystem) (path : str) : filesystem :=
  fun p => if str_eqb p path then None else fs p.

(** What the outside world does during one download: the result of
    [_request], of [open], of each successive [response.read] (a read past
    the end of the list returns no data), of each [handle.write] (numbered
    from 0), of closing the file and of [os.remove]. *)
Record download_world : Type := {
  request_error : option str;
  open_error : option str;
  reads : list (outcome bytes);
  write_error : nat -> option str;
  close_error : option str;
  remove_error : option str
}.

(** The [while True] loop: [written] is what the file holds so far and [k]
    the number of writes already made. *)
Fixpoint stream (w : download_world) (pending : list (outcome bytes))
  (k : nat) (written : bytes) : bytes * outcome unit :=
  match pending with
  | [] => (written, Ok tt)
  | Raise e :: _ => (written, Raise e)
  | Ok chunk :: rest =>
      if is_empty chunk then (written, Ok tt)
      else match write_error w k with
           | Some e => (written, Raise e)
           | None => stream w rest (S k) (written ++ chunk)
           end
  end.

(** The body of the [try]. *)
Definition download_body (w : download_world) (fs : filesystem)
  (destination : str) : filesystem * outcome unit :=
  match request_error w with
  | Some e => (fs, Raise e)
  | None =>
      match open_error w with
      | Some e => (fs, Raise e)
      | None =>
          let (written, r) := stream w (reads w) 0 [] in
          let fs := fs_write fs destination written in
          match r with
          | Raise e => (fs, Raise e)
          | Ok _ =>
              match close_error w with
              | Some e => (fs, Raise e)
              | None => (fs, Ok tt)
              end
          end
      end
  end.

Definition _download_file (w : download_world) (fs : filesystem)
  (destination : str) : filesystem * outcome unit :=
  match download_body w fs destination with
  | (fs, Ok _) => (fs, Ok tt)
  | (fs, Raise exc) =>
      let fs :=
        match fs destination with
        | Some _ =>
            match remove_error w with
            | None => fs_remove fs destination
            | Some _ => fs
            end
        | None => fs
        end in
      (fs, Raise (py "Failed to download model: " ++ exc))
  end.

End Resolver.
Export Resolver.

(** ** Generation adapter and prompt builder *)

Module Adapter.

(** [_max_tokens]: [len(text)] is the number of characters, [//] on
    non-negative operands is [Z.div]. *)
Definition max_tokens_for (len_text : nat) (n_ctx : Z) : Z :=
  let estimate := Z.max 128 (Z.of_nat len_text / 2) in
  Z.max 128 (Z.min 2048 (Z.min estimate (Z.max 128 (n_ctx - 128)))).

Definition _max_tokens (text : str) (n_ctx : Z) : Z :=
  max_tokens_for (length text) n_ctx.

Definition TEXT_MARK : str := py "<<<TEXT>>>".
Definition END_MARK : str := py "<<<END>>>".
Definition OUT_MARK : str := py "<<<OUT>>>".
Definition ENDOUT_MARK : str := py "<<<ENDOUT>>>".

Definition prompt_rules : list str :=
  [ py "You are a text post-processor.";
    py "Rules:";
    py "- Only adjust whitespace, line breaks, and indentation.";
    py "- Fix missing spaces between words (example: " ++ DQ :: py "andthe"
       ++ DQ :: py " -> " ++ DQ :: py "and the" ++ DQ :: py ").";
    py "- Do not change words, punctuation, or numbers.";
    py "- Do not add or remove content.";
    py "- Preserve table pipes and dashes (" ++ DQ :: py "|" ++ DQ :: py " and "
       ++ DQ :: py "-" ++ DQ :: py ") if present.";
    py "- If table rows are present, keep the number of rows and column separators unchanged.";
    py "- Add a blank line before and after any Markdown table block.";
    py "- Add a blank line before multiple-choice answer blocks (A., B., C., etc.).";
    py "- Do not repeat the input or any markers.";
    py "Return only the corrected text.";
    py "End your response with <<<ENDOUT>>> on its own line." ].

Definition _make_prompt (text : str) : str :=
  join [LF] prompt_rules ++ [LF; LF]
  ++ py "Text:" ++ [LF]
  ++ TEXT_MARK ++ [LF]
  ++ text ++ [LF]
  ++ END_MARK ++ [LF; LF]
  ++ py "Corrected:" ++ [LF]
  ++ OUT_MARK ++ [LF].

End Adapter.
Export Adapter.

(** ** Output normalizer *)

Module Normalizer.

(** The rest of [s] after its first line feed, if it has one: what is left
    once [[^\n]*\n] has matched. *)
Fixpoint after_first_LF (s : str) : option str :=
  match s with
  | [] => None
  | c :: s' => if Ascii.eqb c LF then Some s' else after_first_LF s'
  end.

(** [re.sub(r"^```[^\n]*\n", "", s)]: without [re.MULTILINE] the pattern can
    only match at the start of the text. *)
Definition sub_opening_fence (s : str) : str :=
  if startswith (py "```") s then
    match after_first_LF (skipn 3 s) with
    | Some rest => rest
    | None => s
    end
  else s.

(** [re.sub(r"\n```$", "", s)]: [$] matches at the end of the text and just
    before a line feed that ends the text. *)
Definition sub_closing_fence (s : str) : str :=
  if endswith (LF :: py "```") s then firstn (length s - 4) s
  else if endswith (LF :: py "```" ++ [LF]) s then firstn (length s - 5) s ++ [LF]
  else s.

Definition _strip_code_fences (text : str) : str :=
  let cleaned := text in
  let cleaned :=
    if startswith (py "```") cleaned then sub_opening_fence cleaned else cleaned in
  let cleaned :=
    if endswith (py "```") cleaned then sub_closing_fence cleaned else cleaned in
  cleaned.

(** Pieces of the preamble pattern: a literal matched without regard to case,
    and [\s+].  Each returns what is left of the subject. *)
Fixpoint literal_ci (w s : str) : option str :=
  match w, s with
  | [], _ => Some s
  | _ :: _, [] => None
  | a :: w', b :: s' =>
      if Ascii.eqb (lower a) (lower b) then literal_ci w' s' else None
  end.

Definition spaces1 (s : str) : option str :=
  match s with
  | c :: s' => if isspace c then Some (lstrip s') else None
  | [] => None
  end.

Definition and_then {A B} (o : option A) (f : A -> option B) : option B :=
  match o with Some a => f a | None => None end.

(** [corrected\s+text\s+is\s+as\s+follows:?\s*$] *)
Definition preamble_body (s : str) : bool :=
  match
    and_then (literal_ci (py "corrected") s) (fun s =>
    and_then (spaces1 s) (fun s =>
    and_then (literal_ci (py "text") s) (fun s =>
    and_then (spaces1 s) (fun s =>
    and_then (literal_ci (py "is") s) (fun s =>
    and_then (spaces1 s) (fun s =>
    and_then (literal_ci (py "as") s) (fun s =>
    and_then (spaces1 s) (fun s =>
    literal_ci (py "follows") s))))))))
  with
  | Some rest =>
      match rest with
      | c :: rest' => if Ascii.eqb c ":" then forallb isspace rest'
                      else forallb isspace rest
      | [] => true
      end
  | None => false
  end.

(** [re.match(r"(?i)^(the\s+)?corrected\s+text\s+is\s+as\s+follows:?\s*$", line)] *)
Definition preamble_match (line : str) : bool :=
  match and_then (literal_ci (py "the") line) spaces1 with
  | Some rest => preamble_body rest || preamble_body line
  | None => preamble_body line
  end.

(** The [while lines] loop of [_strip_prefix_lines]. *)
Fixpoint pop_preambles (lines : list str) : list str :=
  match lines with
  | [] => []
  | l :: rest =>
      if preamble_match (strip l) then pop_preambles rest else lines
  end.

Definition _strip_prefix_lines (text : str) : str :=
  strip (join [LF] (pop_preambles (splitlines text))).

Definition _extract_between (text start end_ : str) : str :=
  let start_idx := rfind start text in
  if (start_idx =? -1)%Z then []
  else
    let start_idx := (start_idx + Z.of_nat (length start))%Z in
    let end_idx := find end_ text start_idx in
    if (end_idx =? -1)%Z then []
    else strip (slice text start_idx end_idx).

Definition markers : list str :=
  [TEXT_MARK; END_MARK; OUT_MARK; ENDOUT_MARK].

(** The [for marker in (...)] loop of [_clean_output]. *)
Definition scrub_markers (cleaned : str) : str :=
  fold_left (fun acc marker => replace_with_empty marker acc) markers cleaned.

(** The echo extraction stage of [_clean_output]. *)
Definition echo_extraction (cleaned : str) : str :=
  if contains TEXT_MARK cleaned && contains END_MARK cleaned then
    let extracted := _extract_between cleaned TEXT_MARK END_MARK in
    if is_empty extracted then cleaned else extracted
  else cleaned.

(** The answer extraction stage of [_clean_output]; under its guard the
    split has two parts. *)
Definition answer_extraction (cleaned : str) : str :=
  if contains OUT_MARK cleaned then
    let tail := strip (nth 1 (rsplit1 OUT_MARK cleaned) []) in
    if is_empty tail then cleaned else tail
  else cleaned.

Definition _clean_output (output : str) : str :=
  let cleaned := strip output in
  if is_empty cleaned then []
  else
    let cleaned := strip (_strip_code_fences cleaned) in
    let cleaned := _strip_prefix_lines cleaned in
    let cleaned := echo_extraction cleaned in
    let cleaned := answer_extraction cleaned in
    let cleaned := scrub_markers cleaned in
    let cleaned := _strip_prefix_lines cleaned in
    let cleaned := strip (_strip_code_fences cleaned) in
    cleaned.

(** *** Table spacing *)

Definition is_table_line (line : str) : bool :=
  let stripped := lstrip line in
  startswith (py "|") stripped && (2 <=? count_occ ascii_dec stripped "|"%char).

(** The inner [while]: the table lines at the head of [lines] and what
    follows them. *)
Fixpoint table_run (lines : list str) : list str * list str :=
  match lines with
  | [] => ([], [])
  | l :: rest =>
      if is_table_line l then
        let (run, after) := table_run rest in (l :: run, after)
      else ([], lines)
  end.

Definition last_nonblank (result : list str) : bool :=
  match result with
  | [] => false
  | _ => negb (blank (last result []))
  end.

Definition head_nonblank (lines : list str) : bool :=
  match lines with
  | [] => false
  | l :: _ => negb (blank l)
  end.

(** [result.append("")] when the condition holds. *)
Definition gap (b : bool) : list str := if b then [[]] else [].

(** The outer [while i < len(lines)] loop: [lines] is [lines[i:]], the part
    not yet consumed.  At a table line [l] the inner loop takes [l] and the
    table lines that follow it. *)
Equations? table_loop (lines result : list str) : list str
  by wf (length lines) lt :=
table_loop [] result := result;
table_loop (l :: rest) result with is_table_line l := {
  | true :=
      table_loop (snd (table_run rest))
        (result ++ gap (last_nonblank result)
                ++ (l :: fst (table_run rest))
                ++ gap (head_nonblank (snd (table_run rest))));
  | false := table_loop rest (result ++ [l]) }.
Proof.
  clear table_loop.
  assert (forall lines, length (snd (table_run lines)) <= length lines) as H.
  { induction lines as [|x lines IH]; simpl; [lia|].
    destruct (is_table_line x); simpl; [|lia].
    destruct (table_run lines); simpl in *; lia. }
  specialize (H rest). lia.
Qed.

Definition _add_table_spacing (text : str) : str :=
  let lines := splitlines text in
  match lines with
  | [] => text
  | _ :: _ => rstrip (join [LF] (table_loop lines []))
  end.

(** *** Option spacing *)

Definition is_A_to_H (c : ascii) : bool :=
  let n := code c in (65 <=? n) && (n <=? 72).

(** [[.)]\s+] at the head of [s] *)
Definition closer_then_space (s : str) : bool :=
  match s with
  | p :: w :: _ => (Ascii.eqb p "." || Ascii.eqb p ")") && isspace w
  | _ => false
  end.

(** [([A-H]|\d{1,2})[.)]\s+] at the head of [s] *)
Definition option_label (s : str) : bool :=
  match s with
  | c :: r =>
      if is_A_to_H c then closer_then_space r
      else if isdigit c then
        closer_then_space r ||
        match r with
        | d :: r' => isdigit d && closer_then_space r'
        | [] => false
        end
      else false
  | [] => false
  end.

(** [option_pattern.match(line)] for [^\s*([A-H]|\d{1,2})[.)]\s+] *)
Definition option_pattern (line : str) : bool := option_label (lstrip line).

Record option_state : Type := {
  result : list str;
  in_option_block : bool
}.

(** One iteration of the [for line in lines] loop. *)
Definition option_step (st : option_state) (line : str) : option_state :=
  let stripped := strip line in
  let is_option := option_pattern line in
  if is_option then
    let result :=
      if negb (in_option_block st) && last_nonblank (result st)
      then result st ++ [[]] else result st in
    {| result := result ++ [line]; in_option_block := true |}
  else
    {| result := result st ++ [line];
       in_option_block :=
         if is_empty stripped then in_option_block st else false |}.

Definition option_loop (lines : list str) : list str :=
  result (fold_left option_step lines
            {| result := []; in_option_block := false |}).

Definition _add_option_spacing (text : str) : str :=
  let lines := splitlines text in
  match lines with
  | [] => text
  | _ :: _ => rstrip (join [LF] (option_loop lines))
  end.

(** The normalization that [_process_one] applies to the generated text. *)
Definition normalize (output : str) : str :=
  let cleaned := _clean_output output in
  if is_empty cleaned then []
  else
    let cleaned := _add_table_spacing cleaned in
    _add_option_spacing cleaned.

End Normalizer.
Export Normalizer.

(** ** Protocol handler *)

Module Protocol.

(** A decoded JSON value.  Of a number the loop only observes its type and
    whether it is zero. *)
#[local] Unset Elimination Schemes.
Inductive json : Type :=
| JNull
| JBool (b : bool)
| JInt (n : Z)
| JFloat (nonzero : bool)
| JStr (s : str)
| JArr (items : list json)
| JObj (members : list (str * json)).
#[local] Set Elimination Schemes.

Definition type_name (v : json) : str :=
  match v with
  | JNull => py "NoneType"
  | JBool _ => py "bool"
  | JInt _ => py "int"
  | JFloat _ => py "float"
  | JStr _ => py "str"
  | JArr _ => py "list"
  | JObj _ => py "dict"
  end.

(** [bool(v)] *)
Definition truthy (v : json) : bool :=
  match v with
  | JNull => false
  | JBool b => b
  | JInt n => negb (n =? 0)%Z
  | JFloat nonzero => nonzero
  | JStr s => negb (is_empty s)
  | JArr items => match items with [] => false | _ => true end
  | JObj members => match members with [] => false | _ => true end
  end.

(** [len(v)] *)
Definition len (v : json) : outcome nat :=
  match v with
  | JStr s => Ok (length s)
  | JArr items => Ok (length items)
  | JObj members => Ok (length members)
  | _ => Raise (py "object of type '" ++ type_name v ++ py "' has no len()")
  end.

Fixpoint lookup (key : str) (members : list (str * json)) : option json :=
  match members with
  | [] => None
  | (k, v) :: rest => if str_eqb k key then Some v else lookup key rest
  end.

(** [payload.get(key, default)] *)
Definition get (payload : json) (key : str) (default : json) : outcome json :=
  match payload with
  | JObj members =>
      Ok (match lookup key members with Some v => v | None => default end)
  | _ => Raise (py "'" ++ type_name payload
                ++ py "' object has no attribute 'get'")
  end.

Definition hex_digit (n : nat) : ascii :=
  if n <? 10 then ascii_of_nat (48 + n) else ascii_of_nat (87 + n).

(** [json.dumps] of a string with the default [ensure_ascii=True]. *)
Definition escape_char (c : ascii) : str :=
  let n := code c in
  if n =? 34 then [BSL; DQ]
  else if n =? 92 then [BSL; BSL]
  else if n =? 10 then BSL :: py "n"
  else if n =? 13 then BSL :: py "r"
  else if n =? 9 then BSL :: py "t"
  else if n =? 8 then BSL :: py "b"
  else if n =? 12 then BSL :: py "f"
  else if (32 <=? n) && (n <=? 126) then [c]
  else BSL :: py "u00" ++ [hex_digit (n / 16); hex_digit (n mod 16)].

(** [json.dumps({"text": text})] *)
Definition dumps_text (text : str) : str :=
  py "{" ++ DQ :: py "text" ++ DQ :: py ": " ++ DQ :: flat_map escape_char text
  ++ DQ :: py "}".

(** [json.dumps({"ready": True})] *)
Definition dumps_ready : str :=
  py "{" ++ DQ :: py "ready" ++ DQ :: py ": true}".

(** What the process does that the outside can see: a line written to
    standard output, a line written to the diagnostic channel, or a call of
    the model. *)
Inductive event : Type :=
| Stdout (data : str)
| Stderr (data : str)
| Generate (prompt : str) (max_tokens : Z).

Section Loop.

(** The loaded model: its state, and the call
    [llm(prompt, max_tokens=..., ...)["choices"][0]["text"]], which returns a
    text or raises. *)
Variable llm_state : Type.
Variable llm : llm_state -> str -> Z -> llm_state * outcome str.

(** [json.loads], and the rendering of a value that is not a string inside
    an f-string. *)
Variable json_loads : str -> outcome json.
Variable format_value : json -> str.

Variable n_ctx : Z.

(** A computation threads the model state, records its events and returns
    or raises. *)
Definition proc (A : Type) : Type :=
  llm_state -> list event * llm_state * outcome A.

(** What a computation did, the state it left and how it ended. *)
Definition events_of {A} (x : list event * llm_state * outcome A)
  : list event := fst (fst x).
Definition state_of {A} (x : list event * llm_state * outcome A)
  : llm_state := snd (fst x).
Definition outcome_of {A} (x : list event * llm_state * outcome A)
  : outcome A := snd x.

Definition ret {A} (a : A) : proc A := fun st => ([], st, Ok a).

Definition bind {A B} (c : proc A) (f : A -> proc B) : proc B :=
  fun st =>
    match c st with
    | (ev, st', Ok a) =>
        match f a st' with
        | (ev', st'', r) => (ev ++ ev', st'', r)
        end
    | (ev, st', Raise e) => (ev, st', Raise e)
    end.

(** [try: body  except Exception as exc: handler(exc)] *)
Definition try_except {A} (body : proc A) (handler : str -> proc A) : proc A :=
  fun st =>
    match body st with
    | (ev, st', Ok a) => (ev, st', Ok a)
    | (ev, st', Raise e) =>
        match handler e st' with
        | (ev', st'', r) => (ev ++ ev', st'', r)
        end
    end.

Definition lift {A} (o : outcome A) : proc A := fun st => ([], st, o).

Definition emit (e : event) : proc unit := fun st => ([e], st, Ok tt).

Notation "x <- c1 ;; c2" := (bind c1 (fun x => c2))
  (at level 61, c1 at next level, right associativity).
Notation "c1 ;;; c2" := (bind c1 (fun _ => c2))
  (at level 61, right associativity).

(** [sys.stdout.write(data + "\n")] followed by the flush *)
Definition write_line (data : str) : proc unit := emit (Stdout (data ++ [LF])).

Definition log (message : str) : proc unit :=
  emit (Stderr (py "[postprocess] " ++ message ++ [LF])).

Definition call_llm (prompt : str) (max_tokens : Z) : proc str :=
  fun st =>
    let (st', r) := llm st prompt max_tokens in
    ([Generate prompt max_tokens], st', r).

Definition text_of (v : json) : str :=
  match v with JStr s => s | _ => format_value v end.

Definition _process_one (text : json) : proc str :=
  let prompt := _make_prompt (text_of text) in
  n <- lift (len text) ;;
  let max_tokens := max_tokens_for n n_ctx in
  output <- call_llm prompt max_tokens ;;
  ret (normalize output).

(** The body of the [try] of one iteration. *)
Definition handle_request (line : str) : proc unit :=
  payload <- lift (json_loads line) ;;
  text <- lift (get payload (py "text") (JStr [])) ;;
  if negb (truthy text) then write_line (dumps_text [])
  else
    output <- _process_one text ;;
    write_line (dumps_text output).

(** One iteration of [for line in sys.stdin]. *)
Definition serve_line (line : str) : proc unit :=
  let line := strip line in
  if is_empty line then ret tt
  else
    try_except (handle_request line)
      (fun exc =>
         log (py "Processing error: " ++ exc) ;;;
         write_line (dumps_text [])).

(** The loop [for line in sys.stdin].  Each element of [stdin] is what one
    step of the iteration over standard input gives: the next line, or the
    exception that reading it raises (bytes that cannot be decoded, under
    strict decoding).  The [for] statement stands outside the [try], so
    that exception leaves the loop; the end of the list is the end of the
    input. *)
Fixpoint serve (stdin : list (outcome str)) : proc unit :=
  match stdin with
  | [] => ret tt
  | Ok line :: rest => serve_line line ;;; serve rest
  | Raise exc :: _ => lift (Raise exc)
  end.

End Loop.

(** [main] under [raise SystemExit(main())]: [init] is the result of
    [_ensure_model] and [_load_llm], the loaded model and its context length
    or the failure; the result is what the process did and its exit code.
    An exception that leaves [main] (one raised by reading standard input)
    ends the process: the interpreter writes its traceback, [traceback exc],
    to the diagnostic channel and the exit code is 1. *)
Definition main {llm_state : Type}
  (llm : llm_state -> str -> Z -> llm_state * outcome str)
  (json_loads : str -> outcome json) (format_value : json -> str)
  (traceback : str -> str)
  (init : outcome (llm_state * Z)) (stdin : list (outcome str))
  : list event * Z :=
  match init with
  | Raise exc => ([Stderr (py "[postprocess] " ++ exc ++ [LF])], 2%Z)
  | Ok (st, n_ctx) =>
      match serve llm json_loads format_value n_ctx stdin st with
      | (ev, _, Ok _) => (Stdout (dumps_ready ++ [LF]) :: ev, 0%Z)
      | (ev, _, Raise exc) =>
          (Stdout (dumps_ready ++ [LF]) :: ev ++ [Stderr (traceback exc)],
           1%Z)
      end
  end.

End Protocol.
Export Protocol.

(** ** Lines and gaps *)

(** Notions about lists of lines and about texts in which the properties
    are stated and proved. *)

Module Lines.

(** Both passes put an empty line between certain neighbours: [gap_when]
    decides from the two lines. *)
Fixpoint insert_gaps (gap_when : str -> str -> bool) (lines : list str)
  : list str :=
  match lines with
  | [] => []
  | a :: rest =>
      a :: match rest with
           | b :: _ => gap (gap_when a b)
           | [] => []
           end ++ insert_gaps gap_when rest
  end.

Definition gap_before (gap_when : str -> str -> bool) (a : str)
  (after : list str) : bool :=
  match after with
  | m :: _ => gap_when a m
  | [] => false
  end.

Definition table_gap (a b : str) : bool :=
  (is_table_line a && negb (is_table_line b) && negb (blank b))
  || (negb (is_table_line a) && is_table_line b && negb (blank a)).

Definition option_gap (a b : str) : bool :=
  option_pattern b && negb (option_pattern a) && negb (blank a).

(** A list of lines in which no two neighbours call for an empty line. *)
Fixpoint settled (gap_when : str -> str -> bool) (lines : list str) : bool :=
  match lines with
  | [] => true
  | a :: rest =>
      match rest with
      | b :: _ => negb (gap_when a b)
      | [] => true
      end && settled gap_when rest
  end.

(** A line as [splitlines] yields it: no line boundary inside. *)
Definition no_break (line : str) : bool :=
  forallb (fun c => negb (islinebreak c)) line.

(** The lines of a right-stripped text: the blank lines at the end are gone
    and the last line left is right-stripped. *)
Fixpoint trim_lines (lines : list str) : list str :=
  match lines with
  | [] => []
  | l :: rest =>
      match trim_lines rest with
      | [] => if blank l then [] else [rstrip l]
      | r => l :: r
      end
  end.

(** A text whose only line boundaries are line feeds. *)
Definition lf_only (s : str) : bool :=
  forallb (fun c => negb (islinebreak c) || Ascii.eqb c LF) s.

(** A string in which the character [c] does not occur. *)
Definition free_of (c : ascii) (m : str) : bool :=
  forallb (fun x => negb (Ascii.eqb x c)) m.

(** The first line of a text, the empty line for the empty text. *)
Definition hd_line (s : str) : str := hd [] (splitlines s).

(** A string without whitespace. *)
Definition no_space (m : str) : bool := forallb (fun c => negb (isspace c)) m.

(** A spacing pass over a text, given where its empty lines go. *)
Definition spacing_pass (gap_when : str -> str -> bool) (text : str) : str :=
  match splitlines text with
  | [] => text
  | _ :: _ => rstrip (join [LF] (insert_gaps gap_when (splitlines text)))
  end.

End Lines.
Export Lines.

(** ** The stated behaviour, in the words of the specification *)

Module Stated.

(** [clamp(x, lo, hi)]: [x] cut down to [hi], then raised to [lo]. *)
Definition clamp (x lo hi : Z) : Z := Z.max lo (Z.min x hi).

Definition max_tokens_stated (len_text : nat) (context_length : Z) : Z :=
  clamp (Z.max 128 (Z.of_nat len_text / 2)) 128
        (Z.min 2048 (context_length - 128)).

(** The first tag of the ordered list that some archive file contains. *)
Definition first_matching_tag (archives : list str) : option str :=
  List.find (fun tag => existsb (contains tag) archives) preferred.

(** Selection as stated: among the files with the archive extension, the
    first one containing the first matching tag; without a matching tag,
    nothing unless the fallback is allowed, and then the first archive. *)
Definition selection_stated (catalog : list str) (allow_fallback : bool)
  : option str :=
  let archives := filter (endswith (py ".gguf")) catalog in
  match first_matching_tag archives with
  | Some tag => List.find (contains tag) archives
  | None => if allow_fallback then hd_error archives else None
  end.

(** What the response delivers before its end: the chunks read up to the
    first empty one. *)
Fixpoint streamed_content (pending : list (outcome bytes)) : bytes :=
  match pending with
  | Ok chunk :: rest =>
      if is_empty chunk then [] else chunk ++ streamed_content rest
  | _ => []
  end.

(** The first exception of the streaming, if any: a read that raises, or the
    write of a chunk (the [k]-th) that raises. *)
Fixpoint streaming_exception (w : download_world)
  (pending : list (outcome bytes)) (k : nat) : option str :=
  match pending with
  | [] => None
  | Raise e :: _ => Some e
  | Ok chunk :: rest =>
      if is_empty chunk then None
      else match write_error w k with
           | Some e => Some e
           | None => streaming_exception w rest (S k)
           end
  end.

Definition or_else {A} (a b : option A) : option A :=
  match a with Some _ => a | None => b end.

(** The first exception of a download, if any. *)
Definition download_exception (w : download_world) : option str :=
  or_else (request_error w)
    (or_else (open_error w)
       (or_else (streaming_exception w (reads w) 0) (close_error w))).

(** The response lines among the events, and whether the model was called. *)
Fixpoint stdout_lines (events : list event) : list str :=
  match events with
  | [] => []
  | Stdout data :: rest => data :: stdout_lines rest
  | _ :: rest => stdout_lines rest
  end.

(** The lines that the loop gets to read: those before the first read of
    standard input that raises. *)
Fixpoint lines_read (stdin : list (outcome str)) : list str :=
  match stdin with
  | Ok line :: rest => line :: lines_read rest
  | _ => []
  end.

(** The exception of the first read that raises, if one does. *)
Fixpoint read_failure (stdin : list (outcome str)) : option str :=
  match stdin with
  | [] => None
  | Ok _ :: rest => read_failure rest
  | Raise exc :: _ => Some exc
  end.

(** The lines of the input that can be read at all. *)
Definition readable (stdin : list (outcome str)) : list str :=
  flat_map (fun r => match r with Ok line => [line] | Raise _ => [] end) stdin.

Definition is_generate (e : event) : bool :=
  match e with Generate _ _ => true | _ => false end.

(** Data written for one response: the JSON text of some [{"text": ...}]
    and the line feed after it. *)
Definition is_response (data : str) : Prop :=
  exists text, data = dumps_text text ++ [LF].

(** The line of the response [{"text": ""}]. *)
Definition empty_response : str :=
  py "{" ++ DQ :: py "text" ++ DQ :: py ": " ++ DQ :: DQ :: py "}" ++ [LF].

Definition opt_table (line : option str) : bool :=
  match line with Some l => is_table_line l | None => false end.

Definition opt_nonblank (line : option str) : bool :=
  match line with Some l => negb (blank l) | None => false end.

(** Table spacing as stated, line by line.  A run of table lines starts at a
    table line whose preceding source line is not one and ends at a table
    line whose following source line is not one.  One blank line goes before
    the start of a run when the preceding output line exists and is not
    blank, one after its end when the following source line exists and is
    not blank; every source line is passed on as it is. *)
Fixpoint table_spacing_stated (prev_source prev_output : option str)
  (lines : list str) : list str :=
  match lines with
  | [] => []
  | l :: rest =>
      let starts_run := is_table_line l && negb (opt_table prev_source) in
      let ends_run := is_table_line l && negb (opt_table (hd_error rest)) in
      let out :=
        gap (starts_run && opt_nonblank prev_output)
        ++ [l]
        ++ gap (ends_run && opt_nonblank (hd_error rest)) in
      out ++ table_spacing_stated (Some l) (Some (last out [])) rest
  end.

(** Being in an option block as stated: the block is entered at an option
    line and left at a line that is neither an option line nor blank.
    [history] holds the lines read so far, the latest first. *)
Fixpoint in_block_stated (history : list str) : bool :=
  match history with
  | [] => false
  | l :: older =>
      if option_pattern l then true
      else if blank l then in_block_stated older
      else false
  end.

(** Option spacing as stated: one blank line before an option line that is
    reached outside an option block while the line emitted before it is not
    blank; every source line is passed on as it is. *)
Fixpoint option_spacing_stated (history lines : list str) : list str :=
  match lines with
  | [] => []
  | l :: rest =>
      gap (option_pattern l && negb (in_block_stated history)
           && opt_nonblank (hd_error history))
      ++ l :: option_spacing_stated (l :: history) rest
  end.

(** The model output made of the answer-open marker line, [x] and the
    end-of-output marker line. *)
Definition wrapped (x : str) : str :=
  OUT_MARK ++ LF :: x ++ LF :: ENDOUT_MARK.

(** A text with nothing left for the extraction stages to take away: no
    marker in it, no preamble as its first line, no fence at its start or
    at its end. *)
Definition nothing_to_strip (y : str) : Prop :=
  existsb (fun marker => contains marker y) markers = false
  /\ preamble_match (strip (hd_line y)) = false
  /\ startswith (py "```") y = false
  /\ endswith (py "```") y = false.

(** A text that is empty or ends in a character that is not whitespace. *)
Definition ends_clean (r : str) : Prop :=
  r = [] \/ exists body c, r = body ++ [c] /\ isspace c = false.

(** The result of [_choose_gguf] read as the caller does: the empty name
    is no selection. *)
Definition selected (name : str) : option str :=
  if is_empty name then None else Some name.

End Stated.
Export Stated.

(** ** Model resolution *)

(** [_load_hf_token], [_request], [_list_repo_files] and [_ensure_model]
    over an explicit host: the environment variables, the home directory
    expansion, the token files, the directory creation and the replies of
    the network. *)

Module Resolution.

Record http_request : Type := {
  url : str;
  headers : list (str * str)
}.

(** The reply to a catalog request, after [response.read()], the decoding
    and [json.loads]: the decoded payload, an [HTTPError] with its status
    code, or any other exception. *)
Inductive reply : Type :=
| Payload (payload : json)
| HttpError (code : Z) (message : str)
| OtherError (message : str).

Record host : Type := {
  env : str -> option str;
  expanduser : str -> str;
  (** reading a text file: [None] when the path is not a regular file, a
      raise when opening, reading or decoding it fails *)
  read_text : str -> option (outcome str);
  makedirs_error : str -> option str;
  lookup_reply : http_request -> reply;
  download_of : http_request -> str -> download_world
}.

(** [value = os.environ.get(name)] when [if value:] lets it pass. *)
Definition env_truthy (h : host) (name : str) : option str :=
  match env h name with
  | Some (c :: v) => Some (c :: v)
  | _ => None
  end.

Definition _env (h : host) (name default : str) : str :=
  match env h name with
  | Some v => v
  | None => default
  end.

Definition token_keys : list str :=
  [py "HUGGINGFACE_TOKEN"; py "HF_TOKEN"; py "HUGGINGFACEHUB_TOKEN";
   py "HF_ACCESS_TOKEN"].

Definition token_paths (h : host) : list str :=
  [expanduser h (py "~/.huggingface/token");
   expanduser h (py "~/.cache/huggingface/token");
   expanduser h (py "~/.config/huggingface/token")].

(** The first loop of [_load_hf_token]. *)
Fixpoint token_from_env (h : host) (keys : list str) : option str :=
  match keys with
  | [] => None
  | key :: rest =>
      match env_truthy h key with
      | Some value => Some (strip value)
      | None => token_from_env h rest
      end
  end.

(** The second loop of [_load_hf_token]. *)
Fixpoint token_from_files (h : host) (paths : list str) : option str :=
  match paths with
  | [] => None
  | path :: rest =>
      match read_text h path with
      | Some (Ok content) =>
          let value := strip content in
          if is_empty value then token_from_files h rest else Some value
      | _ => token_from_files h rest
      end
  end.

Definition _load_hf_token (h : host) : str :=
  match token_from_env h token_keys with
  | Some value => value
  | None =>
      match token_from_files h (token_paths h) with
      | Some value => value
      | None => []
      end
  end.

(** [_request]: the request that is opened. *)
Definition _request (url token : str) : http_request :=
  {| url := url;
     headers :=
       (py "User-Agent", py "ocr-screenshot/1.0")
       :: (if is_empty token then []
           else [(py "Authorization", py "Bearer " ++ token)]) |}.

Definition candidates : list str :=
  [py "Qwen/Qwen3-1.7B-Instruct-GGUF";
   py "Qwen/Qwen3-1.7B-GGUF";
   py "Qwen/Qwen3-1.7B-Instruct";
   py "Qwen/Qwen3-1.7B";
   py "bartowski/Qwen3-1.7B-Instruct-GGUF";
   py "bartowski/Qwen3-1.7B-GGUF";
   py "lmstudio-community/Qwen3-1.7B-GGUF";
   py "Qwen/Qwen2.5-1.5B-Instruct-GGUF";
   py "Qwen/Qwen2.5-1.5B-GGUF";
   py "Qwen/Qwen2.5-1.5B-Instruct";
   py "Qwen/Qwen2.5-1.5B";
   py "bartowski/Qwen2.5-1.5B-Instruct-GGUF";
   py "bartowski/Qwen2.5-1.5B-GGUF"].

Definition _select_repo (h : host) : str * list str :=
  match env_truthy h (py "DANUBE_MODEL_REPO") with
  | Some override => (override, [override])
  | None => (hd [] candidates, candidates)
  end.

(** Iterating over a decoded value in a comprehension: the items of an
    array, the keys of an object, the characters of a string. *)
Definition iterate (v : json) : outcome (list json) :=
  match v with
  | JArr items => Ok items
  | JObj members => Ok (map (fun kv => JStr (fst kv)) members)
  | JStr s => Ok (map (fun c => JStr [c]) s)
  | _ => Raise (py "'" ++ type_name v ++ py "' object is not iterable")
  end.

(** [[item.get("rfilename", "") for item in siblings]] *)
Fixpoint rfilenames (items : list json) : outcome (list json) :=
  match items with
  | [] => Ok []
  | item :: rest =>
      match get item (py "rfilename") (JStr []) with
      | Raise exc => Raise exc
      | Ok name =>
          match rfilenames rest with
          | Raise exc => Raise exc
          | Ok names => Ok (name :: names)
          end
      end
  end.

Definition catalog_of (payload : json) : outcome (list json) :=
  match get payload (py "siblings") (JArr []) with
  | Raise exc => Raise exc
  | Ok siblings =>
      match iterate siblings with
      | Raise exc => Raise exc
      | Ok items => rfilenames items
      end
  end.

(** [_list_repo_files]: the messages logged and the list returned. *)
Definition _list_repo_files (h : host) (repo token : str)
  : list str * list json :=
  let url := py "https://huggingface.co/api/models/" ++ repo in
  match lookup_reply h (_request url token) with
  | Payload payload =>
      match catalog_of payload with
      | Ok files => ([], files)
      | Raise exc =>
          ([py "Repo lookup error for " ++ repo ++ py ": " ++ exc], [])
      end
  | HttpError code exc =>
      if (code =? 401)%Z then
        if is_empty token then
          ([py "Repo lookup unauthorized for " ++ repo
            ++ py ". Set HUGGINGFACE_TOKEN or login with huggingface-cli."],
           [])
        else
          ([py "Repo lookup unauthorized for " ++ repo
            ++ py ". Accept the model license on Hugging Face."], [])
      else ([py "Repo lookup failed for " ++ repo ++ py ": " ++ exc], [])
  | OtherError exc =>
      ([py "Repo lookup error for " ++ repo ++ py ": " ++ exc], [])
  end.

(** The comprehension [[f for f in files if f.endswith(".gguf")]] of
    [_choose_gguf] needs every entry to be a string. *)
Fixpoint names_of (files : list json) : outcome (list str) :=
  match files with
  | [] => Ok []
  | JStr name :: rest =>
      match names_of rest with
      | Ok names => Ok (name :: names)
      | Raise exc => Raise exc
      end
  | other :: _ =>
      Raise (py "'" ++ type_name other
             ++ py "' object has no attribute 'endswith'")
  end.

(** [s.split(sep)] for a separator of one character. *)
Fixpoint split_char (sep : ascii) (s : str) : list str :=
  match s with
  | [] => [[]]
  | c :: s' =>
      if Ascii.eqb c sep then [] :: split_char sep s'
      else match split_char sep s' with
           | [] => [[c]]
           | p :: ps => (c :: p) :: ps
           end
  end.

(** [model_url.split("/")[-1].split("?")[0]] *)
Definition url_filename (model_url : str) : str :=
  hd [] (split_char "?" (last (split_char "/" model_url) [])).

(** [os.path.join(a, b)] of [posixpath]. *)
Definition path_join (a b : str) : str :=
  if startswith (py "/") b then b
  else if is_empty a || endswith (py "/") a then a ++ b
  else a ++ py "/" ++ b.

(** [os.path.isfile(path)] *)
Definition isfile (fs : filesystem) (path : str) : bool :=
  match fs path with Some _ => true | None => false end.

(** What resolution does that the outside can see. *)
Inductive trace : Type :=
| Logged (message : str)
| Looked_up (request : http_request)
| Downloaded (request : http_request) (destination : str).

Definition download (h : host) (fs : filesystem)
  (url destination token : str) : filesystem * outcome unit :=
  _download_file (download_of h (_request url token) destination)
    fs destination.

(** The [for repo in repos_to_try] loop with its lookups. *)
Fixpoint walk_repos (h : host) (token : str) (require_q4 : bool)
  (repos : list str) : list trace * outcome (option (str * str)) :=
  match repos with
  | [] => ([], Ok None)
  | repo :: rest =>
      let found := _list_repo_files h repo token in
      let seen :=
        Looked_up (_request (py "https://huggingface.co/api/models/" ++ repo)
                     token)
        :: map Logged (fst found) in
      match names_of (snd found) with
      | Raise exc => (seen, Raise exc)
      | Ok names =>
          let chosen := _choose_gguf names require_q4 in
          if is_empty chosen then
            let (later, r) := walk_repos h token require_q4 rest in
            (seen ++ later, r)
          else (seen, Ok (Some (repo, chosen)))
      end
  end.

Definition repos_to_try (h : host) : list str :=
  match env_truthy h (py "DANUBE_MODEL_REPO") with
  | Some repo_override => [repo_override]
  | None =>
      let (first, candidates) := _select_repo h in
      first :: filter (fun repo => negb (str_eqb repo first)) candidates
  end.

Definition not_located : str :=
  py "Could not locate a Q4 GGUF model for Qwen3-1.7B (or fallback Qwen2.5-1.5B).".

(** [_ensure_model] from the repository search on. *)
Definition resolve_from_repos (h : host) (fs : filesystem) (model_dir : str)
  : list trace * filesystem * outcome str :=
  let token := _load_hf_token h in
  let require_q4 := require_q4_of (env h (py "DANUBE_ALLOW_NON_Q4")) in
  match walk_repos h token require_q4 (repos_to_try h) with
  | (seen, Raise exc) => (seen, fs, Raise exc)
  | (seen, Ok None) => (seen, fs, Raise not_located)
  | (seen, Ok (Some (selected_repo, selected_file))) =>
      if is_empty selected_repo || is_empty selected_file
      then (seen, fs, Raise not_located)
      else
        let name := selected_repo ++ py "/" ++ selected_file in
        let seen := seen ++ [Logged (py "Selected model " ++ name)] in
        let model_path := path_join model_dir selected_file in
        if isfile fs model_path then (seen, fs, Ok model_path)
        else
          let url := py "https://huggingface.co/" ++ selected_repo
                     ++ py "/resolve/main/" ++ selected_file in
          let seen :=
            seen ++ [Logged (py "Downloading model " ++ name ++ py "...");
                     Downloaded (_request url token) model_path] in
          match download h fs url model_path token with
          | (fs, Ok _) => (seen, fs, Ok model_path)
          | (fs, Raise exc) => (seen, fs, Raise exc)
          end
  end.

(** [_ensure_model] from the cached file name on. *)
Definition resolve_from_file (h : host) (fs : filesystem) (model_dir : str)
  : list trace * filesystem * outcome str :=
  match env_truthy h (py "DANUBE_MODEL_FILE") with
  | Some model_file =>
      let candidate := path_join model_dir model_file in
      if isfile fs candidate then ([], fs, Ok candidate)
      else resolve_from_repos h fs model_dir
  | None => resolve_from_repos h fs model_dir
  end.

(** [_ensure_model] from the direct URL on. *)
Definition resolve_from_url (h : host) (fs : filesystem) (model_dir : str)
  : list trace * filesystem * outcome str :=
  match env_truthy h (py "DANUBE_MODEL_URL") with
  | Some model_url =>
      let filename := url_filename model_url in
      if is_empty filename then resolve_from_file h fs model_dir
      else
        let direct_path := path_join model_dir filename in
        if isfile fs direct_path then ([], fs, Ok direct_path)
        else
          let token := _load_hf_token h in
          let seen :=
            [Logged (py "Downloading model from URL: " ++ filename
                     ++ py "...");
             Downloaded (_request model_url token) direct_path] in
          match download h fs model_url direct_path token with
          | (fs, Ok _) => (seen, fs, Ok direct_path)
          | (fs, Raise exc) => (seen, fs, Raise exc)
          end
  | None => resolve_from_file h fs model_dir
  end.

Definition default_model_dir : str :=
  py "~/Library/Application Support/ocr-screenshot/danube/models".

Definition _ensure_model (h : host) (fs : filesystem)
  : list trace * filesystem * outcome str :=
  let direct :=
    match env_truthy h (py "DANUBE_MODEL_PATH") with
    | Some model_path => if isfile fs model_path then Some model_path else None
    | None => None
    end in
  match direct with
  | Some model_path => ([], fs, Ok model_path)
  | None =>
      let model_dir :=
        _env h (py "DANUBE_MODEL_DIR") (expanduser h default_model_dir) in
      match makedirs_error h model_dir with
      | Some exc => ([], fs, Raise exc)
      | None => resolve_from_url h fs model_dir
      end
  end.

End Resolution.
Export Resolution.

(** ** Further notions *)

(** Notions in which the further properties of Part II are stated. *)

Module Further.

(** The lines of a list that are not blank, in their order. *)
Definition content (lines : list str) : list str :=
  filter (fun l => negb (blank l)) lines.

(** A text inside a fenced code block: the opening fence with its info
    string, the body, the closing fence. *)
Definition fenced (info body : str) : str :=
  py "```" ++ info ++ LF :: body ++ LF :: py "```".


(** The line that [log] writes to the diagnostic channel. *)
Definition log_line (message : str) : str :=
  py "[postprocess] " ++ message ++ [LF].

(** [payload.get("text", "")] for an object with these members. *)
Definition text_member (members : list (str * json)) : json :=
  match lookup (py "text") members with
  | Some v => v
  | None => JStr []
  end.


(** The downloads among the steps of a resolution. *)
Definition downloads (seen : list trace) : list (http_request * str) :=
  flat_map (fun step =>
              match step with
              | Downloaded request destination => [(request, destination)]
              | _ => []
              end) seen.

(** The catalog requests among the steps of a resolution. *)
Definition lookups (seen : list trace) : list http_request :=
  flat_map (fun step =>
              match step with
              | Looked_up request => [request]
              | _ => []
              end) seen.

Definition is_string (v : json) : bool :=
  match v with JStr _ => true | _ => false end.

(** The request for the catalog of a repository. *)
Definition catalog_request (repo token : str) : http_request :=
  _request (py "https://huggingface.co/api/models/" ++ repo) token.

(** A download in which nothing fails and that delivers [content]. *)
Definition delivering (content : bytes) : download_world :=
  {| request_error := None;
     open_error := None;
     reads := [Ok content];
     write_error := fun _ => None;
     close_error := None;
     remove_error := None |}.

(** The value listed for a name, if any. *)
Fixpoint assoc (name : str) (pairs : list (str * str)) : option str :=
  match pairs with
  | [] => None
  | (k, v) :: rest => if str_eqb k name then Some v else assoc name rest
  end.

(** A download that delivers [content] and then fails. *)
Definition breaking (content : bytes) : download_world :=
  {| request_error := None;
     open_error := None;
     reads := [Ok content; Raise (py "Connection reset by peer")];
     write_error := fun _ => None;
     close_error := None;
     remove_error := None |}.

(** A host for examples: environment variables and token files as given,
    every catalog request answered by [answer], every download going as
    [world] says. *)
Definition host_with (variables files : list (str * str))
  (answer : str -> reply) (world : download_world) : host :=
  {| env := fun name => assoc name variables;
     expanduser := fun path => path;
     read_text := fun path => option_map Ok (assoc path files);
     makedirs_error := fun _ => None;
     lookup_reply := fun request => answer (url request);
     download_of := fun _ _ => world |}.


(** A catalog request that does not yield a list of names: the request is
    refused or fails, or what it delivers has not the expected shape. *)
Definition lookup_fails (h : host) (repo token : str) : Prop :=
  match lookup_reply h (catalog_request repo token) with
  | Payload payload => exists exc, catalog_of payload = Raise exc
  | _ => True
  end.

(** Two file systems with the same files. *)
Definition same_files (a b : filesystem) : Prop :=
  forall path, a path = b path.

(** Two file systems with the same files, [destination] apart. *)
Definition same_files_but (destination : str) (a b : filesystem) : Prop :=
  forall path, str_eqb path destination = false -> a path = b path.


(** What a resolution does, read off its steps: without a download the
    files are as they were and a path returned is a file; with one, the
    destination was no file before, no other file changed, the request
    carries the access token, and a path returned is the destination, now a
    file. *)
Definition resolved (h : host) (fs : filesystem)
  (r : list trace * filesystem * outcome str) : Prop :=
  match downloads (fst (fst r)) with
  | [] =>
      same_files (snd (fst r)) fs
      /\ match snd r with
         | Ok path => isfile fs path = true
         | Raise _ => True
         end
  | [(request, destination)] =>
      isfile fs destination = false
      /\ same_files_but destination (snd (fst r)) fs
      /\ headers request = headers (_request [] (_load_hf_token h))
      /\ match snd r with
         | Ok path =>
             path = destination /\ isfile (snd (fst r)) destination = true
         | Raise _ =>
             remove_error (download_of h request destination) = None ->
             snd (fst r) destination = None
         end
  | _ => False
  end.

(** The repositories that [_ensure_model] may consult, in order. *)
Definition repositories (h : host) : list str :=
  match env_truthy h (py "DANUBE_MODEL_REPO") with
  | Some repo_override => [repo_override]
  | None => candidates
  end.


(** The prompt before its text marker and after its end marker. *)
Definition prompt_head : str :=
  join [LF] prompt_rules ++ [LF; LF] ++ py "Text:" ++ [LF].

Definition prompt_tail : str :=
  [LF; LF] ++ py "Corrected:" ++ [LF] ++ OUT_MARK.

(** What generation returns when it repeats the prompt and adds nothing:
    the prompt without the line feed that ends it. *)
Definition echoed_prompt (text : str) : str :=
  prompt_head ++ TEXT_MARK ++ LF :: text ++ LF :: END_MARK ++ prompt_tail.


(** [gapped lines result]: [result] is [lines], every one of them as it is
    and in their order, with empty lines put in and nothing else. *)
Inductive gapped : list str -> list str -> Prop :=
| gapped_nil : gapped [] []
| gapped_keep (line : str) (lines result : list str) :
    gapped lines result -> gapped (line :: lines) (line :: result)
| gapped_add (lines result : list str) :
    gapped lines result -> gapped lines ([] :: result).

End Further.
Export Further.

(** ** Part II. Properties *)

(** *** Generation adapter *)

(** C8. For every input text and every context length the output token
    bound is [clamp(max(128, len/2), 128, min(2048, context - 128))]: the
    larger of 128 and the least of the length estimate, 2048 and the context
    length less 128. *)
Theorem max_tokens_is_clamp (text : str) (n_ctx : Z) :
  _max_tokens text n_ctx = max_tokens_stated (length text) n_ctx
  /\ _max_tokens text n_ctx
     = Z.max 128 (Z.min (Z.max 128 (Z.of_nat (length text) / 2))
                        (Z.min 2048 (n_ctx - 128))).
Proof.
  unfold _max_tokens, max_tokens_for, max_tokens_stated, clamp.
  split; lia.
Qed.

(** *** Model resolver *)

Lemma first_with_tag_find (tag : str) (names : list str) :
  first_with_tag tag names = List.find (contains tag) names.
Proof.
  induction names as [|name rest IH]; simpl; [reflexivity|].
  now destruct (contains tag name).
Qed.

Lemma find_none_existsb {A} (f : A -> bool) (l : list A) :
  List.find f l = None <-> existsb f l = false.
Proof.
  induction l as [|a l IH]; simpl; [tauto|].
  destruct (f a); simpl; [split; discriminate|exact IH].
Qed.

Lemma scan_tags_find (tags ggufs : list str) :
  scan_tags tags ggufs =
  match List.find (fun tag => existsb (contains tag) ggufs) tags with
  | Some tag => List.find (contains tag) ggufs
  | None => None
  end.
Proof.
  induction tags as [|tag rest IH]; simpl; [reflexivity|].
  rewrite first_with_tag_find.
  destruct (List.find (contains tag) ggufs) as [name|] eqn:E.
  - destruct (existsb (contains tag) ggufs) eqn:X; [now rewrite E|].
    apply find_none_existsb in X. congruence.
  - apply find_none_existsb in E. now rewrite E.
Qed.

Lemma endswith_nonempty (p s : str) :
  p <> [] -> endswith p s = true -> is_empty s = false.
Proof.
  intros Hp H. destruct s as [|c s]; [|reflexivity].
  unfold endswith in H. simpl in H.
  destruct (rev p) eqn:E; [|discriminate].
  apply (f_equal (@rev ascii)) in E. rewrite rev_involutive in E. contradiction.
Qed.

Lemma find_in_filter {A} (f g : A -> bool) (l : list A) (a : A) :
  List.find f (filter g l) = Some a -> g a = true.
Proof.
  intros H. apply find_some in H. destruct H as [H _].
  apply filter_In in H. tauto.
Qed.

(** C3. Selection considers the files with the archive extension, returns
    the first of them (in catalog order) containing the first tag of the
    ordered list that any of them contains, and without such a tag returns
    nothing when the fallback is not allowed (the default) and the first
    archive file when it is; a repository with no selection is passed over.
    The catalog m-f16.gguf, m-Q4_K_M.gguf, m-Q5.gguf selects m-Q4_K_M.gguf. *)
Theorem choose_gguf_selection :
  (forall files require_q4,
      selected (_choose_gguf files require_q4)
      = selection_stated files (negb require_q4))
  /\ require_q4_of None = true
  /\ (forall repo files rest require_q4,
         select_repo_file ((repo, files) :: rest) require_q4
         = match selection_stated files (negb require_q4) with
           | Some name => Some (repo, name)
           | None => select_repo_file rest require_q4
           end)
  /\ _choose_gguf [py "m-f16.gguf"; py "m-Q4_K_M.gguf"; py "m-Q5.gguf"] true
     = py "m-Q4_K_M.gguf".
Proof.
  assert (main : forall files require_q4,
             selected (_choose_gguf files require_q4)
             = selection_stated files (negb require_q4)).
  { intros files require_q4.
    unfold _choose_gguf, selection_stated, first_matching_tag.
    rewrite scan_tags_find.
    set (ggufs := filter (endswith (py ".gguf")) files).
    destruct ggufs as [|first more] eqn:G.
    - destruct (List.find _ preferred); [|now destruct require_q4].
      reflexivity.
    - rewrite <- G.
      destruct (List.find (fun tag => existsb (contains tag) ggufs) preferred)
        as [tag|] eqn:T.
      + destruct (List.find (contains tag) ggufs) as [name|] eqn:N.
        * unfold selected.
          apply find_in_filter in N.
          now rewrite (endswith_nonempty (p := py ".gguf")).
        * apply find_some in T. destruct T as [_ T].
          apply find_none_existsb in N. congruence.
      + destruct require_q4; simpl; [reflexivity|].
        assert (In first ggufs) as Hin by (rewrite G; now left).
        apply filter_In in Hin. destruct Hin as [_ Hin].
        unfold selected. rewrite G. simpl.
        now rewrite (endswith_nonempty (p := py ".gguf")). }
  split; [exact main|].
  split; [reflexivity|].
  split; [|reflexivity].
  intros repo files rest require_q4.
  rewrite <- main. unfold selected. simpl.
  now destruct (is_empty (_choose_gguf files require_q4)).
Qed.


Lemma stream_outcome (w : download_world) (pending : list (outcome bytes)) :
  forall k written,
    match streaming_exception w pending k with
    | Some e => snd (stream w pending k written) = Raise e
    | None =>
        stream w pending k written
        = (written ++ streamed_content pending, Ok tt)
    end.
Proof.
  induction pending as [|[chunk|e] rest IH]; intros k written; simpl.
  - now rewrite app_nil_r.
  - destruct (is_empty chunk); [now rewrite app_nil_r|].
    destruct (write_error w k); [reflexivity|].
    specialize (IH (S k) (written ++ chunk)).
    destruct (streaming_exception w rest (S k)); [exact IH|].
    now rewrite IH, app_assoc.
  - reflexivity.
Qed.

Lemma str_eqb_refl (p : str) : str_eqb p p = true.
Proof. unfold str_eqb. now destruct (list_eq_dec ascii_dec p p). Qed.

Lemma str_eqb_eq (p q : str) : str_eqb p q = true -> p = q.
Proof.
  unfold str_eqb. now destruct (list_eq_dec ascii_dec p q).
Qed.

(** The [except] branch: the file system it leaves, path by path. *)
Lemma cleanup_state (w : download_world) (fs : filesystem)
  (destination path : str) :
  match fs destination with
  | Some _ =>
      match remove_error w with
      | None => fs_remove fs destination
      | Some _ => fs
      end
  | None => fs
  end path
  = if str_eqb path destination then
      match remove_error w with
      | None => None
      | Some _ => fs destination
      end
    else fs path.
Proof.
  destruct (str_eqb path destination) eqn:E.
  - apply str_eqb_eq in E. subst path.
    destruct (fs destination) eqn:F, (remove_error w);
      unfold fs_remove; now rewrite ?str_eqb_refl, ?F.
  - destruct (fs destination), (remove_error w);
      unfold fs_remove; now rewrite ?E.
Qed.

Ltac cleanup_case :=
  split; [reflexivity|];
  let path := fresh "path" in
  intros path; cbn [fst snd]; rewrite cleanup_state;
  unfold fs_write; rewrite ?str_eqb_refl;
  destruct (str_eqb path _); reflexivity.

(** C9. When anything raises during a download, the destination file is
    removed if it exists (it stays as it was only when the removal itself
    fails, and that second failure is not reported) and the failure is raised
    again wrapped; when nothing raises, the destination holds everything the
    response delivered.  No other file changes. *)
Theorem download_file_cleanup (w : download_world) (fs : filesystem)
  (destination : str) :
  let after := fst (_download_file w fs destination) in
  let raised := snd (_download_file w fs destination) in
  match download_exception w with
  | Some exc =>
      raised = Raise (py "Failed to download model: " ++ exc)
      /\ forall path,
           after path =
           if str_eqb path destination then
             match remove_error w with
             | None => None
             | Some _ => fst (download_body w fs destination) destination
             end
           else fs path
  | None =>
      raised = Ok tt
      /\ forall path,
           after path =
           if str_eqb path destination
           then Some (streamed_content (reads w))
           else fs path
  end.
Proof.
  unfold _download_file, download_body, download_exception, or_else.
  destruct (request_error w) as [e|]; [cleanup_case|].
  destruct (open_error w) as [e|]; [cleanup_case|].
  pose proof (stream_outcome w (reads w) 0 []) as S.
  destruct (stream w (reads w) 0 []) as [written r].
  destruct (streaming_exception w (reads w) 0) as [e|]; cbn [snd] in S.
  - subst r. cleanup_case.
  - injection S as -> ->.
    destruct (close_error w) as [e|]; [cleanup_case|].
    split; reflexivity.
Qed.

(** *** Facts about the string operations *)

Lemma rstrip_cons (c : ascii) (s : str) :
  rstrip (c :: s) =
  if is_empty (rstrip s) then (if isspace c then [] else [c])
  else c :: rstrip s.
Proof. simpl. now destruct (rstrip s). Qed.

Lemma rstrip_empty_iff (s : str) :
  is_empty (rstrip s) = forallb isspace s.
Proof.
  induction s as [|c s IH]; [reflexivity|].
  rewrite rstrip_cons. simpl. rewrite <- IH.
  destruct (is_empty (rstrip s)), (isspace c); reflexivity.
Qed.

Lemma lstrip_empty_iff (s : str) :
  is_empty (lstrip s) = forallb isspace s.
Proof.
  induction s as [|c s IH]; [reflexivity|].
  simpl. now destruct (isspace c).
Qed.

Lemma is_empty_true (s : str) : is_empty s = true -> s = [].
Proof. now destruct s. Qed.

Lemma is_empty_false (s : str) : is_empty s = false -> s <> [].
Proof. now destruct s. Qed.

Lemma rstrip_ends_clean (s : str) : ends_clean (rstrip s).
Proof.
  induction s as [|c s IH]; [now left|].
  rewrite rstrip_cons.
  destruct (is_empty (rstrip s)) eqn:E.
  - destruct (isspace c) eqn:W; [now left|].
    right. now exists [], c.
  - right. destruct IH as [IH|(body & d & IH & W)].
    + rewrite IH in E. discriminate.
    + exists (c :: body), d. now rewrite IH.
Qed.

Lemma rstrip_snoc (body : str) (c : ascii) :
  isspace c = false -> rstrip (body ++ [c]) = body ++ [c].
Proof.
  intros W. induction body as [|b body IH].
  - simpl. now rewrite W.
  - rewrite <- app_comm_cons, rstrip_cons, IH.
    now destruct body.
Qed.

Lemma rstrip_fixed (s : str) : ends_clean s -> rstrip s = s.
Proof.
  intros [->|(body & c & -> & W)]; [reflexivity|now apply rstrip_snoc].
Qed.

Lemma rstrip_idem (s : str) : rstrip (rstrip s) = rstrip s.
Proof. apply rstrip_fixed, rstrip_ends_clean. Qed.

Lemma rstrip_app (a b : str) :
  rstrip (a ++ b) = if is_empty (rstrip b) then rstrip a else a ++ rstrip b.
Proof.
  induction a as [|c a IH]; simpl app.
  - now destruct (rstrip b).
  - rewrite !rstrip_cons, IH.
    destruct (is_empty (rstrip b)) eqn:E; [reflexivity|].
    destruct (a ++ rstrip b) eqn:X; [|reflexivity].
    apply app_eq_nil in X. destruct X as [_ X]. rewrite X in E. discriminate.
Qed.

Lemma lstrip_idem (s : str) : lstrip (lstrip s) = lstrip s.
Proof.
  induction s as [|c s IH]; [reflexivity|].
  simpl. destruct (isspace c) eqn:W; [exact IH|]. simpl. now rewrite W.
Qed.

Lemma lstrip_app (a b : str) :
  lstrip (a ++ b) = if forallb isspace a then lstrip b else lstrip a ++ b.
Proof.
  induction a as [|c a IH]; [reflexivity|].
  simpl. now destruct (isspace c).
Qed.

Lemma lstrip_rstrip (s : str) : lstrip (rstrip s) = rstrip (lstrip s).
Proof.
  induction s as [|c s IH]; [reflexivity|].
  rewrite rstrip_cons. simpl lstrip at 2.
  destruct (isspace c) eqn:W.
  - rewrite <- IH. destruct (is_empty (rstrip s)) eqn:E.
    + apply is_empty_true in E. now rewrite E.
    + simpl. now rewrite W.
  - rewrite rstrip_cons.
    destruct (is_empty (rstrip s)); simpl; now rewrite W.
Qed.

Lemma blank_all_space (s : str) : blank s = forallb isspace s.
Proof.
  unfold blank, strip. rewrite <- lstrip_rstrip.
  rewrite lstrip_empty_iff.
  destruct (forallb isspace s) eqn:A.
  - rewrite <- rstrip_empty_iff in A. apply is_empty_true in A. now rewrite A.
  - rewrite <- rstrip_empty_iff in A.
    pose proof (rstrip_ends_clean s) as [X|(body & c & X & W)].
    + rewrite X in A. discriminate.
    + rewrite X, forallb_app. simpl. rewrite W. now rewrite andb_false_r.
Qed.

Lemma strip_ends_clean (s : str) : ends_clean (strip s).
Proof. apply rstrip_ends_clean. Qed.

Lemma strip_idem (s : str) : strip (strip s) = strip s.
Proof.
  unfold strip. rewrite lstrip_rstrip, lstrip_idem. apply rstrip_idem.
Qed.

Lemma splitlines_nil (s : str) : splitlines s = [] -> s = [].
Proof.
  destruct s as [|c s]; [reflexivity|]. simpl.
  destruct (islinebreak c).
  - destruct (Ascii.eqb c CR); [destruct s as [|d s]|]; try discriminate.
    destruct (Ascii.eqb d LF); discriminate.
  - destruct (splitlines s); discriminate.
Qed.

(** *** Trailing whitespace *)

(** C10. The text that the normalizer returns never ends in whitespace, nor
    therefore in a blank line: it is empty or its last character is not
    whitespace.  Each spacing pass returns a right-stripped text. *)
Theorem normalize_ends_clean (output : str) :
  ends_clean (normalize output)
  /\ rstrip (normalize output) = normalize output
  /\ (forall text, rstrip (_add_table_spacing text) = _add_table_spacing text)
  /\ (forall text, rstrip (_add_option_spacing text) = _add_option_spacing text).
Proof.
  assert (T : forall text, ends_clean (_add_table_spacing text)).
  { intros text. unfold _add_table_spacing.
    destruct (splitlines text) eqn:E.
    - left. now apply splitlines_nil.
    - apply rstrip_ends_clean. }
  assert (O : forall text, ends_clean (_add_option_spacing text)).
  { intros text. unfold _add_option_spacing.
    destruct (splitlines text) eqn:E.
    - left. now apply splitlines_nil.
    - apply rstrip_ends_clean. }
  assert (N : ends_clean (normalize output)).
  { unfold normalize. destruct (is_empty (_clean_output output)); [now left|].
    apply O. }
  split; [exact N|].
  split; [now apply rstrip_fixed|].
  split; intros text; now apply rstrip_fixed.
Qed.

(** *** The spacing passes, line by line *)

Lemma table_run_after_length (lines : list str) :
  length (snd (table_run lines)) <= length lines.
Proof.
  induction lines as [|l rest IH]; simpl; [lia|].
  destruct (is_table_line l); simpl; [|lia].
  destruct (table_run rest); simpl in *; lia.
Qed.

Lemma table_loop_cons (l : str) (rest res : list str) :
  table_loop (l :: rest) res =
  if is_table_line l then
    table_loop (snd (table_run rest))
      (res ++ gap (last_nonblank res)
           ++ (l :: fst (table_run rest))
           ++ gap (head_nonblank (snd (table_run rest))))
  else table_loop rest (res ++ [l]).
Proof.
  simp table_loop. now destruct (is_table_line l).
Qed.

Lemma table_run_split (lines : list str) :
  lines = fst (table_run lines) ++ snd (table_run lines)
  /\ forallb is_table_line (fst (table_run lines)) = true
  /\ opt_table (hd_error (snd (table_run lines))) = false.
Proof.
  induction lines as [|l rest IH]; simpl; [auto|].
  destruct (is_table_line l) eqn:E.
  - destruct (table_run rest) as [run after]. simpl in *.
    destruct IH as (-> & F & H). rewrite E, F. auto.
  - simpl. rewrite E. auto.
Qed.

Lemma last_nonblank_snoc (res : list str) (a : str) :
  last_nonblank (res ++ [a]) = negb (blank a).
Proof.
  unfold last_nonblank. rewrite last_last. now destruct res.
Qed.

Lemma last_cons {A} (run : list A) :
  forall b a, last (b :: run) a = last run b.
Proof.
  induction run as [|c run IH]; intros b a; [reflexivity|].
  change (last (b :: c :: run) a) with (last (c :: run) a).
  now rewrite (IH c a), (IH c b).
Qed.

Lemma insert_gaps_cons (gap_when : str -> str -> bool) (a : str)
  (rest : list str) :
  insert_gaps gap_when (a :: rest)
  = a :: gap (gap_before gap_when a rest) ++ insert_gaps gap_when rest.
Proof. now destruct rest. Qed.

Lemma insert_gaps_run (gap_when : str -> str -> bool) (run : list str) :
  forall a after,
    settled gap_when (a :: run) = true ->
    insert_gaps gap_when (a :: run ++ after)
    = a :: run ++ gap (gap_before gap_when (last run a) after)
        ++ insert_gaps gap_when after.
Proof.
  induction run as [|b run IH]; intros a after S.
  - apply insert_gaps_cons.
  - simpl in S. apply andb_prop in S. destruct S as [G S].
    apply negb_true_iff in G.
    rewrite (last_cons run b a), <- app_comm_cons, insert_gaps_cons.
    change (gap_before gap_when a (b :: run ++ after)) with (gap_when a b).
    now rewrite G, (IH b after S).
Qed.

Lemma table_run_settled (a : str) (run : list str) :
  is_table_line a = true ->
  forallb is_table_line run = true ->
  settled table_gap (a :: run) = true /\ is_table_line (last run a) = true.
Proof.
  revert a. induction run as [|b run IH]; intros a A F; [auto|].
  simpl in F. apply andb_prop in F. destruct F as [B F].
  destruct (IH b B F) as (S & L).
  split.
  - change (settled table_gap (a :: b :: run))
      with (negb (table_gap a b) && settled table_gap (b :: run)).
    rewrite S. unfold table_gap. now rewrite A, B.
  - now rewrite last_cons.
Qed.

Lemma table_loop_gaps_from (n : nat) :
  forall lines res,
    length lines <= n ->
    table_loop lines res
    = res ++ gap (opt_table (hd_error lines) && last_nonblank res)
          ++ insert_gaps table_gap lines.
Proof.
  induction n as [|n IH]; intros lines res Hn.
  - destruct lines; [|simpl in Hn; lia].
    simp table_loop. simpl. now rewrite app_nil_r.
  - destruct lines as [|l rest].
    { simp table_loop. simpl. now rewrite app_nil_r. }
    rewrite table_loop_cons. simpl in Hn. simpl hd_error. simpl opt_table.
    destruct (is_table_line l) eqn:E.
    + destruct (table_run_split rest) as (Hsplit & F & H).
      pose proof (table_run_after_length rest) as Hlen.
      destruct (table_run_settled l (fst (table_run rest)) E F) as (S & L).
      rewrite IH by lia. rewrite H. simpl gap at 3. simpl app at 5.
      rewrite Hsplit at 4.
      rewrite (insert_gaps_run table_gap (fst (table_run rest)) l _ S).
      assert (gap_before table_gap (last (fst (table_run rest)) l)
                (snd (table_run rest))
              = head_nonblank (snd (table_run rest))) as ->.
      { destruct (snd (table_run rest)) as [|m after]; [reflexivity|].
        simpl in *. unfold table_gap. rewrite L, H. now destruct (blank m). }
      simpl andb. rewrite <- !app_assoc. reflexivity.
    + rewrite IH by lia. rewrite last_nonblank_snoc, insert_gaps_cons.
      assert (gap_before table_gap l rest
              = opt_table (hd_error rest) && negb (blank l)) as ->.
      { destruct rest as [|b rest]; [reflexivity|].
        simpl. unfold table_gap. rewrite E. simpl.
        now rewrite andb_comm. }
      simpl. rewrite <- !app_assoc. reflexivity.
Qed.

Lemma table_loop_gaps (lines : list str) :
  table_loop lines [] = insert_gaps table_gap lines.
Proof.
  rewrite (table_loop_gaps_from (n := length lines)) by lia.
  simpl. now rewrite andb_false_r.
Qed.

Lemma last_around (x y : bool) (b : str) :
  last (gap x ++ [b] ++ gap y) [] = if y then [] else b.
Proof. now destruct x, y. Qed.

Lemma table_stated_gaps_from (rest : list str) :
  forall a,
    let g := is_table_line a && negb (opt_table (hd_error rest))
             && opt_nonblank (hd_error rest) in
    insert_gaps table_gap (a :: rest)
    = a :: gap g
        ++ table_spacing_stated (Some a) (Some (if g then [] else a)) rest.
Proof.
  induction rest as [|b rest IH]; intros a g.
  - subst g. simpl. now rewrite !andb_false_r.
  - rewrite insert_gaps_cons, (IH b).
    cbn [table_spacing_stated gap_before hd_error opt_table opt_nonblank].
    set (gb := is_table_line b && negb (opt_table (hd_error rest))
               && opt_nonblank (hd_error rest)).
    rewrite last_around. fold gb.
    subst g. cbn [hd_error opt_table opt_nonblank]. unfold table_gap.
    clearbody gb.
    destruct (is_table_line a), (is_table_line b); cbn [andb negb orb];
      destruct (blank a) eqn:A, (blank b) eqn:B; cbn [andb negb orb];
      rewrite ?A; reflexivity.
Qed.

Lemma table_stated_gaps (lines : list str) :
  table_spacing_stated None None lines = insert_gaps table_gap lines.
Proof.
  destruct lines as [|a rest]; [reflexivity|].
  rewrite (table_stated_gaps_from rest a).
  cbn [table_spacing_stated opt_table opt_nonblank].
  rewrite !andb_false_r. cbn [gap app].
  now destruct (is_table_line a && negb (opt_table (hd_error rest))
                && opt_nonblank (hd_error rest)).
Qed.

Lemma count_lstrip (c : ascii) (s : str) :
  isspace c = false ->
  count_occ ascii_dec (lstrip s) c = count_occ ascii_dec s c.
Proof.
  intros W. induction s as [|d s IH]; [reflexivity|].
  simpl. destruct (isspace d) eqn:D; [|reflexivity].
  destruct (ascii_dec d c); [congruence|exact IH].
Qed.

(** C4. The table spacing pass passes every source line on as it is and
    adds exactly one blank line before each maximal run of table lines whose
    preceding output line exists and is not blank, and exactly one after each
    run whose following source line exists and is not blank; the text it
    returns is these lines joined and right-stripped.  A table line is one
    that, left-trimmed, begins with a pipe, and holds at least two pipes.
    The lines intro, |a|b|, |-|-|, |1|2|, outro come out with one blank line
    after intro and one before outro. *)
Theorem table_spacing_runs :
  (forall lines,
      table_loop lines [] = table_spacing_stated None None lines)
  /\ (forall text,
         _add_table_spacing text =
         match splitlines text with
         | [] => text
         | _ :: _ =>
             rstrip (join [LF]
                       (table_spacing_stated None None (splitlines text)))
         end)
  /\ (forall line,
         is_table_line line =
         match lstrip line with
         | c :: _ => Ascii.eqb c "|"
         | [] => false
         end && (2 <=? count_occ ascii_dec line "|"%char))
  /\ table_loop [py "intro"; py "|a|b|"; py "|-|-|"; py "|1|2|"; py "outro"] []
     = [py "intro"; []; py "|a|b|"; py "|-|-|"; py "|1|2|"; []; py "outro"]
  /\ _add_table_spacing
       (join [LF] [py "intro"; py "|a|b|"; py "|-|-|"; py "|1|2|"; py "outro"])
     = join [LF]
         [py "intro"; []; py "|a|b|"; py "|-|-|"; py "|1|2|"; []; py "outro"].
Proof.
  assert (L : forall lines,
             table_loop lines [] = table_spacing_stated None None lines).
  { intros lines. now rewrite table_loop_gaps, table_stated_gaps. }
  split; [exact L|].
  split.
  { intros text. unfold _add_table_spacing.
    destruct (splitlines text); [reflexivity|now rewrite L]. }
  split.
  { intros line. unfold is_table_line.
    rewrite count_lstrip by reflexivity.
    destruct (lstrip line) as [|c r]; [reflexivity|].
    simpl. now rewrite Ascii.eqb_sym, andb_true_r. }
  split; reflexivity.
Qed.

Lemma option_pattern_head (l : str) :
  option_pattern l = true ->
  exists c r, lstrip l = c :: r /\ (is_A_to_H c || isdigit c) = true.
Proof.
  unfold option_pattern, option_label.
  destruct (lstrip l) as [|c r]; [discriminate|].
  intros H. exists c, r. split; [reflexivity|].
  destruct (is_A_to_H c); [reflexivity|].
  now destruct (isdigit c).
Qed.

Lemma option_pattern_nonblank (l : str) :
  option_pattern l = true -> blank l = false.
Proof.
  intros H. destruct (option_pattern_head l H) as (c & r & E & _).
  rewrite blank_all_space, <- lstrip_empty_iff. now rewrite E.
Qed.

Lemma option_pattern_not_table (l : str) :
  option_pattern l = true -> is_table_line l = false.
Proof.
  intros H. destruct (option_pattern_head l H) as (c & r & E & C).
  unfold is_table_line. rewrite E.
  change (startswith (py "|") (c :: r)) with (Ascii.eqb "|" c && true).
  destruct (Ascii.eqb "|" c) eqn:P; [|reflexivity].
  apply Ascii.eqb_eq in P. subst c. discriminate.
Qed.

Lemma option_fold_gaps (rest : list str) :
  forall res a ib,
    (blank a = false -> ib = option_pattern a) ->
    result (fold_left option_step rest
              {| result := res ++ [a]; in_option_block := ib |})
    = res ++ insert_gaps option_gap (a :: rest).
Proof.
  induction rest as [|b rest IH]; intros res a ib J; [reflexivity|].
  rewrite insert_gaps_cons.
  change (gap_before option_gap a (b :: rest)) with (option_gap a b).
  cbn [fold_left]. unfold option_step at 2. cbn [result in_option_block].
  rewrite last_nonblank_snoc.
  assert (G : option_gap a b
              = option_pattern b && (negb ib && negb (blank a))).
  { unfold option_gap. destruct (option_pattern b); [|reflexivity].
    cbn [andb]. destruct (blank a); [now rewrite !andb_false_r|].
    now rewrite J. }
  rewrite G. destruct (option_pattern b) eqn:B; cbn [andb].
  - destruct (negb ib && negb (blank a)).
    + rewrite (@IH ((res ++ [a]) ++ [[]]) b true) by (intros; now rewrite B).
      now rewrite <- !app_assoc.
    + rewrite (@IH (res ++ [a]) b true) by (intros; now rewrite B).
      now rewrite <- !app_assoc.
  - rewrite (@IH (res ++ [a]) b (if is_empty (strip b) then ib else false)).
    + now rewrite <- !app_assoc.
    + unfold blank. intros ->. now rewrite B.
Qed.

Lemma option_loop_gaps (lines : list str) :
  option_loop lines = insert_gaps option_gap lines.
Proof.
  destruct lines as [|a rest]; [reflexivity|].
  unfold option_loop. cbn [fold_left]. unfold option_step at 2.
  cbn [result in_option_block last_nonblank andb negb].
  destruct (option_pattern a) eqn:A.
  - apply (@option_fold_gaps rest [] a true). intros; now rewrite A.
  - apply (@option_fold_gaps rest [] a
             (if is_empty (strip a) then false else false)).
    intros. rewrite A. now destruct (is_empty (strip a)).
Qed.

Lemma option_stated_gaps_from (rest : list str) :
  forall a history,
    insert_gaps option_gap (a :: rest)
    = a :: option_spacing_stated (a :: history) rest.
Proof.
  induction rest as [|b rest IH]; intros a history; [reflexivity|].
  rewrite insert_gaps_cons, (IH b (a :: history)).
  cbn [option_spacing_stated gap_before in_block_stated hd_error opt_nonblank].
  unfold option_gap.
  destruct (option_pattern b), (option_pattern a), (blank a);
    cbn [andb negb]; rewrite ?andb_false_r; reflexivity.
Qed.

Lemma option_stated_gaps (lines : list str) :
  option_spacing_stated [] lines = insert_gaps option_gap lines.
Proof.
  destruct lines as [|a rest]; [reflexivity|].
  rewrite (option_stated_gaps_from rest a []).
  cbn [option_spacing_stated hd_error opt_nonblank].
  now rewrite andb_false_r.
Qed.

Lemma insert_gaps_settled (gap_when : str -> str -> bool) (lines : list str) :
  settled gap_when lines = true -> insert_gaps gap_when lines = lines.
Proof.
  induction lines as [|a rest IH]; [reflexivity|].
  intros S. rewrite insert_gaps_cons.
  cbn [settled] in S. apply andb_prop in S. destruct S as [G S].
  rewrite (IH S). destruct rest as [|b rest]; [reflexivity|].
  apply negb_true_iff in G. simpl. now rewrite G.
Qed.

Lemma insert_gaps_settles (gap_when : str -> str -> bool) (lines : list str) :
  (forall a, gap_when a [] = false) ->
  (forall b, gap_when [] b = false) ->
  settled gap_when (insert_gaps gap_when lines) = true.
Proof.
  intros R L. induction lines as [|a rest IH]; [reflexivity|].
  rewrite insert_gaps_cons. destruct rest as [|b rest]; [reflexivity|].
  rewrite insert_gaps_cons in *. cbn [gap_before].
  destruct (gap_when a b) eqn:G; cbn [gap app settled].
  - rewrite R, L. exact IH.
  - rewrite G. exact IH.
Qed.

Lemma table_gap_empty : forall a, table_gap a [] = false /\ table_gap [] a = false.
Proof.
  intros a. unfold table_gap.
  change (is_table_line []) with false. change (blank []) with true.
  now destruct (is_table_line a), (blank a).
Qed.

Lemma option_gap_empty : forall a, option_gap a [] = false /\ option_gap [] a = false.
Proof.
  intros a. unfold option_gap.
  change (option_pattern []) with false. change (blank []) with true.
  now destruct (option_pattern a), (blank a).
Qed.

(** *** Lines and texts *)

Lemma splitlines_line (l : str) :
  no_break l = true -> l <> [] -> splitlines l = [l].
Proof.
  induction l as [|c l IH]; intros N E; [contradiction|].
  simpl in N. apply andb_prop in N. destruct N as [C N].
  apply negb_true_iff in C. simpl. rewrite C.
  destruct l as [|d l]; [reflexivity|].
  rewrite IH; [reflexivity|exact N|discriminate].
Qed.

Lemma splitlines_line_LF (l t : str) :
  no_break l = true -> splitlines (l ++ LF :: t) = l :: splitlines t.
Proof.
  induction l as [|c l IH]; intros N; [reflexivity|].
  simpl in N. apply andb_prop in N. destruct N as [C N].
  apply negb_true_iff in C. simpl. rewrite C. now rewrite (IH N).
Qed.

Lemma join_cons (sep l : str) (m : str) (rest : list str) :
  join sep (l :: m :: rest) = l ++ sep ++ join sep (m :: rest).
Proof. reflexivity. Qed.

Lemma splitlines_join (lines : list str) :
  forallb no_break lines = true ->
  last lines [LF] <> [] ->
  splitlines (join [LF] lines) = lines.
Proof.
  induction lines as [|l rest IH]; intros N E; [reflexivity|].
  simpl in N. apply andb_prop in N. destruct N as [Nl N].
  destruct rest as [|m rest].
  - simpl. now apply splitlines_line.
  - rewrite join_cons.
    change ([LF] ++ join [LF] (m :: rest)) with (LF :: join [LF] (m :: rest)).
    rewrite splitlines_line_LF by exact Nl.
    rewrite IH; [reflexivity|exact N|].
    exact E.
Qed.

Lemma blank_rstrip (l : str) : blank l = is_empty (rstrip l).
Proof. now rewrite blank_all_space, rstrip_empty_iff. Qed.

Lemma trim_lines_last (lines : list str) :
  trim_lines lines = [] \/ last (trim_lines lines) [LF] <> [].
Proof.
  induction lines as [|l rest IH]; [now left|].
  simpl. destruct (trim_lines rest) as [|r rs] eqn:T.
  - destruct (blank l) eqn:B; [now left|]. right. simpl.
    rewrite blank_rstrip in B. now apply is_empty_false.
  - right. destruct IH as [IH|IH]; [discriminate|].
    exact IH.
Qed.

Lemma join_nonempty (lines : list str) :
  lines <> [] -> last lines [LF] <> [] -> join [LF] lines <> [].
Proof.
  destruct lines as [|l [|m rest]]; intros N E.
  - contradiction.
  - exact E.
  - rewrite join_cons. now destruct l.
Qed.

Lemma rstrip_join (lines : list str) :
  rstrip (join [LF] lines) = join [LF] (trim_lines lines).
Proof.
  induction lines as [|l rest IH]; [reflexivity|].
  destruct rest as [|m rest].
  - simpl. rewrite blank_rstrip.
    destruct (rstrip l) eqn:R; reflexivity.
  - rewrite join_cons, rstrip_app.
    change ([LF] ++ join [LF] (m :: rest)) with (LF :: join [LF] (m :: rest)).
    rewrite rstrip_cons, IH.
    change (trim_lines (l :: m :: rest))
      with (match trim_lines (m :: rest) with
            | [] => if blank l then [] else [rstrip l]
            | r => l :: r
            end).
    destruct (trim_lines (m :: rest)) as [|r rs] eqn:T.
    + simpl. rewrite blank_rstrip. now destruct (rstrip l).
    + pose proof (trim_lines_last (m :: rest)) as [X|X]; [congruence|].
      rewrite T in X.
      assert (join [LF] (r :: rs) <> []) as J by (now apply join_nonempty).
      destruct (join [LF] (r :: rs)) eqn:Q; [contradiction|].
      rewrite join_cons, Q. reflexivity.
Qed.

Lemma no_break_rstrip (l : str) : no_break l = true -> no_break (rstrip l) = true.
Proof.
  induction l as [|c l IH]; intros N; [reflexivity|].
  simpl in N. apply andb_prop in N. destruct N as [C N].
  rewrite rstrip_cons.
  destruct (is_empty (rstrip l)); [destruct (isspace c)|]; simpl;
    rewrite ?C, ?IH; auto.
Qed.

Lemma no_break_trim (lines : list str) :
  forallb no_break lines = true -> forallb no_break (trim_lines lines) = true.
Proof.
  induction lines as [|l rest IH]; intros N; [reflexivity|].
  simpl in N. apply andb_prop in N. destruct N as [Nl N].
  simpl. destruct (trim_lines rest) as [|r rs].
  - destruct (blank l); [reflexivity|]. simpl.
    now rewrite no_break_rstrip.
  - simpl in *. now rewrite Nl, IH.
Qed.

Lemma splitlines_rstrip_join (lines : list str) :
  forallb no_break lines = true ->
  splitlines (rstrip (join [LF] lines)) = trim_lines lines.
Proof.
  intros N. rewrite rstrip_join.
  destruct (trim_lines_last lines) as [T|T]; [now rewrite T|].
  apply splitlines_join; [now apply no_break_trim|exact T].
Qed.

Lemma linebreak_is_space (c : ascii) : islinebreak c = true -> isspace c = true.
Proof.
  destruct c as [[] [] [] [] [] [] [] []]; vm_compute; intros H;
    (reflexivity || discriminate H).
Qed.

Lemma splitlines_cons (c : ascii) (s : str) :
  splitlines (c :: s) =
  if islinebreak c then
    if Ascii.eqb c CR then
      match s with
      | d :: s'' => if Ascii.eqb d LF then [] :: splitlines s''
                    else [] :: splitlines s
      | [] => [] :: splitlines s
      end
    else [] :: splitlines s
  else
    match splitlines s with
    | [] => [[c]]
    | l :: ls => (c :: l) :: ls
    end.
Proof. reflexivity. Qed.

Lemma splitlines_no_break_upto (n : nat) :
  forall s, length s <= n -> forallb no_break (splitlines s) = true.
Proof.
  induction n as [|n IH]; intros s Hn.
  - destruct s; [reflexivity|simpl in Hn; lia].
  - destruct s as [|c s]; [reflexivity|]. simpl in Hn.
    rewrite splitlines_cons.
    destruct (islinebreak c) eqn:C.
    + assert (forallb no_break ([] :: splitlines s) = true) as E
          by (apply IH; lia).
      destruct (Ascii.eqb c CR); [|exact E].
      destruct s as [|d s]; [reflexivity|].
      destruct (Ascii.eqb d LF); [|exact E].
      apply (IH s). simpl in Hn. lia.
    + pose proof (IH s ltac:(lia)) as H.
      destruct (splitlines s) as [|l ls]; simpl in *; rewrite C; [reflexivity|].
      exact H.
Qed.

Lemma splitlines_no_break (s : str) : forallb no_break (splitlines s) = true.
Proof. now apply (splitlines_no_break_upto (n := length s)). Qed.

Lemma insert_gaps_no_break (gap_when : str -> str -> bool) (lines : list str) :
  forallb no_break lines = true ->
  forallb no_break (insert_gaps gap_when lines) = true.
Proof.
  induction lines as [|a rest IH]; intros N; [reflexivity|].
  simpl in N. apply andb_prop in N. destruct N as [Na N].
  rewrite insert_gaps_cons. simpl. rewrite Na, forallb_app, (IH N).
  now destruct (gap_before gap_when a rest).
Qed.

Lemma trim_lines_head (b : str) (rest : list str) (h : str) (t : list str) :
  trim_lines (b :: rest) = h :: t -> h = b \/ h = rstrip b.
Proof.
  simpl. destruct (trim_lines rest).
  - destruct (blank b); [discriminate|]. intros [= <- _]. now right.
  - intros [= <- _]. now left.
Qed.

Lemma settled_trim (gap_when : str -> str -> bool) (lines : list str) :
  (forall a b, gap_when a (rstrip b) = true -> gap_when a b = true) ->
  settled gap_when lines = true ->
  settled gap_when (trim_lines lines) = true.
Proof.
  intros R. induction lines as [|a rest IH]; intros S; [reflexivity|].
  cbn [settled] in S. apply andb_prop in S. destruct S as [G S].
  specialize (IH S). cbn [trim_lines].
  destruct (trim_lines rest) as [|h t] eqn:T.
  - now destruct (blank a).
  - cbn [settled]. cbn [settled] in IH. rewrite IH, andb_true_r.
    destruct rest as [|b rest]; [discriminate|].
    apply negb_true_iff in G. apply negb_true_iff.
    destruct (trim_lines_head _ _ T) as [->| ->]; [exact G|].
    destruct (gap_when a (rstrip b)) eqn:X; [|reflexivity].
    apply R in X. congruence.
Qed.

Lemma settled_insert_other (g h : str -> str -> bool) (lines : list str) :
  (forall a, g a [] = false) ->
  (forall b, g [] b = false) ->
  settled g lines = true ->
  settled g (insert_gaps h lines) = true.
Proof.
  intros R L. induction lines as [|a rest IH]; intros S; [reflexivity|].
  cbn [settled] in S. apply andb_prop in S. destruct S as [G S].
  specialize (IH S).
  rewrite insert_gaps_cons. destruct rest as [|b rest]; [reflexivity|].
  rewrite insert_gaps_cons in *. cbn [gap_before].
  destruct (h a b); cbn [gap app settled].
  - rewrite R, L. exact IH.
  - rewrite G. exact IH.
Qed.

Lemma trim_lines_idem (lines : list str) :
  trim_lines (trim_lines lines) = trim_lines lines.
Proof.
  induction lines as [|a rest IH]; [reflexivity|].
  cbn [trim_lines]. destruct (trim_lines rest) as [|h t] eqn:T.
  - destruct (blank a) eqn:B; [reflexivity|].
    cbn [trim_lines]. rewrite blank_rstrip, rstrip_idem, <- blank_rstrip, B.
    reflexivity.
  - cbn [trim_lines]. cbn [trim_lines] in IH. now rewrite IH.
Qed.

Lemma spacing_pass_join (g : str -> str -> bool) (text : str) :
  spacing_pass g text
  = join [LF] (trim_lines (insert_gaps g (splitlines text))).
Proof.
  unfold spacing_pass. destruct (splitlines text) eqn:E.
  - now apply splitlines_nil.
  - apply rstrip_join.
Qed.

Lemma spacing_pass_lines (g : str -> str -> bool) (text : str) :
  splitlines (spacing_pass g text)
  = trim_lines (insert_gaps g (splitlines text)).
Proof.
  unfold spacing_pass. destruct (splitlines text) eqn:E.
  - apply splitlines_nil in E. now subst.
  - apply splitlines_rstrip_join, insert_gaps_no_break.
    rewrite <- E. apply splitlines_no_break.
Qed.

Lemma spacing_pass_fixed (g : str -> str -> bool) (lines : list str) :
  forallb no_break lines = true ->
  trim_lines lines = lines ->
  settled g lines = true ->
  spacing_pass g (join [LF] lines) = join [LF] lines.
Proof.
  intros N T S. rewrite spacing_pass_join.
  assert (splitlines (join [LF] lines) = lines) as ->.
  { destruct (trim_lines_last lines) as [X|X]; rewrite T in X.
    - now subst.
    - now apply splitlines_join. }
  now rewrite insert_gaps_settled, T.
Qed.

Lemma spacing_pass_idem (g : str -> str -> bool) (text : str) :
  (forall a, g a [] = false) ->
  (forall b, g [] b = false) ->
  (forall a b, g a (rstrip b) = true -> g a b = true) ->
  spacing_pass g (spacing_pass g text) = spacing_pass g text.
Proof.
  intros R L P. rewrite (spacing_pass_join g text).
  apply spacing_pass_fixed.
  - apply no_break_trim, insert_gaps_no_break, splitlines_no_break.
  - apply trim_lines_idem.
  - apply settled_trim; [exact P|]. now apply insert_gaps_settles.
Qed.

Lemma rstrip_prefix (s : str) :
  exists w, s = rstrip s ++ w /\ forallb isspace w = true.
Proof.
  induction s as [|c s (w & IH & W)]; [now exists []|].
  rewrite rstrip_cons. pose proof (rstrip_empty_iff s) as A.
  destruct (is_empty (rstrip s)) eqn:E.
  - destruct (isspace c) eqn:C.
    + exists (c :: s). simpl. now rewrite C, <- A.
    + exists s. now rewrite <- A.
  - exists w. simpl. now rewrite <- IH.
Qed.

Lemma count_rstrip (c : ascii) (s : str) :
  isspace c = false ->
  count_occ ascii_dec (rstrip s) c = count_occ ascii_dec s c.
Proof.
  intros W. induction s as [|d s IH]; [reflexivity|].
  rewrite rstrip_cons. destruct (is_empty (rstrip s)) eqn:E.
  - apply is_empty_true in E. rewrite E in IH. simpl in IH.
    simpl. rewrite <- IH.
    destruct (isspace d) eqn:D; simpl; destruct (ascii_dec d c);
      congruence.
  - simpl. now rewrite IH.
Qed.

Lemma startswith_rstrip (p : ascii) (s : str) :
  isspace p = false -> startswith [p] (rstrip s) = startswith [p] s.
Proof.
  intros W. destruct s as [|d s]; [reflexivity|].
  rewrite rstrip_cons. destruct (is_empty (rstrip s)); [|reflexivity].
  destruct (isspace d) eqn:D; [|reflexivity].
  simpl. destruct (Ascii.eqb p d) eqn:E; [|reflexivity].
  apply Ascii.eqb_eq in E. congruence.
Qed.

Lemma is_table_line_rstrip (l : str) :
  is_table_line (rstrip l) = is_table_line l.
Proof.
  unfold is_table_line. rewrite lstrip_rstrip.
  change (py "|") with ["|"%char].
  now rewrite startswith_rstrip, count_rstrip.
Qed.

Lemma blank_rstrip_same (l : str) : blank (rstrip l) = blank l.
Proof. now rewrite !blank_rstrip, rstrip_idem. Qed.

Lemma closer_then_space_app (r w : str) :
  closer_then_space r = true -> closer_then_space (r ++ w) = true.
Proof. destruct r as [|p [|q r]]; simpl; auto; discriminate. Qed.

Lemma option_label_app (u w : str) :
  option_label u = true -> option_label (u ++ w) = true.
Proof.
  destruct u as [|c r]; [discriminate|]. simpl.
  destruct (is_A_to_H c); [apply closer_then_space_app|].
  destruct (isdigit c); [|discriminate].
  intros H. apply orb_prop in H. apply orb_true_iff.
  destruct H as [H|H]; [left; now apply closer_then_space_app|right].
  destruct r as [|d r]; [discriminate|]. simpl.
  apply andb_prop in H. destruct H as [D H].
  now rewrite D, closer_then_space_app.
Qed.

Lemma option_pattern_rstrip (l : str) :
  option_pattern (rstrip l) = true -> option_pattern l = true.
Proof.
  unfold option_pattern. rewrite lstrip_rstrip. intros H.
  destruct (rstrip_prefix (lstrip l)) as (w & E & _). rewrite E.
  now apply option_label_app.
Qed.

Lemma table_gap_rstrip (a b : str) :
  table_gap a (rstrip b) = true -> table_gap a b = true.
Proof.
  unfold table_gap. now rewrite is_table_line_rstrip, blank_rstrip_same.
Qed.

Lemma option_gap_rstrip (a b : str) :
  option_gap a (rstrip b) = true -> option_gap a b = true.
Proof.
  unfold option_gap. intros H.
  apply andb_prop in H. destruct H as [H B].
  apply andb_prop in H. destruct H as [O A].
  now rewrite (option_pattern_rstrip _ O), A, B.
Qed.

Lemma add_table_spacing_pass (text : str) :
  _add_table_spacing text = spacing_pass table_gap text.
Proof.
  unfold _add_table_spacing, spacing_pass.
  destruct (splitlines text); [reflexivity|now rewrite table_loop_gaps].
Qed.

Lemma add_option_spacing_pass (text : str) :
  _add_option_spacing text = spacing_pass option_gap text.
Proof.
  unfold _add_option_spacing, spacing_pass.
  destruct (splitlines text); [reflexivity|now rewrite option_loop_gaps].
Qed.

Lemma insert_gaps_after (g : str -> str -> bool) (before lines : list str) :
  exists out, insert_gaps g (before ++ lines) = out ++ insert_gaps g lines.
Proof.
  induction before as [|p before (out & IH)]; [now exists []|].
  rewrite <- app_comm_cons, insert_gaps_cons, IH.
  exists (p :: gap (gap_before g p (before ++ lines)) ++ out).
  simpl. now rewrite <- app_assoc.
Qed.

Lemma option_block_settled (blanks : list str) :
  forall a b,
    option_pattern a = true \/ blank a = true ->
    forallb blank blanks = true ->
    option_pattern b = true ->
    settled option_gap (a :: blanks ++ [b]) = true.
Proof.
  induction blanks as [|x blanks IH]; intros a b A F B.
  - simpl. unfold option_gap. rewrite B.
    destruct A as [-> | ->]; [reflexivity|]. now rewrite andb_false_r.
  - simpl in F. apply andb_prop in F. destruct F as [X F].
    change (settled option_gap (a :: (x :: blanks) ++ [b]))
      with (negb (option_gap a x) && settled option_gap (x :: blanks ++ [b])).
    rewrite (IH x b (or_intror X) F B), andb_true_r.
    unfold option_gap. destruct (option_pattern x) eqn:O; [|reflexivity].
    apply option_pattern_nonblank in O. congruence.
Qed.

(** C5. The option spacing pass passes every source line on as it is and
    adds exactly one blank line at each option-block start, that is before
    an option line reached outside an option block while the line emitted
    before it is not blank; the text it returns is these lines joined and
    right-stripped.  It puts nothing between two option lines, whether they
    are neighbours or separated by blank lines only, since blank lines do
    not end the block.  Applying it again changes nothing, on the lines and
    on the text.  The lines Question:, A. foo, B. bar, Next para get a
    single blank line, before A. foo, as lines and as a text. *)
Theorem option_spacing_blocks :
  (forall lines, option_loop lines = option_spacing_stated [] lines)
  /\ (forall before a blanks b after,
         option_pattern a = true ->
         forallb blank blanks = true ->
         option_pattern b = true ->
         exists out1 out2,
           option_loop (before ++ a :: blanks ++ b :: after)
           = out1 ++ a :: blanks ++ b :: out2)
  /\ (forall lines, option_loop (option_loop lines) = option_loop lines)
  /\ (forall text,
         _add_option_spacing (_add_option_spacing text)
         = _add_option_spacing text)
  /\ option_loop [py "Question:"; py "A. foo"; py "B. bar"; py "Next para"]
     = [py "Question:"; []; py "A. foo"; py "B. bar"; py "Next para"]
  /\ (forall text,
         _add_option_spacing text =
         match splitlines text with
         | [] => text
         | _ :: _ =>
             rstrip (join [LF] (option_spacing_stated [] (splitlines text)))
         end)
  /\ _add_option_spacing
       (join [LF] [py "Question:"; py "A. foo"; py "B. bar"; py "Next para"])
     = join [LF]
         [py "Question:"; []; py "A. foo"; py "B. bar"; py "Next para"].
Proof.
  assert (L : forall lines, option_loop lines = option_spacing_stated [] lines)
    by (intros; now rewrite option_loop_gaps, option_stated_gaps).
  split; [exact L|].
  split.
  { intros before a blanks b after A F B.
    rewrite option_loop_gaps.
    destruct (insert_gaps_after option_gap before
                (a :: blanks ++ b :: after)) as (out1 & ->).
    exists out1.
    replace (a :: blanks ++ b :: after) with (a :: (blanks ++ [b]) ++ after)
      by (now rewrite <- app_assoc).
    rewrite insert_gaps_run
      by (apply option_block_settled; auto).
    eexists. rewrite <- app_assoc. reflexivity. }
  split.
  { intros lines. rewrite !option_loop_gaps.
    apply insert_gaps_settled, insert_gaps_settles; apply option_gap_empty. }
  split.
  { intros text. rewrite !add_option_spacing_pass.
    apply spacing_pass_idem;
      [apply option_gap_empty|apply option_gap_empty|apply option_gap_rstrip]. }
  split; [reflexivity|].
  split; [|reflexivity].
  intros text. unfold _add_option_spacing.
  destruct (splitlines text); [reflexivity|now rewrite L].
Qed.

Lemma option_spacing_blocks_witness :
  exists out1 out2,
    option_loop ([py "Question:"] ++ py "A. foo" :: [py "  "]
                   ++ py "12) bar" :: [py "Next para"])
    = out1 ++ py "A. foo" :: [py "  "] ++ py "12) bar" :: out2.
Proof.
  destruct option_spacing_blocks as (_ & H & _).
  apply (H [py "Question:"] (py "A. foo") [py "  "] (py "12) bar")
           [py "Next para"]); reflexivity.
Defined.

(** *** Searching and deleting *)

Lemma startswith_app_sep (c : ascii) (m : str) :
  free_of c m = true ->
  forall a b, m <> [] -> startswith m (a ++ c :: b) = startswith m a.
Proof.
  induction m as [|x m IH]; intros F a b N; [contradiction|].
  simpl in F. apply andb_prop in F. destruct F as [X F].
  apply negb_true_iff in X.
  destruct a as [|y a]; simpl.
  - now rewrite X.
  - destruct m as [|x' m]; [reflexivity|].
    rewrite (IH F a b); [reflexivity|discriminate].
Qed.

Lemma contains_cons (m : str) (c : ascii) (s : str) :
  contains m (c :: s) = startswith m (c :: s) || contains m s.
Proof. reflexivity. Qed.

Lemma contains_app_sep (c : ascii) (m : str) (a b : str) :
  free_of c m = true -> m <> [] ->
  contains m (a ++ c :: b) = contains m a || contains m b.
Proof.
  intros F N. induction a as [|y a IH].
  - simpl app. rewrite contains_cons.
    pose proof (@startswith_app_sep c m F [] b N) as X. simpl app in X.
    rewrite X. destruct m; [contradiction|reflexivity].
  - rewrite <- app_comm_cons, !contains_cons, IH.
    pose proof (@startswith_app_sep c m F (y :: a) b N) as X.
    rewrite <- app_comm_cons in X. rewrite X.
    now rewrite orb_assoc.
Qed.

Lemma contains_tail (m : str) (c : ascii) (s : str) :
  contains m (c :: s) = false -> contains m s = false.
Proof.
  rewrite contains_cons. intros H. now apply orb_false_elim in H.
Qed.

Lemma contains_head (m s : str) :
  contains m s = false -> startswith m s = false.
Proof.
  destruct s; simpl; intros H; now apply orb_false_elim in H.
Qed.

Lemma contains_lstrip (m s : str) :
  contains m s = false -> contains m (lstrip s) = false.
Proof.
  induction s as [|c s IH]; intros H; [exact H|].
  simpl. destruct (isspace c); [|exact H].
  apply IH. now apply contains_tail in H.
Qed.

Lemma find_last_none (m s : str) :
  contains m s = false -> find_last m s = None.
Proof.
  induction s as [|c s IH]; intros H.
  - simpl in *. apply orb_false_elim in H. destruct H as [H _]. now rewrite H.
  - pose proof (@contains_head m _ H) as S. apply contains_tail in H.
    cbn [find_last]. now rewrite (IH H), S.
Qed.

Lemma delete_from_cons (m : str) (c : ascii) (s : str) :
  delete_from m 0 (c :: s) =
  if startswith m (c :: s) then delete_from m (length m - 1) s
  else c :: delete_from m 0 s.
Proof. reflexivity. Qed.

Lemma replace_absent (m s : str) :
  contains m s = false -> replace_with_empty m s = s.
Proof.
  unfold replace_with_empty.
  induction s as [|c s IH]; intros H; [reflexivity|].
  rewrite delete_from_cons, (@contains_head m _ H).
  apply contains_tail in H. now rewrite (IH H).
Qed.

Lemma replace_at_end (c : ascii) (m a : str) :
  free_of c m = true -> m <> [] ->
  replace_with_empty m m = [] ->
  contains m a = false ->
  replace_with_empty m (a ++ c :: m) = a ++ [c].
Proof.
  unfold replace_with_empty. intros F N D.
  induction a as [|y a IH]; intros H.
  - simpl app. rewrite delete_from_cons.
    pose proof (@startswith_app_sep c m F [] m N) as X. simpl app in X.
    rewrite X. destruct m as [|x m]; [contradiction|]. now rewrite D.
  - rewrite <- !app_comm_cons, delete_from_cons.
    pose proof (@startswith_app_sep c m F (y :: a) m N) as X.
    rewrite <- app_comm_cons in X. rewrite X, (@contains_head m _ H).
    apply contains_tail in H. now rewrite (IH H).
Qed.

(** *** Joining the lines of a text again *)

Lemma join_head_cons (sep : str) (d : ascii) (l : str) (ls : list str) :
  join sep ((d :: l) :: ls) = d :: join sep (l :: ls).
Proof. now destruct ls. Qed.

Lemma splitlines_nonempty (c : ascii) (s : str) : splitlines (c :: s) <> [].
Proof. intros H. apply splitlines_nil in H. discriminate. Qed.

Lemma lf_only_break (c : ascii) :
  negb (islinebreak c) || Ascii.eqb c LF = true ->
  islinebreak c = true -> c = LF.
Proof.
  intros H B. rewrite B in H. simpl in H. now apply Ascii.eqb_eq.
Qed.

Lemma splitlines_cons_lf_only (c : ascii) (s : str) :
  negb (islinebreak c) || Ascii.eqb c LF = true ->
  splitlines (c :: s) =
  if islinebreak c then [] :: splitlines s
  else match splitlines s with
       | [] => [[c]]
       | l :: ls => (c :: l) :: ls
       end.
Proof.
  intros H. rewrite splitlines_cons.
  pose proof (lf_only_break c H) as L.
  destruct (islinebreak c); [|reflexivity].
  now rewrite (L eq_refl).
Qed.

Lemma join_splitlines_end (u : str) (c : ascii) :
  lf_only u = true ->
  negb (islinebreak c) || Ascii.eqb c LF = true ->
  join [LF] (splitlines (u ++ [c]))
  = if islinebreak c then u else u ++ [c].
Proof.
  intros U C. induction u as [|d u IH].
  - simpl app. rewrite splitlines_cons_lf_only by exact C.
    now destruct (islinebreak c).
  - simpl in U. apply andb_prop in U. destruct U as [D U].
    specialize (IH U).
    rewrite <- app_comm_cons, splitlines_cons_lf_only by exact D.
    assert (splitlines (u ++ [c]) <> []) as NE.
    { destruct u; apply splitlines_nonempty. }
    destruct (splitlines (u ++ [c])) as [|l ls]; [contradiction|].
    pose proof (lf_only_break d D) as L.
    destruct (islinebreak d).
    + rewrite (L eq_refl). rewrite join_cons, IH.
      now destruct (islinebreak c).
    + rewrite join_head_cons, IH. now destruct (islinebreak c).
Qed.

(** *** The first line of a text *)

Lemma hd_line_cons (c : ascii) (s : str) :
  hd_line (c :: s) = if islinebreak c then [] else c :: hd_line s.
Proof.
  unfold hd_line. rewrite splitlines_cons.
  destruct (islinebreak c).
  - destruct (Ascii.eqb c CR); [|reflexivity].
    destruct s as [|d s]; [reflexivity|]. now destruct (Ascii.eqb d LF).
  - now destruct (splitlines s).
Qed.

Lemma hd_line_snoc_LF (s : str) : hd_line (s ++ [LF]) = hd_line s.
Proof.
  induction s as [|c s IH]; [reflexivity|].
  rewrite <- app_comm_cons, !hd_line_cons, IH. reflexivity.
Qed.

Lemma rstrip_hd_line (s : str) :
  rstrip (hd_line (rstrip s)) = rstrip (hd_line s).
Proof.
  induction s as [|c s IH]; [reflexivity|].
  rewrite rstrip_cons, hd_line_cons.
  destruct (islinebreak c) eqn:B.
  - rewrite (linebreak_is_space c B).
    destruct (is_empty (rstrip s)); [reflexivity|].
    now rewrite hd_line_cons, B.
  - destruct (is_empty (rstrip s)) eqn:E.
    + apply is_empty_true in E. rewrite E in IH.
      rewrite rstrip_cons, <- IH. simpl.
      destruct (isspace c) eqn:W; [reflexivity|].
      rewrite hd_line_cons, B. simpl. now rewrite W.
    + now rewrite hd_line_cons, B, !rstrip_cons, IH.
Qed.

Lemma strip_hd_line_rstrip (s : str) :
  strip (hd_line (rstrip s)) = strip (hd_line s).
Proof.
  unfold strip. now rewrite <- !lstrip_rstrip, rstrip_hd_line.
Qed.

Lemma pop_preambles_none (lines : list str) :
  preamble_match (strip (hd [] lines)) = false -> pop_preambles lines = lines.
Proof.
  destruct lines as [|l rest]; [reflexivity|]. simpl. now intros ->.
Qed.

Lemma lstrip_fixed_head (c : ascii) (s : str) :
  isspace c = false -> lstrip (c :: s) = c :: s.
Proof. intros W. simpl. now rewrite W. Qed.

Lemma strip_fixed (s : str) : lstrip s = s -> ends_clean s -> strip s = s.
Proof.
  intros L E. unfold strip. rewrite L. now apply rstrip_fixed.
Qed.

Lemma lstrip_strip (s : str) : lstrip (strip s) = strip s.
Proof. unfold strip. now rewrite lstrip_rstrip, lstrip_idem. Qed.

Lemma lf_only_lstrip (s : str) : lf_only s = true -> lf_only (lstrip s) = true.
Proof.
  induction s as [|c s IH]; intros H; [reflexivity|].
  simpl. destruct (isspace c); [|exact H].
  simpl in H. apply andb_prop in H. now apply IH.
Qed.

Lemma endswith_snoc (p s : str) (a b : ascii) :
  endswith (p ++ [a]) (s ++ [b]) = Ascii.eqb a b && endswith p s.
Proof.
  unfold endswith. now rewrite !rev_unit.
Qed.

(** *** The extraction stages on a wrapped answer *)

Lemma wrapped_snoc (x : str) :
  wrapped x = (OUT_MARK ++ LF :: x ++ LF :: py "<<<ENDOUT>>") ++ [">"%char].
Proof.
  unfold wrapped. rewrite <- app_assoc. do 2 f_equal.
  now rewrite <- app_comm_cons, <- app_assoc.
Qed.

Lemma wrapped_strip (x : str) : strip (wrapped x) = wrapped x.
Proof.
  apply strip_fixed; [reflexivity|].
  right. eexists _, _. split; [apply wrapped_snoc|reflexivity].
Qed.

Lemma wrapped_fences (x : str) : _strip_code_fences (wrapped x) = wrapped x.
Proof.
  unfold _strip_code_fences.
  change (startswith (py "```") (wrapped x)) with false. cbv iota.
  rewrite wrapped_snoc.
  change (py "```") with (py "``" ++ ["`"%char]).
  now rewrite endswith_snoc.
Qed.

Lemma markers_absent (x : str) :
  existsb (fun marker => contains marker x) markers = false ->
  contains TEXT_MARK x = false /\ contains END_MARK x = false
  /\ contains OUT_MARK x = false /\ contains ENDOUT_MARK x = false.
Proof.
  unfold markers. cbn [existsb]. intros H.
  repeat (apply orb_false_elim in H; destruct H as [? H]). auto.
Qed.

Lemma marker_between (m a b : str) :
  free_of LF m = true -> m <> [] ->
  contains m a = false -> contains m b = false ->
  contains m (a ++ LF :: b) = false.
Proof.
  intros F N A B. now rewrite contains_app_sep, A, B.
Qed.

Lemma wrapped_prefix_lines (x : str) :
  lf_only x = true -> _strip_prefix_lines (wrapped x) = wrapped x.
Proof.
  intros X. unfold _strip_prefix_lines.
  rewrite pop_preambles_none.
  - rewrite wrapped_snoc, join_splitlines_end; [| |reflexivity].
    + cbv iota. rewrite <- wrapped_snoc. apply wrapped_strip.
    + unfold lf_only in *. rewrite forallb_app. cbn [forallb].
      rewrite forallb_app, X. reflexivity.
  - unfold wrapped. now rewrite splitlines_line_LF.
Qed.

Lemma wrapped_echo (x : str) :
  contains TEXT_MARK x = false -> echo_extraction (wrapped x) = wrapped x.
Proof.
  intros T. unfold echo_extraction, wrapped.
  rewrite (@marker_between TEXT_MARK); try reflexivity; try discriminate.
  now apply marker_between.
Qed.

Lemma wrapped_answer (x : str) :
  contains OUT_MARK x = false ->
  answer_extraction (wrapped x) = lstrip (x ++ LF :: ENDOUT_MARK).
Proof.
  intros O. unfold answer_extraction.
  change (contains OUT_MARK (wrapped x)) with true. cbv iota.
  assert (rsplit1 OUT_MARK (wrapped x) = [[]; LF :: x ++ LF :: ENDOUT_MARK])
    as ->.
  { unfold rsplit1.
    change (wrapped x)
      with ("<"%char :: py "<<OUT>>>" ++ LF :: x ++ LF :: ENDOUT_MARK).
    cbn [find_last].
    rewrite find_last_none; [reflexivity|].
    apply marker_between; try reflexivity; try discriminate.
    now apply marker_between. }
  cbn [nth]. unfold strip.
  change (lstrip (LF :: x ++ LF :: ENDOUT_MARK))
    with (lstrip (x ++ LF :: ENDOUT_MARK)).
  assert (ends_clean (lstrip (x ++ LF :: ENDOUT_MARK))) as E.
  { right. rewrite lstrip_app.
    destruct (forallb isspace x).
    - now exists (py "<<<ENDOUT>>"), ">"%char.
    - exists (lstrip x ++ LF :: py "<<<ENDOUT>>"), ">"%char.
      split; [|reflexivity]. now rewrite <- app_assoc. }
  rewrite (rstrip_fixed E).
  destruct E as [E|(body & c & E & _)]; rewrite E; [|now destruct body].
  rewrite lstrip_app in E. destruct (forallb isspace x); [discriminate|].
  now destruct (lstrip x).
Qed.

Lemma scrub_answer (y : str) :
  existsb (fun marker => contains marker y) markers = false ->
  scrub_markers (y ++ LF :: ENDOUT_MARK) = y ++ [LF].
Proof.
  intros M. destruct (markers_absent y M) as (T & E & O & Z).
  unfold scrub_markers, markers. cbn [fold_left].
  rewrite (@replace_absent TEXT_MARK)
    by (apply marker_between; try reflexivity; try discriminate; assumption).
  rewrite (@replace_absent END_MARK)
    by (apply marker_between; try reflexivity; try discriminate; assumption).
  rewrite (@replace_absent OUT_MARK)
    by (apply marker_between; try reflexivity; try discriminate; assumption).
  apply replace_at_end; try reflexivity; try discriminate; assumption.
Qed.

Lemma startswith_app_spaces (m : str) :
  no_space m = true -> m <> [] ->
  forall a w, forallb isspace w = true ->
              startswith m (a ++ w) = startswith m a.
Proof.
  induction m as [|x m IH]; intros S N a w W; [contradiction|].
  simpl in S. apply andb_prop in S. destruct S as [X S].
  apply negb_true_iff in X.
  destruct a as [|y a].
  - destruct w as [|c w]; [reflexivity|]. simpl.
    simpl in W. apply andb_prop in W. destruct W as [C _].
    destruct (Ascii.eqb x c) eqn:E; [|reflexivity].
    apply Ascii.eqb_eq in E. congruence.
  - simpl. destruct m as [|x' m]; [reflexivity|].
    rewrite (IH S); [reflexivity|discriminate|exact W].
Qed.

Lemma startswith_space_head (m : str) (c : ascii) (s : str) :
  no_space m = true -> m <> [] -> isspace c = true ->
  startswith m (c :: s) = false.
Proof.
  intros S N C. destruct m as [|x m]; [contradiction|].
  simpl in S. apply andb_prop in S. destruct S as [X _].
  apply negb_true_iff in X. simpl.
  destruct (Ascii.eqb x c) eqn:E; [|reflexivity].
  apply Ascii.eqb_eq in E. congruence.
Qed.

Lemma contains_spaces (m w : str) :
  no_space m = true -> m <> [] -> forallb isspace w = true ->
  contains m w = false.
Proof.
  intros S N W. induction w as [|c w IH].
  - destruct m; [contradiction|reflexivity].
  - simpl in W. apply andb_prop in W. destruct W as [C W].
    now rewrite contains_cons, startswith_space_head, IH.
Qed.

Lemma contains_app_spaces (m a w : str) :
  no_space m = true -> m <> [] -> forallb isspace w = true ->
  contains m (a ++ w) = contains m a.
Proof.
  intros S N W. induction a as [|y a IH].
  - simpl app. rewrite contains_spaces by assumption.
    destruct m; [contradiction|reflexivity].
  - rewrite <- app_comm_cons, !contains_cons, IH.
    pose proof (@startswith_app_spaces m S N (y :: a) w W) as Q.
    rewrite <- app_comm_cons in Q. now rewrite Q.
Qed.

Lemma contains_lstrip_eq (m s : str) :
  no_space m = true -> m <> [] -> contains m (lstrip s) = contains m s.
Proof.
  intros S N. induction s as [|c s IH]; [reflexivity|].
  simpl lstrip. destruct (isspace c) eqn:C; [|reflexivity].
  now rewrite IH, contains_cons, startswith_space_head.
Qed.

Lemma contains_strip_eq (m s : str) :
  no_space m = true -> m <> [] -> contains m (strip s) = contains m s.
Proof.
  intros S N. unfold strip.
  destruct (rstrip_prefix (lstrip s)) as (w & E & W).
  rewrite <- (contains_lstrip_eq s S N). rewrite E at 2.
  now rewrite contains_app_spaces.
Qed.

Lemma markers_strip (x : str) :
  existsb (fun marker => contains marker (strip x)) markers
  = existsb (fun marker => contains marker x) markers.
Proof.
  unfold markers. cbn [existsb].
  now rewrite !contains_strip_eq by (reflexivity || discriminate).
Qed.

Lemma fences_none (y : str) :
  startswith (py "```") y = false -> endswith (py "```") y = false ->
  _strip_code_fences y = y.
Proof. unfold _strip_code_fences. now intros -> ->. Qed.

(** C2, as amended. For every [x] whose line boundaries are all line feeds
    and whose trimmed form leaves nothing to strip (no marker in it, no
    preamble as its first line, no code fence at its start or at its end),
    the extraction stages applied to the answer-open marker line, [x] and
    the end-of-output marker line return [x] trimmed. *)
Theorem wrapped_answer_extracted (x : str) :
  lf_only x = true ->
  nothing_to_strip (strip x) ->
  _clean_output (wrapped x) = strip x.
Proof.
  intros Hlf (M & P & F1 & F2).
  rewrite markers_strip in M.
  destruct (markers_absent x M) as (T & E & O & Z).
  unfold _clean_output. cbv zeta. rewrite wrapped_strip.
  change (is_empty (wrapped x)) with false. cbv iota.
  rewrite wrapped_fences, wrapped_strip, wrapped_prefix_lines by exact Hlf.
  rewrite wrapped_echo, wrapped_answer by assumption.
  rewrite lstrip_app. pose proof (lstrip_empty_iff x) as W.
  destruct (forallb isspace x).
  - apply is_empty_true in W.
    transitivity (@nil ascii); [reflexivity|]. unfold strip. now rewrite W.
  - rewrite scrub_answer.
    + assert (_strip_prefix_lines (lstrip x ++ [LF]) = strip x) as ->.
      { unfold _strip_prefix_lines. rewrite pop_preambles_none.
        - rewrite join_splitlines_end;
            [|now apply lf_only_lstrip|reflexivity].
          change (islinebreak LF) with true. cbv iota.
          unfold strip. now rewrite lstrip_idem.
        - fold (hd_line (lstrip x ++ [LF])).
          rewrite hd_line_snoc_LF, <- strip_hd_line_rstrip. exact P. }
      rewrite fences_none by assumption. apply strip_idem.
    + rewrite <- M. unfold markers. cbn [existsb].
      now rewrite !contains_lstrip_eq by (reflexivity || discriminate).
Qed.

Lemma wrapped_answer_extracted_witness :
  lf_only (py "  Hello, world. ") = true
  /\ nothing_to_strip (strip (py "  Hello, world. "))
  /\ _clean_output (wrapped (py "  Hello, world. ")) = py "Hello, world.".
Proof.
  assert (H : nothing_to_strip (strip (py "  Hello, world. ")))
    by (repeat split; reflexivity).
  split; [reflexivity|]. split; [exact H|].
  apply (@wrapped_answer_extracted (py "  Hello, world. ") eq_refl H).
Defined.

(** C2 as stated fails: a marker inside the answer is deleted, a carriage
    return inside it becomes a line feed, a preamble line at its start and
    a code fence at its start or end are taken away. *)
Lemma wrapped_answer_not_always_returned :
  _clean_output (wrapped (py "see <<<END>>> here"))
    <> strip (py "see <<<END>>> here")
  /\ _clean_output (wrapped (py "a" ++ CR :: py "b"))
       <> strip (py "a" ++ CR :: py "b")
  /\ _clean_output (wrapped (py "Corrected text is as follows:" ++ LF :: py "foo"))
       <> strip (py "Corrected text is as follows:" ++ LF :: py "foo")
  /\ _clean_output (wrapped (py "```" ++ LF :: py "foo"))
       <> strip (py "```" ++ LF :: py "foo")
  /\ _clean_output (wrapped (py "foo" ++ LF :: py "```"))
       <> strip (py "foo" ++ LF :: py "```").
Proof. repeat split; vm_compute; discriminate. Qed.

(** *** The normalizer on its own output *)

Lemma lstrip_length (s : str) : length (lstrip s) <= length s.
Proof.
  induction s as [|c s IH]; [reflexivity|].
  simpl. destruct (isspace c); simpl; lia.
Qed.

Lemma lstrip_fixed_inv (t : str) :
  lstrip t = t -> t = [] \/ exists c t', t = c :: t' /\ isspace c = false.
Proof.
  destruct t as [|c t]; [now left|]. intros H. right. exists c, t.
  split; [reflexivity|]. simpl in H.
  destruct (isspace c); [|reflexivity].
  pose proof (lstrip_length t) as L. rewrite H in L. simpl in L. lia.
Qed.

Lemma spacing_pass_lstrip (g : str -> str -> bool) (t : str) :
  lstrip t = t -> lstrip (spacing_pass g t) = spacing_pass g t.
Proof.
  intros H. destruct (@lstrip_fixed_inv t H) as [->|(c & t' & -> & W)];
    [reflexivity|].
  assert (exists l ls, splitlines (c :: t') = (c :: l) :: ls) as (l & ls & E).
  { rewrite splitlines_cons.
    destruct (islinebreak c) eqn:B;
      [apply linebreak_is_space in B; congruence|].
    destruct (splitlines t') as [|l ls]; eauto. }
  rewrite spacing_pass_join, E, insert_gaps_cons. cbn [trim_lines].
  assert (blank (c :: l) = false) as ->
      by (rewrite blank_all_space; simpl; now rewrite W).
  assert (exists r, rstrip (c :: l) = c :: r) as (r & ->).
  { rewrite rstrip_cons. rewrite W. destruct (is_empty (rstrip l)); eauto. }
  destruct (trim_lines _) as [|h rest].
  - now apply lstrip_fixed_head.
  - rewrite join_head_cons. now apply lstrip_fixed_head.
Qed.

Lemma clean_output_lstrip (s : str) :
  lstrip (_clean_output s) = _clean_output s.
Proof.
  unfold _clean_output. cbv zeta.
  destruct (is_empty (strip s)); [reflexivity|apply lstrip_strip].
Qed.

Lemma scrub_absent (r : str) :
  existsb (fun marker => contains marker r) markers = false ->
  scrub_markers r = r.
Proof.
  intros M. destruct (@markers_absent r M) as (T & E & O & Z).
  unfold scrub_markers, markers. cbn [fold_left].
  now rewrite (@replace_absent TEXT_MARK r T), (@replace_absent END_MARK r E),
    (@replace_absent OUT_MARK r O), (@replace_absent ENDOUT_MARK r Z).
Qed.

Lemma echo_absent (r : str) :
  contains TEXT_MARK r = false -> echo_extraction r = r.
Proof. unfold echo_extraction. now intros ->. Qed.

Lemma answer_absent (r : str) :
  contains OUT_MARK r = false -> answer_extraction r = r.
Proof. unfold answer_extraction. now intros ->. Qed.

Lemma strip_prefix_lines_fixed (lines : list str) :
  forallb no_break lines = true ->
  trim_lines lines = lines ->
  lstrip (join [LF] lines) = join [LF] lines ->
  preamble_match (strip (hd_line (join [LF] lines))) = false ->
  _strip_prefix_lines (join [LF] lines) = join [LF] lines.
Proof.
  intros N T L P. unfold _strip_prefix_lines.
  rewrite pop_preambles_none by exact P.
  assert (splitlines (join [LF] lines) = lines) as ->.
  { destruct (trim_lines_last lines) as [X|X]; rewrite T in X.
    - now subst.
    - now apply splitlines_join. }
  apply strip_fixed; [exact L|].
  rewrite <- T, <- rstrip_join. apply rstrip_ends_clean.
Qed.

Lemma clean_output_fixed (lines : list str) :
  forallb no_break lines = true ->
  trim_lines lines = lines ->
  lstrip (join [LF] lines) = join [LF] lines ->
  nothing_to_strip (join [LF] lines) ->
  _clean_output (join [LF] lines) = join [LF] lines.
Proof.
  intros N T L (M & P & F1 & F2).
  pose proof (@strip_prefix_lines_fixed lines N T L P) as Q.
  set (r := join [LF] lines) in *.
  assert (strip r = r) as S.
  { apply strip_fixed; [exact L|]. subst r.
    rewrite <- T, <- rstrip_join. apply rstrip_ends_clean. }
  destruct (@markers_absent r M) as (Tm & Em & Om & Zm).
  unfold _clean_output. cbv zeta. rewrite S.
  destruct (is_empty r) eqn:E; [symmetry; now apply is_empty_true|].
  rewrite (@fences_none r F1 F2), S, Q.
  rewrite (@echo_absent r Tm), (@answer_absent r Om).
  rewrite (@scrub_absent r M), Q, (@fences_none r F1 F2). exact S.
Qed.

(** What the two spacing passes leave behind: lines without boundaries,
    none blank at the end and the last right-stripped, with no neighbours
    that either pass would separate, joined by line feeds. *)
Lemma normalize_shape (s : str) :
  normalize s = []
  \/ exists lines,
       normalize s = join [LF] lines
       /\ forallb no_break lines = true
       /\ trim_lines lines = lines
       /\ settled table_gap lines = true
       /\ settled option_gap lines = true
       /\ lstrip (join [LF] lines) = join [LF] lines.
Proof.
  unfold normalize. cbv zeta.
  destruct (is_empty (_clean_output s)); [now left|]. right.
  rewrite add_option_spacing_pass, add_table_spacing_pass.
  set (c := _clean_output s).
  set (t := splitlines (spacing_pass table_gap c)).
  exists (trim_lines (insert_gaps option_gap t)).
  assert (forallb no_break t = true) as Nt by apply splitlines_no_break.
  assert (settled table_gap t = true) as St.
  { subst t. rewrite spacing_pass_lines.
    apply settled_trim; [apply table_gap_rstrip|].
    apply insert_gaps_settles; apply table_gap_empty. }
  split; [apply spacing_pass_join|].
  split; [now apply no_break_trim, insert_gaps_no_break|].
  split; [apply trim_lines_idem|].
  split.
  { apply settled_trim; [apply table_gap_rstrip|].
    apply settled_insert_other; [apply table_gap_empty..|exact St]. }
  split.
  { apply settled_trim; [apply option_gap_rstrip|].
    apply insert_gaps_settles; apply option_gap_empty. }
  subst t. rewrite <- spacing_pass_join.
  apply spacing_pass_lstrip, spacing_pass_lstrip, clean_output_lstrip.
Qed.

(** C1, as amended. Whenever the normalized text of [s] leaves nothing to
    strip (no marker in it, no preamble as its first line, no code fence at
    its start or at its end), normalizing it again returns it unchanged. *)
Theorem normalize_idempotent_when_clean (s : str) :
  nothing_to_strip (normalize s) ->
  normalize (normalize s) = normalize s.
Proof.
  intros H.
  destruct (normalize_shape s) as [->|(lines & E & N & T & St & So & L)];
    [reflexivity|].
  rewrite E in *. unfold normalize at 1. cbv zeta.
  rewrite (@clean_output_fixed lines N T L H).
  destruct (is_empty (join [LF] lines)) eqn:Z;
    [symmetry; now apply is_empty_true|].
  rewrite add_table_spacing_pass, (@spacing_pass_fixed table_gap lines N T St).
  now rewrite add_option_spacing_pass, (@spacing_pass_fixed option_gap lines N T So).
Qed.

Lemma normalize_idempotent_when_clean_witness :
  let s := wrapped (py "Question:" ++ LF :: py "A. foo" ++ LF
                       :: py "|a|b|" ++ LF :: py "done") in
  nothing_to_strip (normalize s) /\ normalize (normalize s) = normalize s.
Proof.
  intros s.
  assert (H : nothing_to_strip (normalize s)) by (repeat split; reflexivity).
  split; [exact H|].
  apply (@normalize_idempotent_when_clean s H).
Defined.

(** C1 as stated fails.  Of three code fence lines before a text the
    pipeline removes two, one in each of its two fence strips, and the third
    only when it is run again; likewise at the end of a text.  A preamble
    line behind two fence lines comes to the front only after the last
    preamble strip, and deleting one marker can put another together. *)
Lemma normalize_not_idempotent :
  let s1 := py "```" ++ LF :: py "```" ++ LF :: py "```" ++ LF :: py "x" in
  let s2 := py "x" ++ LF :: py "```" ++ LF :: py "```" ++ LF :: py "```" in
  let s3 := py "```" ++ LF :: py "```" ++ LF
            :: py "Corrected text is as follows:" ++ LF :: py "x" in
  let s4 := py "<<<E<<<END>>>ND>>>" in
  (normalize s1 = py "```" ++ LF :: py "x"
   /\ normalize (normalize s1) = py "x"
   /\ normalize (normalize s1) <> normalize s1)
  /\ normalize (normalize s2) <> normalize s2
  /\ normalize (normalize s3) <> normalize s3
  /\ normalize (normalize s4) <> normalize s4.
Proof. repeat split; vm_compute; discriminate. Qed.

(** *** Protocol handler *)

Lemma escape_char_no_break (c : ascii) : no_break (escape_char c) = true.
Proof. destruct c as [[] [] [] [] [] [] [] []]; reflexivity. Qed.

Lemma no_break_app (a b : str) :
  no_break (a ++ b) = no_break a && no_break b.
Proof. apply forallb_app. Qed.

Lemma dumps_text_no_break (text : str) : no_break (dumps_text text) = true.
Proof.
  assert (dumps_text text
          = (py "{" ++ DQ :: py "text" ++ DQ :: py ": " ++ [DQ])
            ++ flat_map escape_char text ++ [DQ; "}"%char]) as -> by reflexivity.
  rewrite !no_break_app.
  assert (no_break (flat_map escape_char text) = true) as ->.
  { induction text as [|c text IH]; [reflexivity|].
    cbn [flat_map]. now rewrite no_break_app, IH, escape_char_no_break. }
  reflexivity.
Qed.

Lemma stdout_lines_app (a b : list event) :
  stdout_lines (a ++ b) = stdout_lines a ++ stdout_lines b.
Proof.
  induction a as [|[d|d|q m] a IH]; simpl; now rewrite ?IH.
Qed.

Section LoopFacts.

Variable llm_state : Type.
Variable llm : llm_state -> str -> Z -> llm_state * outcome str.
Variable json_loads : str -> outcome json.
Variable format_value : json -> str.
Variable n_ctx : Z.
Variable traceback : str -> str.

Local Abbreviation handle_request := (handle_request llm json_loads format_value n_ctx).
Local Abbreviation serve_line := (serve_line llm json_loads format_value n_ctx).
Local Abbreviation serve := (serve llm json_loads format_value n_ctx).
Local Abbreviation _process_one := (_process_one llm format_value n_ctx).

Lemma process_one_silent (text : json) (st : llm_state) :
  stdout_lines (events_of (_process_one text st)) = [].
Proof.
  unfold Protocol._process_one, bind, lift, call_llm, ret, events_of.
  destruct (len text) as [n|e]; simpl; [|reflexivity].
  destruct (llm st _ _) as [st' [output|e]]; reflexivity.
Qed.

(** The body of the [try] writes its one response last: none if it raises. *)
Lemma handle_request_writes (line : str) (st : llm_state) :
  match outcome_of (handle_request line st) with
  | Ok _ => length (stdout_lines (events_of (handle_request line st))) = 1
  | Raise _ => stdout_lines (events_of (handle_request line st)) = []
  end.
Proof.
  unfold Protocol.handle_request, bind, lift, outcome_of, events_of.
  destruct (json_loads line) as [payload|e]; [|reflexivity].
  destruct (get payload _ _) as [text|e]; [|reflexivity].
  destruct (truthy text); cbn [negb]; [|reflexivity].
  pose proof (process_one_silent text st) as Q. unfold events_of in Q.
  destruct (_process_one text st) as [[ev st'] [output|e]]; cbn [fst snd] in *.
  - unfold write_line, emit. cbn [fst snd app]. now rewrite stdout_lines_app, Q.
  - exact Q.
Qed.

Lemma serve_line_response (line : str) (st : llm_state) :
  outcome_of (serve_line line st) = Ok tt
  /\ length (stdout_lines (events_of (serve_line line st)))
     = (if blank line then 0 else 1)
  /\ match outcome_of (handle_request (strip line) st) with
     | Raise _ =>
         blank line = true
         \/ stdout_lines (events_of (serve_line line st)) = [empty_response]
     | Ok _ => True
     end.
Proof.
  unfold Protocol.serve_line, blank.
  destruct (is_empty (strip line)) eqn:B.
  { simpl. destruct (outcome_of _); auto. }
  pose proof (handle_request_writes (strip line) st) as W.
  unfold try_except, outcome_of, events_of in *.
  destruct (handle_request (strip line) st) as [[ev st'] [[]|e]]; simpl in *.
  - auto.
  - rewrite stdout_lines_app, W. simpl. auto.
Qed.

Lemma serve_cons (line : str) (rest : list (outcome str)) (st : llm_state) :
  events_of (serve (Ok line :: rest) st)
  = events_of (serve_line line st)
    ++ events_of (serve rest (state_of (serve_line line st)))
  /\ state_of (serve (Ok line :: rest) st)
     = state_of (serve rest (state_of (serve_line line st)))
  /\ outcome_of (serve (Ok line :: rest) st)
     = outcome_of (serve rest (state_of (serve_line line st))).
Proof.
  pose proof (serve_line_response line st) as [R _].
  simpl. unfold bind, events_of, state_of, outcome_of in *.
  destruct (serve_line line st) as [[ev st'] r]. simpl in *. subst r.
  now destruct (serve rest st') as [[ev' st''] r'].
Qed.

Lemma serve_app (before : list str) (after : list (outcome str)) :
  forall st,
    events_of (serve (map Ok before ++ after) st)
    = events_of (serve (map Ok before) st)
      ++ events_of (serve after (state_of (serve (map Ok before) st)))
    /\ state_of (serve (map Ok before ++ after) st)
       = state_of (serve after (state_of (serve (map Ok before) st))).
Proof.
  induction before as [|line rest IH]; intros st.
  - simpl. auto.
  - cbn [map]. rewrite <- app_comm_cons.
    destruct (serve_cons line (map Ok rest ++ after) st) as (E1 & S1 & _).
    destruct (serve_cons line (map Ok rest) st) as (E2 & S2 & _).
    destruct (IH (state_of (serve_line line st))) as (E3 & S3).
    rewrite E1, S1, E2, S2, E3, S3. now rewrite app_assoc.
Qed.

Lemma serve_total (stdin : list (outcome str)) :
  forall st,
    outcome_of (serve stdin st)
    = match read_failure stdin with
      | None => Ok tt
      | Some exc => Raise exc
      end
    /\ length (stdout_lines (events_of (serve stdin st)))
       = length (filter (fun line => negb (blank line)) (lines_read stdin)).
Proof.
  induction stdin as [|[line|exc] rest IH]; intros st.
  - simpl. auto.
  - destruct (serve_cons line rest st) as (E & _ & O).
    destruct (serve_line_response line st) as (_ & L & _).
    destruct (IH (state_of (serve_line line st))) as (O' & L').
    rewrite O, E, stdout_lines_app, length_app, L, L'. split; [exact O'|].
    simpl. now destruct (blank line).
  - simpl. auto.
Qed.

Lemma lines_read_all (lines : list str) :
  lines_read (map Ok lines) = lines /\ read_failure (map Ok lines) = None.
Proof.
  induction lines as [|line rest [L F]]; [now split|].
  simpl. now rewrite L, F.
Qed.

Lemma handle_request_response (line : str) (st : llm_state) :
  match outcome_of (handle_request line st) with
  | Ok _ => exists text,
      stdout_lines (events_of (handle_request line st))
      = [dumps_text text ++ [LF]]
  | Raise _ => True
  end.
Proof.
  unfold Protocol.handle_request, bind, lift, outcome_of, events_of.
  destruct (json_loads line) as [payload|e]; [|exact I].
  destruct (get payload _ _) as [text|e]; [|exact I].
  destruct (truthy text); cbn [negb]; [|now exists []].
  pose proof (process_one_silent text st) as Q. unfold events_of in Q.
  destruct (_process_one text st) as [[ev st'] [output|e]];
    cbn [fst snd] in *; [|exact I].
  exists output. unfold write_line, emit. cbn [fst snd app].
  now rewrite stdout_lines_app, Q.
Qed.

Lemma serve_line_is_response (line : str) (st : llm_state) :
  Forall is_response (stdout_lines (events_of (serve_line line st))).
Proof.
  unfold Protocol.serve_line.
  destruct (is_empty (strip line)); [constructor|].
  pose proof (handle_request_response (strip line) st) as R.
  pose proof (handle_request_writes (strip line) st) as W.
  unfold try_except, outcome_of, events_of in *.
  destruct (handle_request (strip line) st) as [[ev st'] [[]|e]];
    cbn [fst snd] in *.
  - destruct R as (text & ->). repeat constructor. now exists text.
  - cbn [bind log write_line emit fst snd app].
    rewrite stdout_lines_app, W. repeat constructor. now exists [].
Qed.

Lemma serve_is_response (stdin : list (outcome str)) :
  forall st, Forall is_response (stdout_lines (events_of (serve stdin st))).
Proof.
  induction stdin as [|[line|exc] rest IH]; intros st;
    [constructor| |constructor].
  destruct (serve_cons line rest st) as (E & _ & _).
  rewrite E, stdout_lines_app. apply Forall_app.
  split; [apply serve_line_is_response|apply IH].
Qed.

(** C6, as amended.  The loop never stops on a request.  Of the lines that
    standard input delivers it answers every one that is not blank with
    exactly one response line (one JSON text followed by a line feed, which
    is one line) and every blank line with none, so when every line is read
    the responses are as many as the non-blank lines, they come in the order
    of the lines (the responses to the lines before a given line, then its
    own, then those to what follows it), the loop reaches the end of the
    input and the exit code is 0; a request whose processing raises, be it
    the JSON decoding, the prompt building, the generation or the
    normalization, is answered with the empty text, and the loop goes on to
    the next line.  A read of standard input that raises is no request: it
    ends the loop with its exception, after the responses to the lines read
    before it, and the exit code is 1. *)
Theorem serve_answers_every_line :
  (forall lines st,
      outcome_of (serve (map Ok lines) st) = Ok tt
      /\ length (stdout_lines (events_of (serve (map Ok lines) st)))
         = length (filter (fun line => negb (blank line)) lines)
      /\ snd (main llm json_loads format_value traceback (Ok (st, n_ctx))
                (map Ok lines)) = 0%Z)
  /\ (forall before line after st,
         let st1 := state_of (serve (map Ok before) st) in
         let st2 := state_of (serve_line line st1) in
         stdout_lines
           (events_of (serve (map Ok before ++ Ok line :: after) st))
         = stdout_lines (events_of (serve (map Ok before) st))
           ++ stdout_lines (events_of (serve_line line st1))
           ++ stdout_lines (events_of (serve after st2))
         /\ length (stdout_lines (events_of (serve_line line st1)))
            = (if blank line then 0 else 1)
         /\ match outcome_of (handle_request (strip line) st1) with
            | Raise _ =>
                blank line = true
                \/ stdout_lines (events_of (serve_line line st1))
                   = [empty_response]
            | Ok _ => True
            end)
  /\ (forall stdin st,
         Forall is_response (stdout_lines (events_of (serve stdin st))))
  /\ (forall text, splitlines (dumps_text text ++ [LF]) = [dumps_text text])
  /\ (forall stdin st,
         outcome_of (serve stdin st)
         = match read_failure stdin with
           | None => Ok tt
           | Some exc => Raise exc
           end
         /\ length (stdout_lines (events_of (serve stdin st)))
            = length (filter (fun line => negb (blank line))
                        (lines_read stdin))
         /\ snd (main llm json_loads format_value traceback (Ok (st, n_ctx))
                   stdin)
            = match read_failure stdin with
              | None => 0%Z
              | Some _ => 1%Z
              end).
Proof.
  assert (forall stdin st,
             snd (main llm json_loads format_value traceback (Ok (st, n_ctx))
                    stdin)
             = match read_failure stdin with
               | None => 0%Z
               | Some _ => 1%Z
               end) as exit_code.
  { intros stdin st. unfold main.
    destruct (serve_total stdin st) as (T & _). unfold outcome_of in T.
    destruct (serve stdin st) as [[ev st'] r]. cbn [snd] in T. subst r.
    now destruct (read_failure stdin). }
  split.
  { intros lines st.
    destruct (serve_total (map Ok lines) st) as (T & L).
    destruct (lines_read_all lines) as (R & F).
    rewrite exit_code, T, L, R, F. auto. }
  split; [|split; [intros; apply serve_is_response|];
           split; [intros; apply splitlines_line_LF, dumps_text_no_break|]].
  - intros before line after st st1 st2.
    destruct (serve_app before (Ok line :: after) st) as (E & _).
    destruct (serve_cons line after st1) as (E' & _ & _).
    destruct (serve_line_response line st1) as (_ & L & R).
    fold st1 in E. rewrite E, E', !stdout_lines_app. auto.
  - intros stdin st. destruct (serve_total stdin st) as (T & L). auto.
Qed.

(** C7. A request whose text field is the empty string is answered at once
    with the empty text: the model is not called and its state is as
    before. *)
Theorem empty_text_skips_generation (line : str) (st : llm_state)
  (members : list (str * json)) :
  blank line = false ->
  json_loads (strip line) = Ok (JObj members) ->
  lookup (py "text") members = Some (JStr []) ->
  serve_line line st = ([Stdout empty_response], st, Ok tt)
  /\ existsb is_generate (events_of (serve_line line st)) = false.
Proof.
  intros B J T.
  assert (serve_line line st = ([Stdout empty_response], st, Ok tt)) as E.
  { unfold Protocol.serve_line. unfold blank in B. rewrite B.
    unfold try_except, Protocol.handle_request, bind, lift, get.
    rewrite J, T. reflexivity. }
  split; [exact E|now rewrite E].
Qed.

End LoopFacts.

Lemma empty_text_skips_generation_witness :
  let llm := fun (st : nat) (_ : str) (_ : Z) => (S st, Ok (py "unused")) in
  let json_loads := fun _ : str => Ok (JObj [(py "text", JStr [])]) in
  let format_value := fun _ : json => @nil ascii in
  let line := py "{" ++ DQ :: py "text" ++ DQ :: py ": " ++ DQ :: DQ :: py "}" ++ [LF] in
  serve_line llm json_loads format_value 4096 line 0
  = ([Stdout empty_response], 0, Ok tt)
  /\ existsb is_generate
       (events_of (serve_line llm json_loads format_value 4096 line 0)) = false.
Proof.
  intros llm json_loads format_value line.
  apply (@empty_text_skips_generation nat llm json_loads format_value 4096
           line 0 [(py "text", JStr [])]); reflexivity.
Defined.

(** C6, as first stated, fails where a line cannot be read: of three lines
    sent, the second of which cannot be decoded, the first is answered, the
    read of the second raises outside the request boundary, and the third,
    a request like the first, never gets its response; the process ends with
    exit code 1. *)
Lemma unreadable_line_ends_loop :
  let llm := fun (st : nat) (_ : str) (_ : Z) => (S st, Ok (py "unused")) in
  let json_loads := fun _ : str => Ok (JObj [(py "text", JStr [])]) in
  let format_value := fun _ : json => @nil ascii in
  let traceback := fun exc : str => py "UnicodeDecodeError: " ++ exc ++ [LF] in
  let request :=
    py "{" ++ DQ :: py "text" ++ DQ :: py ": " ++ DQ :: DQ :: py "}" ++ [LF] in
  let stdin :=
    [Ok request; Raise (py "'utf-8' codec can't decode byte 0xff");
     Ok request] in
  let run := serve llm json_loads format_value 4096 stdin 0 in
  length (filter (fun line => negb (blank line)) (readable stdin)) = 2
  /\ stdout_lines (events_of run) = [empty_response]
  /\ outcome_of run = Raise (py "'utf-8' codec can't decode byte 0xff")
  /\ snd (main llm json_loads format_value traceback (Ok (0, 4096%Z)) stdin)
     = 1%Z
  /\ ~ (forall stdin st,
           outcome_of (serve llm json_loads format_value 4096 stdin st) = Ok tt
           /\ length (stdout_lines
                        (events_of
                           (serve llm json_loads format_value 4096 stdin st)))
              = length (filter (fun line => negb (blank line))
                          (readable stdin))).
Proof.
  intros llm json_loads format_value traceback request stdin run.
  repeat split; try reflexivity.
  intros H. destruct (H stdin 0) as [O _]. discriminate O.
Qed.

(** ** Part II, continued. Further properties of the code *)

(** *** The spacing passes *)

Lemma settled_adjacent (g : str -> str -> bool) (before : list str) :
  forall a b after,
    settled g (before ++ a :: b :: after) = true -> g a b = false.
Proof.
  induction before as [|p before IH]; intros a b after S.
  - cbn [app settled] in S. apply andb_prop in S. destruct S as [G _].
    now apply negb_true_iff in G.
  - rewrite <- app_comm_cons in S. cbn [settled] in S.
    apply andb_prop in S. destruct S as [_ S]. now apply (IH a b after).
Qed.

Lemma spacing_pass_settled (g : str -> str -> bool) (text : str) :
  (forall a, g a [] = false) ->
  (forall b, g [] b = false) ->
  (forall a b, g a (rstrip b) = true -> g a b = true) ->
  settled g (splitlines (spacing_pass g text)) = true.
Proof.
  intros R L P. rewrite spacing_pass_lines.
  apply settled_trim; [exact P|]. now apply insert_gaps_settles.
Qed.

Lemma gapped_insert_gaps (g : str -> str -> bool) (lines : list str) :
  gapped lines (insert_gaps g lines).
Proof.
  induction lines as [|a rest IH]; [constructor|].
  rewrite insert_gaps_cons. constructor.
  destruct (gap_before g a rest); cbn [gap app]; [now constructor|exact IH].
Qed.

(** X1. Table spacing is idempotent: applied to its own result, on the
    lines or on the text, it adds nothing more. *)
Theorem table_spacing_idempotent :
  (forall lines,
      table_loop (table_loop lines []) [] = table_loop lines [])
  /\ (forall text,
         _add_table_spacing (_add_table_spacing text)
         = _add_table_spacing text).
Proof.
  split.
  - intros lines. rewrite !table_loop_gaps.
    apply insert_gaps_settled, insert_gaps_settles; apply table_gap_empty.
  - intros text. rewrite !add_table_spacing_pass.
    apply spacing_pass_idem;
      [apply table_gap_empty|apply table_gap_empty|apply table_gap_rstrip].
Qed.

(** X2. In the text that table spacing returns, a table line and a line
    that is not one are never neighbours unless that other line is blank:
    every table block stands apart from the text around it. *)
Theorem table_blocks_stand_apart (text : str) (before : list str)
  (a b : str) (after : list str) :
  splitlines (_add_table_spacing text) = before ++ a :: b :: after ->
  is_table_line a = negb (is_table_line b) ->
  blank a = true \/ blank b = true.
Proof.
  intros E T.
  pose proof (@spacing_pass_settled table_gap text
                (fun a => proj1 (table_gap_empty a))
                (fun b => proj2 (table_gap_empty b)) table_gap_rstrip) as S.
  rewrite <- add_table_spacing_pass, E in S.
  apply settled_adjacent in S. unfold table_gap in S. rewrite T in S.
  destruct (is_table_line b), (blank a), (blank b); auto; discriminate.
Qed.

Lemma table_blocks_stand_apart_witness :
  blank [] = true \/ blank (py "|a|b|") = true.
Proof.
  apply (@table_blocks_stand_apart
           (join [LF] [py "intro"; py "|a|b|"; py "outro"])
           [py "intro"] [] (py "|a|b|") [[]; py "outro"]); reflexivity.
Defined.

(** X3. The spacing passes only add empty lines.  What each loop returns
    is its input lines, every one of them as it is and in their order, with
    empty lines put in and nothing else; and the text each pass returns is
    such a list of lines over the lines of its input, joined by line feeds
    and right-stripped. *)
Theorem spacing_only_adds_empty_lines :
  (forall lines,
      gapped lines (table_loop lines []) /\ gapped lines (option_loop lines))
  /\ (forall text,
         exists result,
           gapped (splitlines text) result
           /\ _add_table_spacing text = rstrip (join [LF] result))
  /\ (forall text,
         exists result,
           gapped (splitlines text) result
           /\ _add_option_spacing text = rstrip (join [LF] result)).
Proof.
  assert (forall lines,
             gapped lines (table_loop lines [])
             /\ gapped lines (option_loop lines)) as L.
  { intros lines. rewrite table_loop_gaps, option_loop_gaps.
    split; apply gapped_insert_gaps. }
  split; [exact L|].
  split; intros text.
  - unfold _add_table_spacing. cbv zeta.
    destruct (splitlines text) as [|l ls] eqn:E.
    + apply splitlines_nil in E. subst text. exists []. split; [constructor|reflexivity].
    + exists (table_loop (l :: ls) []). split; [apply L|reflexivity].
  - unfold _add_option_spacing. cbv zeta.
    destruct (splitlines text) as [|l ls] eqn:E.
    + apply splitlines_nil in E. subst text. exists []. split; [constructor|reflexivity].
    + exists (option_loop (l :: ls)). split; [apply L|reflexivity].
Qed.

(** X4. In the text that option spacing returns, the line before an option
    line is blank or is an option line itself. *)
Theorem option_lines_follow_blank (text : str) (before : list str)
  (a b : str) (after : list str) :
  splitlines (_add_option_spacing text) = before ++ a :: b :: after ->
  option_pattern b = true ->
  blank a = true \/ option_pattern a = true.
Proof.
  intros E O.
  pose proof (@spacing_pass_settled option_gap text
                (fun a => proj1 (option_gap_empty a))
                (fun b => proj2 (option_gap_empty b)) option_gap_rstrip) as S.
  rewrite <- add_option_spacing_pass, E in S.
  apply settled_adjacent in S. unfold option_gap in S. rewrite O in S.
  destruct (option_pattern a), (blank a); auto; discriminate.
Qed.

Lemma option_lines_follow_blank_witness :
  blank [] = true \/ option_pattern [] = true.
Proof.
  apply (@option_lines_follow_blank
           (join [LF] [py "Question:"; py "A. foo"; py "B. bar"])
           [py "Question:"] [] (py "A. foo") [py "B. bar"]); reflexivity.
Defined.

(** *** The extraction stages *)

Lemma no_break_lf_only (l : str) : no_break l = true -> lf_only l = true.
Proof.
  unfold no_break, lf_only. induction l as [|c l IH]; [reflexivity|].
  cbn [forallb]. intros H. apply andb_prop in H. destruct H as [C H].
  now rewrite C, (IH H).
Qed.

Lemma lf_only_join (lines : list str) :
  forallb no_break lines = true -> lf_only (join [LF] lines) = true.
Proof.
  induction lines as [|l rest IH]; [reflexivity|].
  cbn [forallb]. intros H. apply andb_prop in H. destruct H as [Nl N].
  destruct rest as [|m rest]; [now apply no_break_lf_only|].
  rewrite join_cons. unfold lf_only in *.
  rewrite !forallb_app. fold (lf_only l).
  now rewrite (no_break_lf_only l Nl), (IH N).
Qed.

(** X5. What the extraction stages return, and what the whole normalizer
    returns, has no whitespace at either end; the normalized text has the
    line feed as its only line boundary, so that splitting it into lines and
    joining them gives it back. *)
Theorem outputs_are_trimmed (s : str) :
  strip (_clean_output s) = _clean_output s
  /\ strip (normalize s) = normalize s
  /\ lf_only (normalize s) = true
  /\ join [LF] (splitlines (normalize s)) = normalize s.
Proof.
  split.
  { unfold _clean_output. cbv zeta.
    destruct (is_empty (strip s)); [reflexivity|apply strip_idem]. }
  destruct (normalize_shape s) as [->|(lines & -> & N & T & _ & _ & L)];
    [repeat split; reflexivity|].
  split; [|split].
  - apply strip_fixed; [exact L|].
    rewrite <- T, <- rstrip_join. apply rstrip_ends_clean.
  - now apply lf_only_join.
  - f_equal. destruct (trim_lines_last lines) as [X|X]; rewrite T in X.
    + now subst.
    + now apply splitlines_join.
Qed.

Lemma after_first_LF_app (info rest : str) :
  free_of LF info = true -> after_first_LF (info ++ LF :: rest) = Some rest.
Proof.
  unfold free_of. induction info as [|c info IH]; [reflexivity|].
  cbn [forallb]. intros H. apply andb_prop in H. destruct H as [C H].
  apply negb_true_iff in C. simpl. now rewrite C, (IH H).
Qed.

Lemma startswith_self_app (m x : str) : startswith m (m ++ x) = true.
Proof.
  induction m as [|c m IH]; [reflexivity|].
  simpl. now rewrite Ascii.eqb_refl.
Qed.

Lemma endswith_app (p a : str) : endswith p (a ++ p) = true.
Proof.
  unfold endswith. rewrite rev_app_distr. apply startswith_self_app.
Qed.

Lemma firstn_length_app (a b : str) : firstn (length a) (a ++ b) = a.
Proof.
  induction a as [|c a IH]; [reflexivity|]. simpl. now rewrite IH.
Qed.

(** X6. Fence stripping unwraps a fenced code block: from an opening fence
    with any info string on its line, a body and a closing fence on its own
    line, exactly the body is left, whatever the body holds. *)
Theorem strip_code_fences_unwraps (info body : str) :
  free_of LF info = true ->
  _strip_code_fences (fenced info body) = body.
Proof.
  intros F. unfold _strip_code_fences, fenced. cbv zeta.
  set (rest := info ++ LF :: body ++ LF :: py "```").
  change (startswith (py "```") (py "```" ++ rest)) with true. cbv iota.
  unfold sub_opening_fence.
  change (startswith (py "```") (py "```" ++ rest)) with true. cbv iota.
  change (skipn 3 (py "```" ++ rest)) with rest.
  subst rest. rewrite (after_first_LF_app info _ F).
  replace (body ++ LF :: py "```") with ((body ++ [LF]) ++ py "```")
    by (now rewrite <- app_assoc).
  rewrite endswith_app. rewrite <- app_assoc. cbn [app].
  unfold sub_closing_fence. rewrite (endswith_app (LF :: py "```") body).
  rewrite length_app. cbn [length py list_ascii_of_string].
  rewrite Nat.add_sub. apply firstn_length_app.
Qed.

Lemma strip_code_fences_unwraps_witness :
  _strip_code_fences (fenced (py "text") (py "a" ++ LF :: py "```b"))
  = py "a" ++ LF :: py "```b".
Proof.
  apply (@strip_code_fences_unwraps (py "text") (py "a" ++ LF :: py "```b")).
  reflexivity.
Defined.

Lemma contains_skipn (m : str) (k : nat) :
  forall s, contains m s = false -> contains m (skipn k s) = false.
Proof.
  induction k as [|k IH]; intros s H; [exact H|].
  destruct s as [|c s]; [exact H|].
  simpl skipn. apply IH. now apply contains_tail in H.
Qed.

Lemma find_first_none (m s : str) :
  contains m s = false -> find_first m s = None.
Proof.
  induction s as [|c s IH]; intros H.
  - simpl in *. apply orb_false_elim in H. destruct H as [H _]. now rewrite H.
  - pose proof (@contains_head m _ H) as S. apply contains_tail in H.
    cbn [find_first]. now rewrite S, (IH H).
Qed.

(** X7. Extraction between two delimiters gives the empty text when the
    start delimiter does not occur in the text and when the end delimiter
    does not; what it gives has no whitespace at either end. *)
Theorem extract_between_edges (text start end_ : str) :
  strip (_extract_between text start end_) = _extract_between text start end_
  /\ (contains start text = true \/ _extract_between text start end_ = [])
  /\ (contains end_ text = true \/ _extract_between text start end_ = []).
Proof.
  unfold _extract_between. cbv zeta.
  split; [|split].
  - destruct (rfind start text =? -1)%Z; [reflexivity|].
    destruct (find end_ text _ =? -1)%Z; [reflexivity|apply strip_idem].
  - destruct (contains start text) eqn:C; [now left|right].
    unfold rfind. now rewrite (find_last_none _ _ C).
  - destruct (contains end_ text) eqn:C; [now left|right].
    destruct (rfind start text =? -1)%Z; [reflexivity|].
    unfold find.
    destruct (Z.of_nat (length text) <? _)%Z; [reflexivity|].
    now rewrite (find_first_none _ _ (contains_skipn _ _ _ C)).
Qed.

Lemma pop_preambles_all (pres rest : list str) :
  forallb (fun l => preamble_match (strip l)) pres = true ->
  preamble_match (strip (hd [] rest)) = false ->
  pop_preambles (pres ++ rest) = rest.
Proof.
  intros P R. induction pres as [|p pres IH].
  - now apply pop_preambles_none.
  - cbn [forallb] in P. apply andb_prop in P. destruct P as [Pp P].
    cbn [app pop_preambles]. rewrite Pp. now apply IH.
Qed.

(** X8. Preamble stripping removes every preamble line at the start of the
    text, however many there are, up to the first line that is not one, and
    returns the rest trimmed. *)
Theorem strip_prefix_lines_removes_all (pres rest : list str) :
  forallb no_break (pres ++ rest) = true ->
  last (pres ++ rest) [LF] <> [] ->
  forallb (fun l => preamble_match (strip l)) pres = true ->
  preamble_match (strip (hd [] rest)) = false ->
  _strip_prefix_lines (join [LF] (pres ++ rest)) = strip (join [LF] rest).
Proof.
  intros N E P R. unfold _strip_prefix_lines.
  now rewrite (splitlines_join _ N E), (pop_preambles_all _ _ P R).
Qed.

Lemma strip_prefix_lines_removes_all_witness :
  _strip_prefix_lines
    (join [LF] ([py "The corrected text is as follows:";
                 py "  CORRECTED TEXT IS AS FOLLOWS  "]
                ++ [py "  first"; py "second"]))
  = strip (join [LF] [py "  first"; py "second"]).
Proof.
  apply (@strip_prefix_lines_removes_all
           [py "The corrected text is as follows:";
            py "  CORRECTED TEXT IS AS FOLLOWS  "]
           [py "  first"; py "second"]);
    (reflexivity || discriminate).
Defined.

Lemma contains_app_r (m a s : str) :
  contains m s = true -> contains m (a ++ s) = true.
Proof.
  intros H. induction a as [|c a IH]; [exact H|].
  rewrite <- app_comm_cons, contains_cons, IH. apply orb_true_r.
Qed.

Lemma contains_self_app (m x : str) : contains m (m ++ x) = true.
Proof.
  destruct m as [|c m]; [now destruct x|].
  pose proof (startswith_self_app (c :: m) x) as S.
  rewrite <- app_comm_cons in *. now rewrite contains_cons, S.
Qed.

Lemma find_last_app (m a s : str) (i : nat) :
  find_last m s = Some i -> find_last m (a ++ s) = Some (length a + i).
Proof.
  intros H. induction a as [|c a IH]; [exact H|].
  cbn [app find_last length]. now rewrite IH.
Qed.

Lemma skipn_length_app (a s : str) (k : nat) :
  skipn (length a + k) (a ++ s) = skipn k s.
Proof. induction a as [|c a IH]; [reflexivity|exact IH]. Qed.

Lemma find_last_out_marker (b : str) :
  contains OUT_MARK b = false -> find_last OUT_MARK (OUT_MARK ++ b) = Some 0.
Proof.
  intros H.
  change (OUT_MARK ++ b) with ("<"%char :: py "<<OUT>>>" ++ b).
  cbn [find_last]. rewrite find_last_none; [reflexivity|].
  change (py "<<OUT>>>" ++ b)
    with ("<"%char :: "<"%char :: "O"%char :: "U"%char :: "T"%char
          :: ">"%char :: ">"%char :: ">"%char :: b).
  repeat (rewrite contains_cons;
          match goal with
          | |- startswith ?m ?s || _ = false =>
              change (startswith m s) with false; cbn [orb]
          end).
  exact H.
Qed.

(** X9. Answer extraction keeps what follows the last answer-open marker:
    whatever stands before that marker, other markers included, is dropped
    and the rest is returned trimmed, provided it is not blank. *)
Theorem answer_after_last_marker (a b : str) :
  contains OUT_MARK b = false ->
  blank b = false ->
  answer_extraction (a ++ OUT_MARK ++ b) = strip b.
Proof.
  intros C B. unfold answer_extraction.
  rewrite (contains_app_r _ a _ (contains_self_app OUT_MARK b)).
  unfold rsplit1.
  rewrite (find_last_app _ a _ (find_last_out_marker b C)).
  cbn [nth]. rewrite <- Nat.add_assoc, skipn_length_app.
  change (skipn (0 + length OUT_MARK) (OUT_MARK ++ b)) with b.
  unfold blank in B. now rewrite B.
Qed.

Lemma answer_after_last_marker_witness :
  answer_extraction
    (py "draft <<<OUT>>> first try" ++ OUT_MARK ++ py "  final answer ")
  = strip (py "  final answer ").
Proof.
  apply (@answer_after_last_marker (py "draft <<<OUT>>> first try")
           (py "  final answer ")); reflexivity.
Defined.

(** *** The output token bound *)

(** X10. The output token bound always lies between 128 and 2048; it does
    not go down when the text gets longer or the context length larger; for
    a context length of 256 or less it is 128, and for one below 256 that is
    more than the context length less 128 would allow. *)
Theorem max_tokens_bounds (text more : str) (n_ctx : Z) (k : nat) :
  (128 <= _max_tokens text n_ctx <= 2048)%Z
  /\ (_max_tokens text n_ctx <= _max_tokens (text ++ more) n_ctx)%Z
  /\ (_max_tokens text n_ctx <= _max_tokens text (n_ctx + Z.of_nat k))%Z
  /\ _max_tokens text (Z.min n_ctx 256) = 128%Z
  /\ (Z.min n_ctx 255 - 128 < _max_tokens text (Z.min n_ctx 255))%Z.
Proof.
  unfold _max_tokens, max_tokens_for. rewrite length_app, Nat2Z.inj_add.
  assert (Z.of_nat (length text) / 2
          <= (Z.of_nat (length text) + Z.of_nat (length more)) / 2)%Z
    by (apply Z.div_le_mono; lia).
  repeat split; lia.
Qed.

(** *** The model resolver *)

Lemma scan_tags_some (tags ggufs : list str) (name : str) :
  scan_tags tags ggufs = Some name ->
  In name ggufs /\ existsb (fun tag => contains tag name) tags = true.
Proof.
  induction tags as [|tag rest IH]; [discriminate|].
  cbn [scan_tags existsb]. rewrite first_with_tag_find.
  destruct (List.find (contains tag) ggufs) as [found|] eqn:F.
  - intros [= <-]. apply find_some in F. destruct F as [I C].
    now rewrite C.
  - intros H. destruct (IH H) as [I E]. rewrite E. split; [exact I|].
    apply orb_true_r.
Qed.

(** X11. What quantized-model selection returns, if not the empty name, is
    one of the files of the catalog and has the archive extension; and with
    the fallback not allowed its name holds one of the quantization tags. *)
Theorem chosen_file_is_tagged_archive (files : list str) (require_q4 : bool) :
  _choose_gguf files require_q4 = []
  \/ (In (_choose_gguf files require_q4) files
      /\ endswith (py ".gguf") (_choose_gguf files require_q4) = true
      /\ (require_q4 = false
          \/ existsb (fun tag => contains tag (_choose_gguf files require_q4))
               preferred = true)).
Proof.
  unfold _choose_gguf. cbv zeta.
  destruct (filter (endswith (py ".gguf")) files) as [|first more] eqn:G;
    [now left|].
  rewrite <- G.
  destruct (scan_tags preferred (filter (endswith (py ".gguf")) files))
    as [name|] eqn:S.
  - right. destruct (scan_tags_some _ _ S) as [I E].
    apply filter_In in I. destruct I as [I X]. auto.
  - destruct require_q4; [now left|right].
    assert (In first (filter (endswith (py ".gguf")) files)) as I
        by (rewrite G; now left).
    apply filter_In in I. destruct I as [I X]. auto.
Qed.

(** X12. The repository walk settles on the first repository, in the order
    tried, whose catalog gives a selection: every repository before it gave
    none; and it gives nothing only when no repository gives a selection. *)
Theorem first_selecting_repo_wins (repos : list (str * list str))
  (require_q4 : bool) :
  match select_repo_file repos require_q4 with
  | Some (repo, name) =>
      exists before files after,
        repos = before ++ (repo, files) :: after
        /\ Forall (fun rf => _choose_gguf (snd rf) require_q4 = []) before
        /\ _choose_gguf files require_q4 = name
        /\ name <> []
  | None => Forall (fun rf => _choose_gguf (snd rf) require_q4 = []) repos
  end.
Proof.
  induction repos as [|[repo files] rest IH]; [constructor|].
  cbn [select_repo_file]. cbv zeta.
  destruct (is_empty (_choose_gguf files require_q4)) eqn:E.
  - apply is_empty_true in E.
    destruct (select_repo_file rest require_q4) as [[r n]|].
    + destruct IH as (before & fs & after & -> & B & C & N).
      exists ((repo, files) :: before), fs, after.
      repeat split; auto.
    + constructor; auto.
  - exists [], files, rest. repeat split; auto.
    now apply is_empty_false.
Qed.

(** *** The protocol loop *)

Section LoopMore.

Variable llm_state : Type.
Variable llm : llm_state -> str -> Z -> llm_state * outcome str.
Variable json_loads : str -> outcome json.
Variable format_value : json -> str.
Variable n_ctx : Z.

Local Abbreviation serve_line := (serve_line llm json_loads format_value n_ctx).

(** X13. A request object without a text member, or whose text is null,
    false, zero or empty (string, array or object), is answered at once with
    the empty text: the model is not called and nothing is logged. *)
Theorem request_without_text (line : str) (st : llm_state)
  (members : list (str * json)) :
  blank line = false ->
  json_loads (strip line) = Ok (JObj members) ->
  truthy (text_member members) = false ->
  serve_line line st = ([Stdout empty_response], st, Ok tt).
Proof.
  intros B J T. unfold Protocol.serve_line. unfold blank in B. rewrite B.
  unfold try_except, Protocol.handle_request, bind, lift, get.
  rewrite J. fold (text_member members). rewrite T. reflexivity.
Qed.

(** X14. A request that fails before the model is called (its line is not
    decodable, its payload is not an object, or its text is a number other
    than zero or true, of which no length can be taken) is answered with
    the empty text after one diagnostic line that carries the failure; the
    model is not called. *)
Theorem request_failing_early (line : str) (st : llm_state) (exc : str) :
  blank line = false ->
  json_loads (strip line) = Raise exc
  \/ (exists payload,
         json_loads (strip line) = Ok payload
         /\ get payload (py "text") (JStr []) = Raise exc)
  \/ (exists members,
         json_loads (strip line) = Ok (JObj members)
         /\ truthy (text_member members) = true
         /\ len (text_member members) = Raise exc) ->
  serve_line line st
  = ([Stderr (log_line (py "Processing error: " ++ exc));
      Stdout empty_response], st, Ok tt).
Proof.
  intros B H. unfold Protocol.serve_line. unfold blank in B. rewrite B.
  unfold try_except, Protocol.handle_request, bind, lift.
  destruct H as [J|[(payload & J & G)|(members & J & T & L)]]; rewrite J.
  - reflexivity.
  - rewrite G. reflexivity.
  - unfold get. fold (text_member members). rewrite T. cbn [negb].
    unfold Protocol._process_one, bind, lift. rewrite L. reflexivity.
Qed.

(** X15. A request whose text is a string that is not empty calls the model
    exactly once, with the prompt built from that text and the token bound
    of its length.  When the call returns, the response carries the
    normalized output; when it raises, the failure is logged and the
    response carries the empty text.  Either way the model state is the one
    the call left. *)
Theorem string_request_generates (line : str) (st : llm_state)
  (members : list (str * json)) (text : str) :
  blank line = false ->
  json_loads (strip line) = Ok (JObj members) ->
  lookup (py "text") members = Some (JStr text) ->
  text <> [] ->
  serve_line line st =
  let call := Generate (_make_prompt text) (_max_tokens text n_ctx) in
  match llm st (_make_prompt text) (_max_tokens text n_ctx) with
  | (st', Ok output) =>
      ([call; Stdout (dumps_text (normalize output) ++ [LF])], st', Ok tt)
  | (st', Raise exc) =>
      ([call; Stderr (log_line (py "Processing error: " ++ exc));
        Stdout empty_response], st', Ok tt)
  end.
Proof.
  intros B J T N. unfold Protocol.serve_line. unfold blank in B. rewrite B.
  unfold try_except, Protocol.handle_request, bind, lift, get.
  rewrite J, T.
  destruct text as [|c text]; [contradiction|]. cbn [truthy is_empty negb].
  unfold Protocol._process_one, bind, lift, call_llm, len, text_of, ret,
    _max_tokens.
  destruct (llm st _ _) as [st' [output|exc]]; reflexivity.
Qed.

End LoopMore.

Lemma request_without_text_witness :
  serve_line (fun (st : nat) (_ : str) (_ : Z) => (S st, Ok (py "unused")))
    (fun _ : str => Ok (JObj [(py "id", JInt 7); (py "text", JNull)]))
    (fun _ : json => []) 4096 (py "{}") 0
  = ([Stdout empty_response], 0, Ok tt).
Proof.
  apply (@request_without_text nat _ _ _ 4096 (py "{}") 0
           [(py "id", JInt 7); (py "text", JNull)]); reflexivity.
Defined.

Lemma request_failing_early_witness :
  serve_line (fun (st : nat) (_ : str) (_ : Z) => (S st, Ok (py "unused")))
    (fun _ : str => Ok (JArr [])) (fun _ : json => []) 4096 (py "[]") 0
  = ([Stderr (log_line (py "Processing error: "
                        ++ py "'list' object has no attribute 'get'"));
      Stdout empty_response], 0, Ok tt).
Proof.
  apply (@request_failing_early nat _ _ _ 4096 (py "[]") 0
           (py "'list' object has no attribute 'get'")); [reflexivity|].
  right. left. exists (JArr []). split; reflexivity.
Defined.

Lemma string_request_generates_witness :
  serve_line (fun (st : nat) (_ : str) (_ : Z) => (S st, Ok (py " ok ")))
    (fun _ : str => Ok (JObj [(py "text", JStr (py "andthe"))]))
    (fun _ : json => []) 4096 (py "{}") 0
  = ([Generate (_make_prompt (py "andthe")) 128;
      Stdout (dumps_text (py "ok") ++ [LF])], 1, Ok tt).
Proof.
  apply (@string_request_generates nat
           (fun (st : nat) (_ : str) (_ : Z) => (S st, Ok (py " ok ")))
           _ _ 4096 (py "{}") 0
           [(py "text", JStr (py "andthe"))] (py "andthe"));
    (reflexivity || discriminate).
Defined.

Lemma ready_is_no_response : ~ is_response (dumps_ready ++ [LF]).
Proof.
  intros (text & E). unfold dumps_ready, dumps_text in E. cbn in E.
  discriminate E.
Qed.

(** X16. Standard output carries protocol data only.  When the
    initialization fails nothing is written to it and the exit code is 2;
    when it succeeds the readiness line is written first and once, and all
    that follows are the responses, one for each line that is not blank
    among the lines read before a read of standard input raises, if one
    does; the exit code is then 0 when the input was read to its end and 1
    when a read raised. *)
Theorem main_stdout_protocol (llm_state : Type)
  (llm : llm_state -> str -> Z -> llm_state * outcome str)
  (json_loads : str -> outcome json) (format_value : json -> str)
  (traceback : str -> str)
  (init : outcome (llm_state * Z)) (stdin : list (outcome str)) :
  match init with
  | Raise _ =>
      stdout_lines
        (fst (main llm json_loads format_value traceback init stdin)) = []
      /\ snd (main llm json_loads format_value traceback init stdin) = 2%Z
  | Ok _ =>
      exists responses,
        stdout_lines
          (fst (main llm json_loads format_value traceback init stdin))
        = (dumps_ready ++ [LF]) :: responses
        /\ Forall is_response responses
        /\ length responses = length (content (lines_read stdin))
        /\ snd (main llm json_loads format_value traceback init stdin)
           = match read_failure stdin with
             | None => 0%Z
             | Some _ => 1%Z
             end
  end
  /\ ~ is_response (dumps_ready ++ [LF]).
Proof.
  split; [|apply ready_is_no_response].
  destruct init as [[st n]|exc]; [|split; reflexivity].
  unfold main.
  pose proof (serve_total llm json_loads format_value n stdin st) as (T & L).
  pose proof (serve_is_response llm json_loads format_value n stdin st) as R.
  unfold outcome_of, events_of in *.
  destruct (serve llm json_loads format_value n stdin st) as [[ev st'] r].
  cbn [fst snd] in *. subst r.
  exists (stdout_lines ev).
  destruct (read_failure stdin) as [exc|]; cbn [fst snd stdout_lines];
    rewrite ?stdout_lines_app, ?app_nil_r; auto.
Qed.

(** *** Model resolution *)

(** **** The access token *)

Lemma token_from_env_trimmed (h : host) (keys : list str) (t : str) :
  token_from_env h keys = Some t -> strip t = t.
Proof.
  induction keys as [|key rest IH]; simpl; [discriminate|].
  destruct (env_truthy h key); [|exact IH].
  intros [= <-]. apply strip_idem.
Qed.

Lemma token_from_files_trimmed (h : host) (paths : list str) (t : str) :
  token_from_files h paths = Some t -> strip t = t.
Proof.
  induction paths as [|path rest IH]; simpl; [discriminate|].
  destruct (read_text h path) as [[content|]|]; try exact IH.
  destruct (is_empty (strip content)) eqn:E; [exact IH|].
  intros [= <-]. apply strip_idem.
Qed.

(** X17. The access token is always trimmed: whichever variable or token
    file it comes from, it has no whitespace at its start or at its end
    (and it is the empty text when no source has one). *)
Theorem hf_token_is_trimmed (h : host) :
  strip (_load_hf_token h) = _load_hf_token h.
Proof.
  unfold _load_hf_token.
  destruct (token_from_env h token_keys) as [t|] eqn:E.
  - now apply token_from_env_trimmed in E.
  - destruct (token_from_files h (token_paths h)) as [t|] eqn:F.
    + now apply token_from_files_trimmed in F.
    + reflexivity.
Qed.

Lemma token_from_env_first (h : host) (before : list str) (key value : str)
  (after : list str) :
  (forall k, In k before -> env_truthy h k = None) ->
  env_truthy h key = Some value ->
  token_from_env h (before ++ key :: after) = Some (strip value).
Proof.
  intros B K. induction before as [|k before IH]; simpl.
  - now rewrite K.
  - rewrite (B k) by now left. apply IH. intros k' I. apply B. now right.
Qed.

(** X18. The first token variable, in the order HUGGINGFACE_TOKEN,
    HF_TOKEN, HUGGINGFACEHUB_TOKEN, HF_ACCESS_TOKEN, that is set and not
    empty decides the token, which is its value trimmed: later variables and
    the token files are not consulted, also when the value is whitespace
    only and the token therefore empty. *)
Theorem hf_token_first_variable (h : host) (before : list str)
  (key value : str) (after : list str) :
  token_keys = before ++ key :: after ->
  (forall k, In k before -> env_truthy h k = None) ->
  env_truthy h key = Some value ->
  _load_hf_token h = strip value.
Proof.
  intros T B K. unfold _load_hf_token.
  rewrite T. now rewrite (@token_from_env_first h before key value after B K).
Qed.

Lemma hf_token_first_variable_witness :
  _load_hf_token
    (host_with [(py "HF_ACCESS_TOKEN", py "late"); (py "HF_TOKEN", py "  ")]
               [(py "~/.huggingface/token", py "stored")]
               (fun _ => OtherError []) (delivering []))
  = [].
Proof.
  apply (@hf_token_first_variable
           (host_with [(py "HF_ACCESS_TOKEN", py "late");
                       (py "HF_TOKEN", py "  ")]
                      [(py "~/.huggingface/token", py "stored")]
                      (fun _ => OtherError []) (delivering []))
           [py "HUGGINGFACE_TOKEN"] (py "HF_TOKEN") (py "  ")
           [py "HUGGINGFACEHUB_TOKEN"; py "HF_ACCESS_TOKEN"]).
  - reflexivity.
  - intros k [<-|[]]. reflexivity.
  - reflexivity.
Defined.

(** **** The file name of a direct URL *)

Lemma split_char_nonempty (sep : ascii) (s : str) : split_char sep s <> [].
Proof.
  induction s as [|c s IH]; simpl; [discriminate|].
  destruct (Ascii.eqb c sep); [discriminate|].
  now destruct (split_char sep s).
Qed.

Lemma split_char_free (sep : ascii) (s : str) :
  forallb (free_of sep) (split_char sep s) = true.
Proof.
  induction s as [|c s IH]; simpl; [reflexivity|].
  destruct (Ascii.eqb c sep) eqn:E; [exact IH|].
  destruct (split_char sep s) as [|p ps]; simpl in *; now rewrite ?E.
Qed.

Lemma split_char_hd_free (c sep : ascii) (s : str) :
  free_of c s = true -> free_of c (hd [] (split_char sep s)) = true.
Proof.
  induction s as [|d s IH]; simpl; [reflexivity|].
  intros F. apply andb_true_iff in F. destruct F as [D F].
  destruct (Ascii.eqb d sep); [reflexivity|].
  specialize (IH F).
  destruct (split_char sep s) as [|p ps]; simpl in *; now rewrite D.
Qed.

Lemma forallb_last {A} (f : A -> bool) (l : list A) (d : A) :
  forallb f l = true -> l <> [] -> f (last l d) = true.
Proof.
  induction l as [|a l IH]; [easy|].
  intros F _. simpl in F. apply andb_true_iff in F. destruct F as [Fa F].
  destruct l as [|b l]; [exact Fa|].
  apply IH; [exact F|discriminate].
Qed.

(** X19. The file name taken from a direct URL holds no slash and no
    question mark, so the path it is cached at is the model directory
    followed by the name, with a slash between them exactly when the
    directory is not empty and does not end in one: the name never takes
    the place of the directory. *)
Theorem url_filename_plain (model_url model_dir : str) :
  let filename := url_filename model_url in
  free_of "/" filename = true
  /\ free_of "?" filename = true
  /\ path_join model_dir filename
     = if is_empty model_dir || endswith (py "/") model_dir
       then model_dir ++ filename
       else model_dir ++ py "/" ++ filename.
Proof.
  cbv zeta. unfold url_filename.
  set (tail := last (split_char "/" model_url) []).
  assert (free_of "/" tail = true) as T.
  { apply forallb_last; [apply split_char_free|apply split_char_nonempty]. }
  assert (free_of "/" (hd [] (split_char "?" tail)) = true) as S
    by now apply split_char_hd_free.
  split; [exact S|]. split.
  - pose proof (split_char_free "?" tail) as Q.
    destruct (split_char "?" tail); [reflexivity|].
    simpl in Q. now apply andb_true_iff in Q.
  - unfold path_join.
    destruct (hd [] (split_char "?" tail)) as [|c name]; [reflexivity|].
    simpl in S. apply andb_true_iff in S. destruct S as [S _].
    apply negb_true_iff in S.
    change (startswith (py "/") (c :: name)) with (Ascii.eqb "/" c && true).
    now rewrite Ascii.eqb_sym, S.
Qed.

(** **** The walk over the repositories *)

Lemma choose_gguf_nil (require_q4 : bool) : _choose_gguf [] require_q4 = [].
Proof. now destruct require_q4. Qed.

(** X20. A repository whose catalog request fails (it is refused, it
    raises, or reading the file names out of what it delivers raises) is
    skipped: the request is made, one line is logged, and the walk goes on
    with the next repository as if this one were not there. *)
Theorem failed_lookup_is_skipped (h : host) (token : str) (require_q4 : bool)
  (repo : str) (rest : list str) :
  lookup_fails h repo token ->
  exists message,
    walk_repos h token require_q4 (repo :: rest)
    = (Looked_up (catalog_request repo token) :: Logged message
         :: fst (walk_repos h token require_q4 rest),
       snd (walk_repos h token require_q4 rest)).
Proof.
  unfold lookup_fails, catalog_request. intros F.
  cbn [walk_repos]. unfold _list_repo_files.
  destruct (lookup_reply h _) as [payload|code exc|exc].
  - destruct F as [exc F]. rewrite F. cbn [fst snd names_of map].
    rewrite choose_gguf_nil. cbn [is_empty].
    destruct (walk_repos h token require_q4 rest). eexists. reflexivity.
  - destruct (code =? 401)%Z; [destruct (is_empty token)|];
      cbn [fst snd names_of map]; rewrite choose_gguf_nil; cbn [is_empty];
      destruct (walk_repos h token require_q4 rest); eexists; reflexivity.
  - cbn [fst snd names_of map]. rewrite choose_gguf_nil. cbn [is_empty].
    destruct (walk_repos h token require_q4 rest). eexists. reflexivity.
Qed.

Lemma failed_lookup_is_skipped_witness :
  exists message,
    walk_repos (host_with [] [] (fun _ => HttpError 401 (py "Unauthorized")) (delivering []))
      [] true [py "a/b"; py "c/d"]
    = (Looked_up (catalog_request (py "a/b") []) :: Logged message
         :: fst (walk_repos
                   (host_with [] [] (fun _ => HttpError 401 (py "Unauthorized")) (delivering []))
                   [] true [py "c/d"]),
       snd (walk_repos
              (host_with [] [] (fun _ => HttpError 401 (py "Unauthorized")) (delivering []))
              [] true [py "c/d"])).
Proof.
  apply (@failed_lookup_is_skipped
           (host_with [] [] (fun _ => HttpError 401 (py "Unauthorized")) (delivering []))
           [] true (py "a/b") [py "c/d"]).
  exact I.
Defined.

(** X21. When every catalog fetched holds only strings, the walk with its
    requests settles on what the selection over the catalogs gives: the
    loop of the resolver, with the network in it, refines the loop over
    ready-made catalogs. *)
Theorem walk_repos_selects (h : host) (token : str) (require_q4 : bool)
  (repos : list str) (catalog : str -> list str) :
  (forall repo, In repo repos ->
     names_of (snd (_list_repo_files h repo token)) = Ok (catalog repo)) ->
  snd (walk_repos h token require_q4 repos)
  = Ok (select_repo_file (map (fun repo => (repo, catalog repo)) repos)
          require_q4).
Proof.
  induction repos as [|repo rest IH]; intros C; [reflexivity|].
  cbn [walk_repos map select_repo_file].
  rewrite (C repo) by now left.
  destruct (is_empty (_choose_gguf (catalog repo) require_q4)); [|reflexivity].
  rewrite <- IH by (intros r I; apply C; now right).
  now destruct (walk_repos h token require_q4 rest).
Qed.

Lemma walk_repos_selects_witness :
  snd (walk_repos
         (host_with [] []
            (fun _ => Payload (JObj [(py "siblings",
                         JArr [JObj [(py "rfilename", JStr (py "m.Q4_K_M.gguf"))];
                               JObj []])])) (delivering []))
         [] true [py "a/b"])
  = Ok (select_repo_file
          (map (fun repo => (repo, [py "m.Q4_K_M.gguf"; []])) [py "a/b"]) true).
Proof.
  apply (@walk_repos_selects
           (host_with [] []
              (fun _ => Payload (JObj [(py "siblings",
                           JArr [JObj [(py "rfilename", JStr (py "m.Q4_K_M.gguf"))];
                                 JObj []])])) (delivering []))
           [] true [py "a/b"] (fun _ => [py "m.Q4_K_M.gguf"; []])).
  intros repo [<-|[]]. reflexivity.
Defined.

Lemma names_of_first_other (names : list str) (v : json) (after : list json) :
  is_string v = false ->
  names_of (map JStr names ++ v :: after)
  = Raise (py "'" ++ type_name v ++ py "' object has no attribute 'endswith'").
Proof.
  intros V. induction names as [|name names IH].
  - now destruct v.
  - cbn [map app names_of]. now rewrite IH.
Qed.

(** X22. A catalog with an entry that is not a string (a sibling whose
    file name is null, say) ends the walk with an attribute error that
    names the type of the first such entry; the repositories after it are
    not looked up, whatever the entries before it are. *)
Theorem malformed_catalog_aborts (h : host) (token : str) (require_q4 : bool)
  (repo : str) (rest : list str) (names : list str) (v : json)
  (after : list json) :
  snd (_list_repo_files h repo token) = map JStr names ++ v :: after ->
  is_string v = false ->
  snd (walk_repos h token require_q4 (repo :: rest))
  = Raise (py "'" ++ type_name v ++ py "' object has no attribute 'endswith'")
  /\ lookups (fst (walk_repos h token require_q4 (repo :: rest)))
     = [catalog_request repo token].
Proof.
  intros F V. cbn [walk_repos]. rewrite F, names_of_first_other by exact V.
  split; [reflexivity|]. cbn [fst lookups flat_map app].
  unfold catalog_request. f_equal.
  induction (fst (_list_repo_files h repo token)); [reflexivity|assumption].
Qed.

Lemma malformed_catalog_aborts_witness :
  snd (walk_repos
         (host_with [] []
            (fun _ => Payload (JObj [(py "siblings",
                         JArr [JObj [(py "rfilename", JStr (py "a.gguf"))];
                               JObj [(py "rfilename", JNull)]])])) (delivering []))
         [] false [py "a/b"; py "c/d"])
  = Raise (py "'NoneType' object has no attribute 'endswith'")
  /\ lookups (fst (walk_repos
         (host_with [] []
            (fun _ => Payload (JObj [(py "siblings",
                         JArr [JObj [(py "rfilename", JStr (py "a.gguf"))];
                               JObj [(py "rfilename", JNull)]])])) (delivering []))
         [] false [py "a/b"; py "c/d"]))
     = [catalog_request (py "a/b") []].
Proof.
  apply (@malformed_catalog_aborts
           (host_with [] []
              (fun _ => Payload (JObj [(py "siblings",
                           JArr [JObj [(py "rfilename", JStr (py "a.gguf"))];
                                 JObj [(py "rfilename", JNull)]])])) (delivering []))
           [] false (py "a/b") [py "c/d"] [py "a.gguf"] JNull []).
  - reflexivity.
  - reflexivity.
Defined.

(** **** Resolution and the files *)

Lemma downloads_app (a b : list trace) :
  downloads (a ++ b) = downloads a ++ downloads b.
Proof. apply flat_map_app. Qed.

Lemma downloads_logged (messages : list str) :
  downloads (map Logged messages) = [].
Proof. induction messages; [reflexivity|assumption]. Qed.

Lemma walk_repos_no_download (h : host) (token : str) (require_q4 : bool)
  (repos : list str) :
  downloads (fst (walk_repos h token require_q4 repos)) = [].
Proof.
  induction repos as [|repo rest IH]; [reflexivity|].
  cbn [walk_repos].
  destruct (names_of _) as [names|exc]; cbn [fst].
  - destruct (is_empty _).
    + destruct (walk_repos h token require_q4 rest) as [later r].
      cbn [fst] in *. rewrite downloads_app, IH.
      cbn [downloads flat_map app]. now rewrite downloads_logged.
    + cbn [fst downloads flat_map app]. apply downloads_logged.
  - cbn [downloads flat_map app]. apply downloads_logged.
Qed.

(** What a download does to the files. *)
Lemma download_frame (w : download_world) (fs : filesystem)
  (destination : str) :
  same_files_but destination (fst (_download_file w fs destination)) fs
  /\ match snd (_download_file w fs destination) with
     | Ok _ => isfile (fst (_download_file w fs destination)) destination = true
     | Raise _ =>
         remove_error w = None ->
         fst (_download_file w fs destination) destination = None
     end.
Proof.
  assert (forall (before : filesystem) exc,
             same_files_but destination before fs ->
             let r : filesystem * outcome unit :=
               (match before destination with
                | Some _ =>
                    match remove_error w with
                    | None => fs_remove before destination
                    | Some _ => before
                    end
                | None => before
                end, Raise exc) in
             same_files_but destination (fst r) fs
             /\ match snd r with
                | Ok _ => isfile (fst r) destination = true
                | Raise _ => remove_error w = None -> fst r destination = None
                end) as failing.
  { intros before exc B. cbv zeta. cbn [fst snd]. split.
    - intros path P. rewrite cleanup_state, P. now apply B.
    - intros R. now rewrite cleanup_state, str_eqb_refl, R. }
  assert (same_files_but destination fs fs) as same by (intros path _; reflexivity).
  assert (forall content,
             same_files_but destination (fs_write fs destination content) fs)
    as written.
  { intros content path P. unfold fs_write. now rewrite P. }
  unfold _download_file, download_body.
  destruct (request_error w) as [e|]; [now apply failing|].
  destruct (open_error w) as [e|]; [now apply failing|].
  destruct (stream w (reads w) 0 []) as [content [[]|e]].
  - destruct (close_error w) as [e|]; [now apply failing|].
    cbn [fst snd]. split; [apply written|].
    unfold isfile, fs_write. now rewrite str_eqb_refl.
  - now apply failing.
Qed.

Lemma inv_cached (h : host) (fs : filesystem) (seen : list trace)
  (path : str) :
  downloads seen = [] -> isfile fs path = true ->
  resolved h fs (seen, fs, Ok path).
Proof.
  intros D F. unfold resolved. cbn [fst snd]. rewrite D. now split.
Qed.

Lemma inv_raise (h : host) (fs : filesystem) (seen : list trace)
  (exc : str) :
  downloads seen = [] -> resolved h fs (seen, fs, Raise exc).
Proof.
  intros D. unfold resolved. cbn [fst snd]. rewrite D. now split.
Qed.

Lemma inv_download (h : host) (fs : filesystem) (seen : list trace)
  (url destination : str) :
  downloads seen = [(_request url (_load_hf_token h), destination)] ->
  isfile fs destination = false ->
  resolved h fs
    match download h fs url destination (_load_hf_token h) with
    | (after, Ok _) => (seen, after, Ok destination)
    | (after, Raise exc) => (seen, after, Raise exc)
    end.
Proof.
  intros D F. unfold download.
  pose proof (download_frame
                (download_of h (_request url (_load_hf_token h)) destination)
                fs destination) as [same last].
  destruct (_download_file _ fs destination) as [after [[]|exc]];
    unfold resolved; cbn [fst snd] in *; rewrite D; repeat split; assumption.
Qed.

Lemma resolve_from_repos_inv (h : host) (fs : filesystem) (model_dir : str) :
  resolved h fs (resolve_from_repos h fs model_dir).
Proof.
  unfold resolve_from_repos.
  pose proof (walk_repos_no_download h (_load_hf_token h)
                (require_q4_of (env h (py "DANUBE_ALLOW_NON_Q4")))
                (repos_to_try h)) as W.
  destruct (walk_repos _ _ _ _) as [seen [[[repo file]|]|exc]];
    cbn [fst] in W; try now apply inv_raise.
  destruct (is_empty repo || is_empty file); [now apply inv_raise|].
  assert (downloads (seen ++ [Logged (py "Selected model " ++ repo ++ py "/" ++ file)]) = [])
    as S by now rewrite downloads_app, W.
  destruct (isfile fs (path_join model_dir file)) eqn:F;
    [now apply inv_cached|].
  apply inv_download; [|exact F].
  now rewrite downloads_app, S.
Qed.

Lemma resolve_from_file_inv (h : host) (fs : filesystem) (model_dir : str) :
  resolved h fs (resolve_from_file h fs model_dir).
Proof.
  unfold resolve_from_file.
  destruct (env_truthy h _) as [model_file|];
    [|apply resolve_from_repos_inv].
  destruct (isfile fs _) eqn:F;
    [now apply inv_cached|apply resolve_from_repos_inv].
Qed.

Lemma resolve_from_url_inv (h : host) (fs : filesystem) (model_dir : str) :
  resolved h fs (resolve_from_url h fs model_dir).
Proof.
  unfold resolve_from_url.
  destruct (env_truthy h _) as [model_url|];
    [|apply resolve_from_file_inv].
  destruct (is_empty _); [apply resolve_from_file_inv|].
  destruct (isfile fs _) eqn:F; [now apply inv_cached|].
  now apply inv_download.
Qed.

Lemma ensure_model_inv (h : host) (fs : filesystem) :
  resolved h fs (_ensure_model h fs).
Proof.
  unfold _ensure_model.
  destruct (env_truthy h _) as [model_path|].
  - destruct (isfile fs model_path) eqn:F; [now apply inv_cached|].
    destruct (makedirs_error h _); [now apply inv_raise|].
    apply resolve_from_url_inv.
  - destruct (makedirs_error h _); [now apply inv_raise|].
    apply resolve_from_url_inv.
Qed.

(** X23. Model resolution never changes or removes a file that exists,
    and a path it returns is a file when it returns. *)
Theorem ensure_model_keeps_files (h : host) (fs : filesystem) :
  let after := snd (fst (_ensure_model h fs)) in
  (forall path, isfile fs path = false \/ after path = fs path)
  /\ match snd (_ensure_model h fs) with
     | Ok path => isfile after path = true
     | Raise _ => True
     end.
Proof.
  cbv zeta. pose proof (ensure_model_inv h fs) as R. unfold resolved in R.
  destruct (_ensure_model h fs) as [[seen after] out]. cbn [fst snd] in *.
  destruct (downloads seen) as [|[request destination] [|]]; [| |easy].
  - destruct R as [S P]. split; [intros path; right; apply S|].
    destruct out as [path|]; [|exact I].
    unfold isfile in *. now rewrite S.
  - destruct R as [F [S [_ P]]]. split.
    + intros path. destruct (str_eqb path destination) eqn:E.
      * apply str_eqb_eq in E. subst path. now left.
      * right. now apply S.
    + destruct out as [path|]; [|exact I]. now destruct P as [-> P].
Qed.

(** X24. When removing a file works, a model resolution that fails leaves
    the files as they were: no partial download stays behind. *)
Theorem failed_resolution_leaves_no_file (h : host) (fs : filesystem)
  (exc : str) :
  (forall request destination,
     remove_error (download_of h request destination) = None) ->
  snd (_ensure_model h fs) = Raise exc ->
  same_files (snd (fst (_ensure_model h fs))) fs.
Proof.
  intros W E. pose proof (ensure_model_inv h fs) as R. unfold resolved in R.
  destruct (_ensure_model h fs) as [[seen after] out]. cbn [fst snd] in *.
  subst out.
  destruct (downloads seen) as [|[request destination] [|]]; [| |easy].
  - apply R.
  - destruct R as [F [S [_ P]]]. intros path.
    destruct (str_eqb path destination) eqn:D; [|now apply S].
    apply str_eqb_eq in D. subst path. rewrite (P (W _ _)).
    unfold isfile in F. now destruct (fs destination).
Qed.

Lemma failed_resolution_leaves_no_file_witness :
  same_files
    (snd (fst (_ensure_model
                 (host_with [(py "DANUBE_MODEL_URL", py "https://host/m.gguf?download=1")]
                    [] (fun _ => OtherError []) (breaking (py "GGUF")))
                 (fun _ => None))))
    (fun _ => None).
Proof.
  apply (@failed_resolution_leaves_no_file
           (host_with [(py "DANUBE_MODEL_URL", py "https://host/m.gguf?download=1")]
              [] (fun _ => OtherError []) (breaking (py "GGUF")))
           (fun _ => None)
           (py "Failed to download model: Connection reset by peer")).
  - reflexivity.
  - reflexivity.
Defined.

(** X25. Model resolution downloads at most once.  Without a download the
    files stay as they were; a download goes to a path where no file was,
    changes no other file, and its request carries the headers that the
    access token gives. *)
Theorem resolution_downloads_once (h : host) (fs : filesystem) :
  let seen := fst (fst (_ensure_model h fs)) in
  let after := snd (fst (_ensure_model h fs)) in
  match downloads seen with
  | [] => same_files after fs
  | [(request, destination)] =>
      isfile fs destination = false
      /\ same_files_but destination after fs
      /\ headers request = headers (_request [] (_load_hf_token h))
  | _ => False
  end.
Proof.
  cbv zeta. pose proof (ensure_model_inv h fs) as R. unfold resolved in R.
  destruct (downloads _) as [|[request destination] [|]]; [| |easy].
  - apply R.
  - destruct R as [F [S [T _]]]. now repeat split.
Qed.

Lemma lookups_app (a b : list trace) :
  lookups (a ++ b) = lookups a ++ lookups b.
Proof. apply flat_map_app. Qed.

Lemma lookups_logged (messages : list str) :
  lookups (map Logged messages) = [].
Proof. induction messages; [reflexivity|assumption]. Qed.

Lemma walk_repos_lookups (h : host) (token : str) (require_q4 : bool)
  (repos : list str) :
  exists k,
    lookups (fst (walk_repos h token require_q4 repos))
    = firstn k (map (fun repo => catalog_request repo token) repos).
Proof.
  induction repos as [|repo rest [k IH]]; [now exists 0|].
  cbn [walk_repos].
  assert (forall later,
            lookups
              ((Looked_up (_request (py "https://huggingface.co/api/models/" ++ repo) token)
                :: map Logged (fst (_list_repo_files h repo token))) ++ later)
            = catalog_request repo token :: lookups later) as step.
  { intros later. rewrite lookups_app. cbn [lookups flat_map app].
    now rewrite lookups_logged. }
  destruct (names_of _) as [names|exc].
  - destruct (is_empty _).
    + destruct (walk_repos h token require_q4 rest) as [later r].
      exists (S k). cbn [fst] in *. now rewrite step, IH.
    + exists 1. cbn [fst]. rewrite <- (app_nil_r (_ :: _)). now rewrite step.
  - exists 1. cbn [fst]. rewrite <- (app_nil_r (_ :: _)). now rewrite step.
Qed.

Lemma repos_to_try_repositories (h : host) : repos_to_try h = repositories h.
Proof.
  unfold repos_to_try, repositories, _select_repo.
  destruct (env_truthy h _); reflexivity.
Qed.

Lemma resolve_from_repos_lookups (h : host) (fs : filesystem)
  (model_dir : str) :
  exists k,
    lookups (fst (fst (resolve_from_repos h fs model_dir)))
    = firstn k (map (fun repo => catalog_request repo (_load_hf_token h))
                  (repositories h)).
Proof.
  unfold resolve_from_repos. rewrite repos_to_try_repositories.
  destruct (walk_repos_lookups h (_load_hf_token h)
              (require_q4_of (env h (py "DANUBE_ALLOW_NON_Q4")))
              (repositories h)) as [k W].
  exists k. rewrite <- W.
  destruct (walk_repos _ _ _ _) as [seen [[[repo file]|]|exc]];
    try reflexivity.
  destruct (is_empty repo || is_empty file); [reflexivity|].
  destruct (isfile fs _).
  - cbn [fst]. rewrite lookups_app. apply app_nil_r.
  - destruct (download _ _ _ _ _) as [after [[]|e]]; cbn [fst];
      rewrite !lookups_app; cbn [lookups flat_map app];
      now rewrite !app_nil_r.
Qed.

Lemma resolve_from_url_lookups (h : host) (fs : filesystem)
  (model_dir : str) :
  exists k,
    lookups (fst (fst (resolve_from_url h fs model_dir)))
    = firstn k (map (fun repo => catalog_request repo (_load_hf_token h))
                  (repositories h)).
Proof.
  assert (exists k,
             lookups (fst (fst (resolve_from_file h fs model_dir)))
             = firstn k (map (fun repo =>
                                catalog_request repo (_load_hf_token h))
                           (repositories h))) as from_file.
  { unfold resolve_from_file.
    destruct (env_truthy h _) as [model_file|];
      [|apply resolve_from_repos_lookups].
    destruct (isfile fs _); [now exists 0|apply resolve_from_repos_lookups]. }
  unfold resolve_from_url.
  destruct (env_truthy h _) as [model_url|]; [|exact from_file].
  destruct (is_empty _); [exact from_file|].
  destruct (isfile fs _); [now exists 0|].
  destruct (download _ _ _ _ _) as [after [[]|e]]; now exists 0.
Qed.

(** X26. The catalog requests of a model resolution are an initial part
    of the requests for the repository override alone, when one is set, and
    otherwise for the thirteen candidates in their order, each with the
    access token: no repository is looked up twice or out of order. *)
Theorem lookups_follow_candidates (h : host) (fs : filesystem) :
  exists k,
    lookups (fst (fst (_ensure_model h fs)))
    = firstn k (map (fun repo => catalog_request repo (_load_hf_token h))
                  (repositories h)).
Proof.
  unfold _ensure_model.
  destruct (env_truthy h _) as [model_path|].
  - destruct (isfile fs model_path); [now exists 0|].
    destruct (makedirs_error h _); [now exists 0|].
    apply resolve_from_url_lookups.
  - destruct (makedirs_error h _); [now exists 0|].
    apply resolve_from_url_lookups.
Qed.

(** *** The prompt, echoed *)

Lemma startswith_length (m s : str) :
  startswith m s = true -> length m <= length s.
Proof.
  revert s. induction m as [|a m IH]; intros [|b s]; simpl; try lia;
    try discriminate.
  intros H. apply andb_true_iff in H. destruct H as [_ H].
  apply IH in H. lia.
Qed.

Lemma find_last_bound (m s : str) (i : nat) :
  find_last m s = Some i -> i + length m <= length s.
Proof.
  revert i. induction s as [|c s IH]; intros i; cbn [find_last].
  - destruct (startswith m []) eqn:E; [|discriminate].
    intros [= <-]. now apply startswith_length in E.
  - destruct (find_last m s) as [k|].
    + intros [= <-]. specialize (IH k eq_refl). simpl. lia.
    + destruct (startswith m (c :: s)) eqn:E; [|discriminate].
      intros [= <-]. now apply startswith_length in E.
Qed.

Lemma find_first_bound (m s : str) (j : nat) :
  find_first m s = Some j -> j + length m <= length s.
Proof.
  revert j. induction s as [|c s IH]; intros j; cbn [find_first].
  - destruct (startswith m []) eqn:E; [|discriminate].
    intros [= <-]. now apply startswith_length in E.
  - destruct (startswith m (c :: s)) eqn:E.
    + intros [= <-]. now apply startswith_length in E.
    + destruct (find_first m s) as [k|]; [|discriminate].
      intros [= <-]. specialize (IH k eq_refl). simpl. lia.
Qed.

Lemma extract_between_at (text start end_ : str) (i j : nat) :
  find_last start text = Some i ->
  find_first end_ (skipn (i + length start) text) = Some j ->
  _extract_between text start end_
  = strip (firstn j (skipn (i + length start) text)).
Proof.
  intros S E. unfold _extract_between, rfind, find. rewrite S.
  cbn [index_or_minus_one].
  pose proof (find_last_bound _ _ S) as B.
  pose proof (find_first_bound _ _ E) as C.
  rewrite length_skipn in C.
  destruct (Z.eqb_spec (Z.of_nat i) (-1)); [lia|].
  destruct (Z.ltb_spec (Z.of_nat (length text))
              (Z.of_nat i + Z.of_nat (length start))); [lia|].
  rewrite <- Nat2Z.inj_add, Nat2Z.id, E.
  destruct (Z.eqb_spec (Z.of_nat (i + length start) + Z.of_nat j) (-1));
    [lia|].
  f_equal. unfold slice, slice_index.
  destruct (Z.ltb_spec (Z.of_nat (i + length start)) 0); [lia|].
  destruct (Z.ltb_spec (Z.of_nat (i + length start) + Z.of_nat j) 0); [lia|].
  rewrite !Z.min_l by lia.
  rewrite <- Nat2Z.inj_add, !Nat2Z.id. f_equal. lia.
Qed.

Lemma find_last_here (m : str) (c : ascii) (s : str) :
  startswith m (c :: s) = true -> contains m s = false ->
  find_last m (c :: s) = Some 0.
Proof.
  intros H C. cbn [find_last]. now rewrite (find_last_none _ _ C), H.
Qed.

Lemma find_first_here (m s : str) :
  startswith m s = true -> find_first m s = Some 0.
Proof. intros H. destruct s; cbn [find_first]; now rewrite H. Qed.

Lemma find_first_cons (m : str) (c : ascii) (s : str) :
  startswith m (c :: s) = false ->
  find_first m (c :: s) = option_map S (find_first m s).
Proof. intros H. cbn [find_first]. now rewrite H. Qed.

Lemma startswith_other (m : str) (c : ascii) (s : str) :
  free_of c m = true -> m <> [] -> startswith m (c :: s) = false.
Proof.
  intros F N. destruct m as [|d m]; [easy|].
  cbn [startswith]. simpl in F. apply andb_true_iff in F.
  destruct F as [F _]. apply negb_true_iff in F. now rewrite F.
Qed.

Lemma find_first_sep (m a b : str) :
  free_of LF m = true -> m <> [] -> contains m a = false ->
  find_first m (a ++ LF :: m ++ b) = Some (length a + 1).
Proof.
  intros F N. induction a as [|c a IH]; intros C.
  - cbn [app length]. rewrite find_first_cons by now apply startswith_other.
    now rewrite find_first_here by apply startswith_self_app.
  - rewrite <- app_comm_cons, find_first_cons.
    + rewrite IH by exact (contains_tail _ _ _ C). reflexivity.
    + rewrite app_comm_cons, (@startswith_app_sep LF m F (c :: a)) by exact N.
      exact (contains_head _ _ C).
Qed.

Lemma make_prompt_echoed (text : str) :
  _make_prompt text = echoed_prompt text ++ [LF].
Proof.
  unfold _make_prompt, echoed_prompt, prompt_head, prompt_tail.
  repeat rewrite <- app_assoc. cbn [app].
  repeat rewrite <- app_assoc. reflexivity.
Qed.

Lemma echoed_prompt_snoc (text : str) :
  echoed_prompt text
  = (prompt_head ++ TEXT_MARK ++ LF :: text ++ LF :: END_MARK
       ++ [LF; LF] ++ py "Corrected:" ++ [LF] ++ py "<<<OUT>>") ++ [">"%char].
Proof.
  unfold echoed_prompt, prompt_tail.
  repeat (rewrite <- app_assoc; cbn [app]). reflexivity.
Qed.

Lemma lf_only_app (a b : str) : lf_only (a ++ b) = lf_only a && lf_only b.
Proof. apply forallb_app. Qed.

Lemma lf_only_strip (s : str) : lf_only s = true -> lf_only (strip s) = true.
Proof.
  intros L. apply lf_only_lstrip in L. unfold strip.
  destruct (rstrip_prefix (lstrip s)) as [w [E _]].
  rewrite E, lf_only_app in L. now apply andb_true_iff in L.
Qed.

Lemma strip_make_prompt (text : str) :
  strip (_make_prompt text) = echoed_prompt text.
Proof.
  rewrite make_prompt_echoed. unfold strip.
  assert (lstrip (echoed_prompt text ++ [LF]) = echoed_prompt text ++ [LF])
    as ->.
  { unfold echoed_prompt. rewrite <- app_assoc, lstrip_app. reflexivity. }
  rewrite rstrip_app. cbn [rstrip is_empty]. 
  change (is_empty (rstrip [LF])) with true. cbv iota.
  rewrite echoed_prompt_snoc. now apply rstrip_snoc.
Qed.

Lemma strip_between_LF (text : str) :
  strip (LF :: text ++ [LF]) = strip text.
Proof.
  unfold strip. change (lstrip (LF :: text ++ [LF])) with (lstrip (text ++ [LF])).
  rewrite <- !lstrip_rstrip. f_equal.
  rewrite rstrip_app. reflexivity.
Qed.

Lemma strip_prefix_lines_clean (y : str) :
  lf_only y = true -> strip y = y ->
  preamble_match (strip (hd_line y)) = false ->
  _strip_prefix_lines y = y.
Proof.
  intros L S P. unfold _strip_prefix_lines.
  rewrite pop_preambles_none by exact P.
  destruct (strip_ends_clean y) as [E|[u [c [E C]]]]; rewrite S in E.
  - now subst y.
  - subst y. rewrite lf_only_app in L. apply andb_true_iff in L.
    destruct L as [L _].
    assert (islinebreak c = false) as B.
    { destruct (islinebreak c) eqn:B; [|reflexivity].
      apply linebreak_is_space in B. congruence. }
    rewrite join_splitlines_end by (rewrite ?B; auto).
    now rewrite B.
Qed.

Lemma echoed_prompt_prefix_lines (text : str) :
  lf_only text = true ->
  _strip_prefix_lines (echoed_prompt text) = echoed_prompt text.
Proof.
  intros L. apply strip_prefix_lines_clean.
  - unfold echoed_prompt.
    rewrite !lf_only_app. change (LF :: text ++ ?r) with ([LF] ++ text ++ r).
    rewrite !lf_only_app, L.
    change (LF :: END_MARK ++ prompt_tail) with ([LF] ++ END_MARK ++ prompt_tail).
    rewrite !lf_only_app. reflexivity.
  - rewrite <- strip_make_prompt. apply strip_idem.
  - unfold echoed_prompt, hd_line.
    change prompt_head
      with (py "You are a text post-processor." ++ LF :: skipn 31 prompt_head).
    rewrite <- app_assoc, <- app_comm_cons.
    rewrite splitlines_line_LF by reflexivity. reflexivity.
Qed.

Lemma echoed_prompt_extracted (text : str) :
  contains TEXT_MARK text = false -> contains END_MARK text = false ->
  _extract_between (echoed_prompt text) TEXT_MARK END_MARK = strip text.
Proof.
  intros T E.
  assert (find_last TEXT_MARK (echoed_prompt text) = Some (length prompt_head + 0))
    as F.
  { unfold echoed_prompt. apply find_last_app.
    change (TEXT_MARK ++ LF :: text ++ LF :: END_MARK ++ prompt_tail)
      with ("<"%char :: py "<<TEXT>>>" ++ LF :: text ++ LF :: END_MARK ++ prompt_tail).
    apply find_last_here; [reflexivity|].
    rewrite contains_app_sep by easy.
    rewrite contains_app_sep by easy.
    rewrite T. reflexivity. }
  assert (skipn (length prompt_head + 0 + length TEXT_MARK) (echoed_prompt text)
          = LF :: text ++ LF :: END_MARK ++ prompt_tail) as K.
  { unfold echoed_prompt. rewrite Nat.add_0_r, skipn_length_app.
    reflexivity. }
  rewrite (@extract_between_at _ _ _ _ (S (length text + 1)) F).
  - rewrite K. cbn [firstn]. rewrite firstn_app_2. cbn [firstn].
    apply strip_between_LF.
  - rewrite K, find_first_cons by reflexivity.
    now rewrite find_first_sep.
Qed.

Lemma echoed_prompt_echo (text : str) :
  contains TEXT_MARK text = false -> contains END_MARK text = false ->
  blank text = false ->
  echo_extraction (echoed_prompt text) = strip text.
Proof.
  intros T E B. unfold echo_extraction.
  rewrite echoed_prompt_extracted by assumption.
  unfold blank in B. rewrite B.
  assert (contains TEXT_MARK (echoed_prompt text) = true) as ->.
  { unfold echoed_prompt. apply contains_app_r, contains_self_app. }
  assert (contains END_MARK (echoed_prompt text) = true) as ->; [|reflexivity].
  unfold echoed_prompt.
  replace (prompt_head ++ TEXT_MARK ++ LF :: text ++ LF :: END_MARK ++ prompt_tail)
    with ((prompt_head ++ TEXT_MARK ++ LF :: text ++ [LF])
          ++ END_MARK ++ prompt_tail)
    by (repeat (rewrite <- app_assoc; cbn [app]); reflexivity).
  apply contains_app_r, contains_self_app.
Qed.

Lemma echoed_prompt_fences (text : str) :
  _strip_code_fences (echoed_prompt text) = echoed_prompt text.
Proof.
  apply fences_none.
  - reflexivity.
  - rewrite echoed_prompt_snoc. unfold endswith. rewrite rev_unit. reflexivity.
Qed.

(** X27. When generation returns the prompt itself and nothing more, the
    extraction stages give back the text that the prompt was built from,
    trimmed: for a text that is not blank, has line feeds as its only line
    breaks and, trimmed, has nothing for the stages to take away. *)
Theorem echoed_prompt_returns_text (text : str) :
  lf_only text = true ->
  blank text = false ->
  nothing_to_strip (strip text) ->
  _clean_output (_make_prompt text) = strip text.
Proof.
  intros L B N.
  pose proof N as (M & P & F1 & F2).
  pose proof M as M'. rewrite markers_strip in M'.
  destruct (@markers_absent text M') as (T & E & _ & _).
  destruct (@markers_absent (strip text) M) as (_ & _ & O & _).
  unfold _clean_output. cbv zeta.
  rewrite strip_make_prompt.
  change (is_empty (echoed_prompt text)) with false. cbv iota.
  rewrite echoed_prompt_fences.
  rewrite <- strip_make_prompt at 1. rewrite strip_idem, strip_make_prompt.
  rewrite echoed_prompt_prefix_lines by exact L.
  rewrite echoed_prompt_echo by assumption.
  rewrite answer_absent by exact O.
  rewrite scrub_absent by exact M.
  rewrite strip_prefix_lines_clean;
    [|now apply lf_only_strip|apply strip_idem|exact P].
  rewrite fences_none by assumption.
  apply strip_idem.
Qed.

Lemma echoed_prompt_returns_text_witness :
  _clean_output (_make_prompt (py "  Name | Qty" ++ LF :: py "andthe rest "))
  = py "Name | Qty" ++ LF :: py "andthe rest".
Proof.
  apply (@echoed_prompt_returns_text
           (py "  Name | Qty" ++ LF :: py "andthe rest ")).
  - reflexivity.
  - reflexivity.
  - repeat split; reflexivity.
Defined.
